(** * llm-journal: embeddings, clustering and hybrid search

    A shallow embedding of the semantic organisation engine of the journal
    application: [services/embeddingsService.js] (cosine similarity, k-means),
    [services/clusteringService.js] (trigger and regeneration of cluster
    folders), [services/searchService.js] (keyword, semantic and hybrid
    search) and the part of [services/databaseService.js] they go through.

    JavaScript numbers are IEEE 754 binary64 values and are held here as
    Rocq's primitive floats, which are the same values with the same
    round-to-nearest-even operations: [NaN], the infinities and rounding are
    part of the model.  Array indices, lengths and counters stay below 2^32
    in JavaScript and are held as [nat]. *)

From Stdlib Require Import Floats ZArith Lia Bool Ascii String.
From stdpp Require Import base option list gmap strings sorting.

Set Warnings "-inexact-float".
Open Scope Z_scope.

(* ================================================================== *)
(** * JavaScript values *)
(* ================================================================== *)

(** An integer-valued JavaScript number, or [NaN] (what [parseInt],
    [Math.floor] and [Math.min] of such values produce). *)
Inductive JsInt :=
  | JNaN
  | JInt (z : Z).

(** How often the body of [for (let i = 0; i < k; i++)] runs. *)
Definition loopBound (k : JsInt) : nat :=
  match k with
  | JInt z => Z.to_nat z
  | JNaN => 0%nat
  end.

(** [a < b], [a >= b] and [Math.min(a, b)]: every comparison with [NaN] is
    false and [Math.min] of a [NaN] is [NaN]. *)
Definition jsLt (a b : JsInt) : bool :=
  match a, b with
  | JInt x, JInt y => x <? y
  | _, _ => false
  end.

Definition jsGe (a b : JsInt) : bool :=
  match a, b with
  | JInt x, JInt y => y <=? x
  | _, _ => false
  end.

Definition jsMin (a b : JsInt) : JsInt :=
  match a, b with
  | JInt x, JInt y => JInt (Z.min x y)
  | _, _ => JNaN
  end.

(** [!n] is false for a number exactly when it is neither [0] nor [NaN]. *)
Definition jsTruthy (n : JsInt) : bool :=
  match n with
  | JInt z => negb (z =? 0)
  | JNaN => false
  end.

(** Errors a JavaScript call can raise. *)
Inductive Err :=
  | TypeError (msg : string)
  | Error (msg : string).

(** The ways a call can end: it returns, it throws, or it is still looping
    when the supplied random draws run out ([Math.random] is an input of
    the model, see [pickCentroids]). *)
Inductive outcome (A : Type) :=
  | Ok (a : A)
  | Throw (e : Err)
  | Diverge.
Arguments Ok {A} a.
Arguments Throw {A} e.
Arguments Diverge {A}.

(** A number read from an array: an index past the end reads [undefined],
    which arithmetic turns into [NaN]. *)
Definition getNum (a : list float) (i : nat) : float :=
  default nan (a !! i).

(** [a[i] = v]: inside the array the slot is overwritten, past the end the
    array grows (the slots skipped read as [undefined], hence [NaN]). *)
Definition arraySet (a : list float) (i : nat) (v : float) : list float :=
  if decide (i < length a)%nat then <[i := v]> a
  else a ++ replicate (i - length a) nan ++ [v].

(** An array length or counter as a number (exact below 2^53). *)
Definition numOfNat (n : nat) : float :=
  of_uint63 (Uint63.of_Z (Z.of_nat n)).

(* ================================================================== *)
(** * The order of binary64 numbers *)
(* ================================================================== *)

(** [SFcompare], the specification of the comparisons of binary64 numbers,
    read as a lexicographic order: class (negative infinity, negative,
    zero, positive, positive infinity), then exponent, then mantissa.
    [NaN] has no key. *)
Definition key (f : spec_float) : option (Z * Z * Z) :=
  match f with
  | S754_nan => None
  | S754_infinity true => Some (-2, 0, 0)
  | S754_finite true m e => Some (-1, - e, Z.neg m)
  | S754_zero _ => Some (0, 0, 0)
  | S754_finite false m e => Some (1, e, Z.pos m)
  | S754_infinity false => Some (2, 0, 0)
  end.

Definition lex3 (a b : Z * Z * Z) : comparison :=
  let '(a1, a2, a3) := a in
  let '(b1, b2, b3) := b in
  match a1 ?= b1 with
  | Eq => match a2 ?= b2 with Eq => a3 ?= b3 | c => c end
  | c => c
  end.

Definition lt3 (a b : Z * Z * Z) : Prop :=
  a.1.1 < b.1.1 \/ (a.1.1 = b.1.1 /\ (a.1.2 < b.1.2 \/ (a.1.2 = b.1.2 /\ a.2 < b.2))).

Definition fkey (x : float) := key (Prim2SF x).

(** The result of a rounding carries the sign [s]. *)
Inductive signed (s : bool) : spec_float -> Prop :=
  | signed_finite m e : signed s (S754_finite s m e)
  | signed_infinity : signed s (S754_infinity s).

(** A stable insertion sort; [after x y] says that [y] has to come before
    [x].  An element stays before a later one unless it has to come after
    it. *)
Fixpoint insertSorted {A} (after : A -> A -> bool) (x : A) (l : list A) : list A :=
  match l with
  | [] => [x]
  | y :: l' => if after x y then y :: insertSorted after x l' else x :: l
  end.

Definition stableSort {A} (after : A -> A -> bool) (l : list A) : list A :=
  foldr (insertSorted after) [] l.

(* ================================================================== *)
(** * Strings and dates *)
(* ================================================================== *)

(** Text is held as Rocq strings: a character is a code unit below 256,
    the ASCII and Latin-1 part of what a JavaScript string can hold. *)
Definition chars (s : string) : list ascii := list_ascii_of_string s.
Definition unchars (l : list ascii) : string := string_of_list_ascii l.

(** The white space [trim] and [parseInt] skip: tab, line feed, vertical
    tab, form feed, carriage return, space and no-break space. *)
Definition isSpace (c : ascii) : bool :=
  let n := nat_of_ascii c in
  ((9 <=? n) && (n <=? 13) || (n =? 32) || (n =? 160))%nat.

Fixpoint dropSpaces (l : list ascii) : list ascii :=
  match l with
  | [] => []
  | c :: l' => if isSpace c then dropSpaces l' else l
  end.

(** [s.trim()]. *)
Definition trim (s : string) : string :=
  unchars (reverse (dropSpaces (reverse (dropSpaces (chars s))))).

(** The case conversion of SQLite's [LOWER] and [LIKE]: the letters [A]
    to [Z] only. *)
Definition lowerChar (c : ascii) : ascii :=
  let n := nat_of_ascii c in
  if ((65 <=? n) && (n <=? 90))%nat then ascii_of_nat (n + 32) else c.

(** SQL [LOWER(s)]. *)
Definition sqlLower (s : string) : string :=
  unchars (lowerChar <$> chars s).

(** The case conversion of JavaScript's [toLowerCase]: the letters [A] to
    [Z], and the capital letters of Latin-1, the codes 192 to 222 apart
    from the multiplication sign 215. *)
Definition jsLowerChar (c : ascii) : ascii :=
  let n := nat_of_ascii c in
  if ((65 <=? n) && (n <=? 90))%nat then ascii_of_nat (n + 32)
  else if ((192 <=? n) && (n <=? 222) && negb (n =? 215))%nat
       then ascii_of_nat (n + 32)
  else c.

(** [s.toLowerCase()]. *)
Definition toLowerCase (s : string) : string :=
  unchars (jsLowerChar <$> chars s).

(** [s.substring(0, n)]. *)
Definition substring0 (n : nat) (s : string) : string :=
  unchars (take n (chars s)).

(** [s.length === 0] after [trim], the blank test of the search functions
    ([!query] is the empty string, [null] or [undefined]). *)
Definition isBlank (query : string) : bool :=
  match chars (trim query) with
  | [] => true
  | _ => false
  end.

(** The value of a character as a digit of [radix]. *)
Definition digitValue (radix : Z) (c : ascii) : option Z :=
  let n := Z.of_nat (nat_of_ascii c) in
  let v :=
    if (48 <=? n) && (n <=? 57) then Some (n - 48)
    else if (97 <=? n) && (n <=? 122) then Some (n - 87)
    else if (65 <=? n) && (n <=? 90) then Some (n - 55)
    else None in
  match v with
  | Some d => if d <? radix then Some d else None
  | None => None
  end.

(** The longest prefix of digits, read in [radix]; [None] without a digit. *)
Fixpoint readDigits (radix : Z) (acc : option Z) (l : list ascii) : option Z :=
  match l with
  | [] => acc
  | c :: l' =>
    match digitValue radix c with
    | Some d => readDigits radix (Some (default 0 acc * radix + d)) l'
    | None => acc
    end
  end.

(** [parseInt(s)]: leading white space, a sign, a [0x] prefix, then the
    digits; [NaN] when there is no digit. *)
Definition parseInt (s : string) : JsInt :=
  let l := dropSpaces (chars s) in
  let '(sign, l) :=
    match l with
    | "-"%char :: l' => (-1, l')
    | "+"%char :: l' => (1, l')
    | _ => (1, l)
    end in
  let '(radix, l) :=
    match l with
    | "0"%char :: "x"%char :: l' => (16, l')
    | "0"%char :: "X"%char :: l' => (16, l')
    | _ => (10, l)
    end in
  match readDigits radix None l with
  | Some n => JInt (sign * n)
  | None => JNaN
  end.

(** The decimal digits of a natural number, for template strings. *)
Definition digitChar (d : nat) : ascii := ascii_of_nat (48 + d).

Fixpoint natDigits (fuel n : nat) (acc : list ascii) : list ascii :=
  match fuel with
  | O => acc
  | S fuel' =>
    let acc' := digitChar (n mod 10) :: acc in
    if (n / 10 =? 0)%nat then acc' else natDigits fuel' (n / 10) acc'
  end.

Definition showNat (n : nat) : string := unchars (natDigits (S n) n []).

(** A JavaScript value as far as the code reads one. *)
Inductive JsValue :=
  | JUndefined
  | JNull
  | JString (s : string)
  | JNumber (z : Z).

#[global] Instance JsValue_eq_dec : EqDecision JsValue.
Proof. solve_decision. Defined.

(** A [Date]: its time value, [None] for an invalid date. *)
Definition JsDate := option Z.

(** [a > b] on dates: false when either is invalid. *)
Definition dateGt (a b : JsDate) : bool :=
  match a, b with
  | Some x, Some y => y <? x
  | _, _ => false
  end.

(** [a >= b] on dates: false when either is invalid. *)
Definition dateGe (a b : JsDate) : bool :=
  match a, b with
  | Some x, Some y => y <=? x
  | _, _ => false
  end.

(* ================================================================== *)
(** * The store and the environment *)
(* ================================================================== *)

(** A row of [journal_entries].  [embedding] and [topics] are TEXT columns
    holding JSON; the embedding is kept as the array it encodes. *)
Record Entry := {
  e_id : Z;
  e_date : string;
  e_mode : string;
  e_audio_path : option string;
  e_transcript : option string;
  e_summary : option string;
  e_name : option string;
  e_created_at : Z;
  e_embedding : option (list float);
  e_topics : option string;
  e_cluster_id : option nat;
}.

(** An entry as [getEntriesForClustering] returns it and
    [clusterEmbeddings] receives it: [id], [transcript], [summary] and the
    parsed [embedding]. *)
Record ClusterEntry := {
  ce_id : Z;
  ce_transcript : option string;
  ce_summary : option string;
  ce_embedding : list float;
}.

Record Assignment := {
  entryId : Z;
  clusterId : nat;
}.

(** A row of [smart_folders]. *)
Record Folder := {
  folder_id : Z;
  folder_name : string;
  folder_type : string;
  folder_rules : option string;
  folder_cluster_id : option nat;
  folder_color : option string;
}.

(** A row of [folder_entries]. *)
Record FolderEntry := {
  fe_folder_id : Z;
  fe_entry_id : Z;
  fe_folder_type : string;
}.

(** The database: the tables in row order, the settings, and the next
    AUTOINCREMENT id of [smart_folders]. *)
Record Store := {
  journal_entries : list Entry;
  smart_folders : list Folder;
  folder_entries : list FolderEntry;
  settings : gmap string string;
  next_folder_id : Z;
}.

(** What the code cannot decide: which database calls fail, what the
    OpenAI endpoints answer, the clock, [Math.random] and [Date] parsing.
    Database calls and HTTP requests are numbered in the order the run
    makes them. *)
Record Env := {
  dbFails : nat -> bool;
  chatReply : nat -> string -> option string;
  embeddingReply : nat -> string -> option (list float);
  nowISO : string;
  randomDraws : list nat;
  dateParse : string -> JsDate;
}.

(** The state a run threads: the store, the numbers of database calls and
    HTTP requests made, and the console. *)
Record World := {
  store : Store;
  dbCalls : nat;
  httpCalls : nat;
  console : list string;
}.

(** Computations: an outcome and the world left behind.  A throw keeps
    the writes made before it. *)
Definition M (A : Type) : Type := Env -> World -> outcome A * World.

Definition ret {A} (a : A) : M A := fun _ w => (Ok a, w).

Definition bind {A B} (m : M A) (f : A -> M B) : M B :=
  fun env w =>
    match m env w with
    | (Ok a, w') => f a env w'
    | (Throw e, w') => (Throw e, w')
    | (Diverge, w') => (Diverge, w')
    end.

Definition throw {A} (e : Err) : M A := fun _ w => (Throw e, w).

(** [try { m } catch (error) { handler(error) }]. *)
Definition tryCatch {A} (m : M A) (handler : Err -> M A) : M A :=
  fun env w =>
    match m env w with
    | (Throw e, w') => handler e env w'
    | r => r
    end.

Definition ask : M Env := fun env w => (Ok env, w).

(** [console.log] and [console.error]. *)
Definition logged (w : World) (msg : string) : World :=
  {| store := store w; dbCalls := dbCalls w; httpCalls := httpCalls w;
     console := console w ++ [msg] |}.

Definition log (msg : string) : M unit :=
  fun _ w => (Ok tt, logged w msg).

(** The result of a pure call that may throw. *)
Definition lift {A} (r : outcome A) : M A := fun _ w => (r, w).

Declare Scope monad_scope.
Delimit Scope monad_scope with M.
Notation "'let*' x ':=' m 'in' k" := (bind m (fun x => k))
  (at level 10, x name, m at level 100, k at level 200) : monad_scope.
Notation "'do*' m 'in' k" := (bind m (fun _ => k))
  (at level 10, m at level 100, k at level 200) : monad_scope.
Open Scope monad_scope.

(** [for (const x of l) { body(x) }]. *)
Fixpoint forEach {A} (l : list A) (body : A -> M unit) : M unit :=
  match l with
  | [] => ret tt
  | x :: l' => do* body x in forEach l' body
  end.

(** [await Promise.all(l.map(f))], the calls made in order. *)
Fixpoint mapAll {A B} (l : list A) (f : A -> M B) : M (list B) :=
  match l with
  | [] => ret []
  | x :: l' => let* y := f x in let* ys := mapAll l' f in ret (y :: ys)
  end.



(** A computation that leaves [view] of the store as it is, however it
    ends. *)
Definition keepsView {A X} (view : Store -> X) (m : M A) : Prop :=
  forall env w, view (store (m env w).2) = view (store w).

(** A computation that sends no request. *)
Definition sendsNothing {A} (m : M A) : Prop :=
  forall env w, httpCalls (m env w).2 = httpCalls w.

(** A computation that comes to an end and leaves the store as it is. *)
Definition readsOnly {A} (m : M A) : Prop :=
  forall env w, (m env w).1 <> Diverge /\ store (m env w).2 = store w.

(* ================================================================== *)
(** * services/databaseService.js *)
(* ================================================================== *)

Module databaseService.

(** One call of [db.getAllAsync], [db.getFirstAsync] or [db.runAsync]: it
    fails when the environment says so, and otherwise runs [f] on the store. *)
Definition afterCall (w : World) (s : Store) : World :=
  {| store := s; dbCalls := S (dbCalls w); httpCalls := httpCalls w;
     console := console w |}.

Definition dbCall {A} (f : Store -> A * Store) : M A :=
  fun env w =>
    if dbFails env (dbCalls w)
    then (Throw (Error "database error"), afterCall w (store w))
    else (Ok (f (store w)).1, afterCall w (f (store w)).2).

Definition query {A} (f : Store -> A) : M A := dbCall (fun s => (f s, s)).
Definition run (f : Store -> Store) : M unit := dbCall (fun s => (tt, f s)).

(** The fields [updateJournalEntry] can set; [None] is a property that is
    not given. *)
Record Updates := {
  u_transcript : option (option string);
  u_summary : option (option string);
  u_name : option (option string);
  u_embedding : option (option (list float));
  u_topics : option (option string);
  u_cluster_id : option (option nat);
}.

Definition applyUpdates (u : Updates) (e : Entry) : Entry :=
  {| e_id := e_id e; e_date := e_date e; e_mode := e_mode e; e_audio_path := e_audio_path e;
     e_transcript := default (e_transcript e) (u_transcript u);
     e_summary := default (e_summary e) (u_summary u);
     e_name := default (e_name e) (u_name u);
     e_created_at := e_created_at e;
     e_embedding := default (e_embedding e) (u_embedding u);
     e_topics := default (e_topics e) (u_topics u);
     e_cluster_id := default (e_cluster_id e) (u_cluster_id u) |}.

(** Whether [fields] is non-empty. *)
Definition hasUpdates (u : Updates) : bool :=
  bool_decide (is_Some (u_transcript u)) || bool_decide (is_Some (u_summary u))
  || bool_decide (is_Some (u_name u)) || bool_decide (is_Some (u_embedding u))
  || bool_decide (is_Some (u_topics u)) || bool_decide (is_Some (u_cluster_id u)).

Definition withEntries (s : Store) (es : list Entry) : Store :=
  {| journal_entries := es; smart_folders := smart_folders s;
     folder_entries := folder_entries s; settings := settings s;
     next_folder_id := next_folder_id s |}.

(** [updateJournalEntry(id, updates)]: without a field the statement is
    [UPDATE journal_entries SET  WHERE id = ?], which SQLite rejects. *)
Definition updateJournalEntry (i : Z) (u : Updates) : M unit :=
  if hasUpdates u
  then run (fun s =>
         withEntries s
           ((fun e => if decide (e_id e = i) then applyUpdates u e else e)
              <$> journal_entries s))
  else do* dbCall (fun s => (tt, s)) in throw (Error "SQL syntax error").

(** [getJournalEntry(id)]: the row, or [null]. *)
Definition getJournalEntry (i : Z) : M (option Entry) :=
  query (fun s => head (filter (fun e => e_id e = i) (journal_entries s))).

(** The value [getSetting] returns, [result?.value || null]: an empty
    value reads as [null]. *)
Definition settingOf (s : Store) (key : string) : option string :=
  match settings s !! key with
  | Some v => if decide (v = "") then None else Some v
  | None => None
  end.

(** [getSetting(key)]. *)
Definition getSetting (key : string) : M (option string) :=
  query (fun s => settingOf s key).

(** INSERT OR REPLACE INTO settings (key, value) VALUES (?, ?). *)
Definition putSetting (key value : string) (s : Store) : Store :=
  {| journal_entries := journal_entries s; smart_folders := smart_folders s;
     folder_entries := folder_entries s;
     settings := <[key := value]> (settings s);
     next_folder_id := next_folder_id s |}.

(** [setSetting(key, value)]. *)
Definition setSetting (key value : string) : M unit :=
  run (putSetting key value).

(** INSERT INTO smart_folders (name, type, rules, cluster_id, color)
    VALUES (?, ?, ?, ?, ?). *)
Definition insertFolder (name type : string) (rules : option string)
    (clusterId : option nat) (color : option string) (s : Store) : Store :=
  {| journal_entries := journal_entries s;
     smart_folders :=
       smart_folders s ++
       [ {| folder_id := next_folder_id s; folder_name := name;
            folder_type := type; folder_rules := rules;
            folder_cluster_id := clusterId; folder_color := color |} ];
     folder_entries := folder_entries s; settings := settings s;
     next_folder_id := next_folder_id s + 1 |}.

(** [createSmartFolder(name, type, rules, clusterId, color)]: the new
    row's id. *)
Definition createSmartFolder (name type : string) (rules : option string)
    (clusterId : option nat) (color : option string) : M Z :=
  dbCall (fun s => (next_folder_id s, insertFolder name type rules clusterId color s)).

(** [getSmartFolders()]: ORDER BY created_at DESC.  The table holds the
    rows in the order of their creation, and the rows are taken to be
    created at different times: the newest row comes first. *)
Definition getSmartFolders : M (list Folder) :=
  query (fun s => reverse (smart_folders s)).

(** DELETE FROM smart_folders WHERE id = ?. *)
Definition deleteFolderRow (i : Z) (s : Store) : Store :=
  {| journal_entries := journal_entries s;
     smart_folders := filter (fun f => folder_id f ≠ i) (smart_folders s);
     folder_entries := folder_entries s; settings := settings s;
     next_folder_id := next_folder_id s |}.

(** DELETE FROM folder_entries WHERE folder_id = ? AND folder_type = 'smart'. *)
Definition deleteFolderLinks (i : Z) (s : Store) : Store :=
  {| journal_entries := journal_entries s; smart_folders := smart_folders s;
     folder_entries :=
       filter (fun r => ¬ (fe_folder_id r = i ∧ fe_folder_type r = "smart"))
         (folder_entries s);
     settings := settings s; next_folder_id := next_folder_id s |}.

(** [deleteSmartFolder(id)]: two statements. *)
Definition deleteSmartFolder (i : Z) : M unit :=
  do* run (deleteFolderRow i) in
  run (deleteFolderLinks i).

(** The rows with an embedding, as [getEntriesForClustering] returns
    them: SELECT id, transcript, summary, embedding ... WHERE embedding IS
    NOT NULL. *)
Definition clusterRows (s : Store) : list ClusterEntry :=
  omap (fun e =>
          match e_embedding e with
          | Some v =>
            Some {| ce_id := e_id e;
                    ce_transcript := e_transcript e;
                    ce_summary := e_summary e;
                    ce_embedding := v |}
          | None => None
          end)
       (journal_entries s).

Definition getEntriesForClustering : M (list ClusterEntry) :=
  query clusterRows.

(** A property of a row returned by [getEntriesForClustering], as a date
    constructor argument: the row has the four selected columns, any other
    name reads [undefined]. *)
Definition clusterRowProp (r : ClusterEntry) (p : string)
    : JsValue :=
  if decide (p = "id") then JNumber (ce_id r)
  else if decide (p = "transcript")
       then from_option JString JNull (ce_transcript r)
  else if decide (p = "summary")
       then from_option JString JNull (ce_summary r)
  else if decide (p = "embedding") then JNull
  else JUndefined.

(** [updateEntryClusters(clusterAssignments)]. *)
Definition updateEntryClusters
    (clusterAssignments : list Assignment) : M unit :=
  forEach clusterAssignments (fun assignment =>
    updateJournalEntry (entryId assignment)
      {| u_transcript := None; u_summary := None; u_name := None;
         u_embedding := None; u_topics := None;
         u_cluster_id := Some (Some (clusterId assignment)) |}).

(** ** Listing entries *)

(** [getJournalEntries()]: SELECT * ... ORDER BY created_at DESC (rows
    created at the same time keep the order of the table). *)
Definition newestFirst (es : list Entry) : list Entry :=
  stableSort (fun x y => e_created_at x <? e_created_at y) es.

Definition oldestFirst (es : list Entry) : list Entry :=
  stableSort (fun x y => e_created_at y <? e_created_at x) es.

Definition getJournalEntries : M (list Entry) :=
  query (fun s => newestFirst (journal_entries s)).

(** [getJournalEntriesSorted(sortBy)]; [JUndefined] is the argument left
    out, which the default ['date_desc'] replaces. *)
Definition getJournalEntriesSorted (sortBy : JsValue) : M (list Entry) :=
  let sortBy := if decide (sortBy = JUndefined) then JString "date_desc" else sortBy in
  if decide (sortBy = JString "date_asc")
  then query (fun s => oldestFirst (journal_entries s))
  else query (fun s => newestFirst (journal_entries s)).

(** ** Smart folders, one at a time *)

(** The fields [updateSmartFolder] can set; [None] is a property that is
    not given, [Some None] a property that is [null].  A rules object is
    held as the text [JSON.stringify] gives for it. *)
Record FolderUpdates := {
  fu_name : option (option string);
  fu_rules : option (option string);
  fu_color : option (option string);
}.

Definition hasFolderUpdates (u : FolderUpdates) : bool :=
  bool_decide (is_Some (fu_name u)) || bool_decide (is_Some (fu_rules u))
  || bool_decide (is_Some (fu_color u)).

(** The row after the UPDATE; [JSON.stringify(null)] is the text [null]. *)
Definition applyFolderUpdates (u : FolderUpdates) (f : Folder) : Folder :=
  {| folder_id := folder_id f;
     folder_name :=
       match fu_name u with
       | Some (Some name) => name
       | _ => folder_name f
       end;
     folder_type := folder_type f;
     folder_rules :=
       match fu_rules u with
       | Some (Some text) => Some text
       | Some None => Some "null"
       | None => folder_rules f
       end;
     folder_cluster_id := folder_cluster_id f;
     folder_color := default (folder_color f) (fu_color u) |}.

Definition withFolders (s : Store) (fs : list Folder) : Store :=
  {| journal_entries := journal_entries s; smart_folders := fs;
     folder_entries := folder_entries s; settings := settings s;
     next_folder_id := next_folder_id s |}.

(** [updateSmartFolder(id, updates)]: without a field the statement is
    [UPDATE smart_folders SET  WHERE id = ?], which SQLite rejects; a
    [null] name breaks NOT NULL when a row has the id. *)
Definition updateSmartFolder (i : Z) (u : FolderUpdates) : M unit :=
  if hasFolderUpdates u
  then
    let* done :=
      dbCall (fun s =>
        if bool_decide (fu_name u = Some None)
           && bool_decide (i ∈ folder_id <$> smart_folders s)
        then (false, s)
        else (true,
              withFolders s
                ((fun f => if decide (folder_id f = i)
                           then applyFolderUpdates u f else f)
                   <$> smart_folders s))) in
    if done then ret tt
    else throw (Error "NOT NULL constraint failed: smart_folders.name")
  else do* dbCall (fun s => (tt, s)) in throw (Error "SQL syntax error").

(** ** Folder entries *)

Definition linkIs (folderId entryId : Z) (folderType : string)
    (r : FolderEntry) : Prop :=
  fe_folder_id r = folderId ∧ fe_entry_id r = entryId
  ∧ fe_folder_type r = folderType.

#[global] Instance linkIs_dec folderId entryId folderType r :
  Decision (linkIs folderId entryId folderType r).
Proof. unfold linkIs. apply _. Defined.

Definition withLinks (s : Store) (links : list FolderEntry) : Store :=
  {| journal_entries := journal_entries s; smart_folders := smart_folders s;
     folder_entries := links; settings := settings s;
     next_folder_id := next_folder_id s |}.

(** [addEntryToFolder(folderId, entryId, folderType)]: a look-up, and an
    INSERT when it finds nothing. *)
Definition addEntryToFolder (folderId entryId : Z) (folderType : string) : M unit :=
  let* existing :=
    query (fun s => head (filter (linkIs folderId entryId folderType)
                            (folder_entries s))) in
  match existing with
  | Some _ => ret tt
  | None =>
    run (fun s =>
      withLinks s
        (folder_entries s
         ++ [ {| fe_folder_id := folderId; fe_entry_id := entryId;
                 fe_folder_type := folderType |} ]))
  end.

(** [removeEntryFromFolder(folderId, entryId, folderType)]. *)
Definition removeEntryFromFolder (folderId entryId : Z) (folderType : string)
    : M unit :=
  run (fun s =>
    withLinks s
      (filter (fun r => ¬ linkIs folderId entryId folderType r) (folder_entries s))).

(** SELECT * FROM journal_entries WHERE cluster_id = ? ORDER BY created_at
    DESC. *)
Definition entriesOfCluster (c : nat) (s : Store) : list Entry :=
  newestFirst (filter (fun e => e_cluster_id e = Some c) (journal_entries s)).

(** SELECT je.* FROM journal_entries je INNER JOIN folder_entries fe ON
    je.id = fe.entry_id WHERE fe.folder_id = ? AND fe.folder_type = ? ORDER
    BY je.created_at DESC: an entry comes once for each of its rows in the
    junction table. *)
Definition entriesLinked (folderId : Z) (folderType : string) (s : Store)
    : list Entry :=
  newestFirst
    (e ← journal_entries s;
     (fun _ => e) <$> filter (linkIs folderId (e_id e) folderType) (folder_entries s)).

Section Json.

(** Whether [JSON.parse] accepts a text. *)
Variable jsonValid : string -> bool.

(** [getSmartFolder(id)]: the row, its rules parsed when it has some (the
    folder keeps the text here), or [null]. *)
Definition getSmartFolder (i : Z) : M (option Folder) :=
  let* folder :=
    query (fun s => head (filter (fun f => folder_id f = i) (smart_folders s))) in
  match folder with
  | Some f =>
    match folder_rules f with
    | Some text =>
      if decide (text = "") then ret folder
      else if jsonValid text then ret folder
      else throw (Error "SyntaxError: JSON Parse error")
    | None => ret folder
    end
  | None => ret None
  end.

(** [getEntriesInFolder(folderId, folderType)]. *)
Definition getEntriesInFolder (folderId : Z) (folderType : string)
    : M (list Entry) :=
  let junction := query (entriesLinked folderId folderType) in
  if decide (folderType = "smart") then
    let* folder := getSmartFolder folderId in
    match folder with
    | Some f =>
      if decide (folder_type f = "cluster") then
        match folder_cluster_id f with
        | Some c => query (entriesOfCluster c)
        | None => junction
        end
      else junction
    | None => junction
    end
  else junction.

End Json.

End databaseService.

(** [new Date(v)]. *)
Definition newDate (env : Env) (v : JsValue) : JsDate :=
  match v with
  | JUndefined => None
  | JNull => Some 0
  | JNumber z => Some z
  | JString s => dateParse env s
  end.

(* ================================================================== *)
(** * services/embeddingsService.js *)
(* ================================================================== *)

Module embeddingsService.

(** [cosineSimilarity(a, b)]; [None] stands for [null] or [undefined]. *)
Definition cosineSimilarity (a b : option (list float)) : float :=
  match a, b with
  | Some a, Some b =>
    if negb (length a =? length b)%nat then 0%float
    else
      let '(dotProduct, normA, normB) :=
        fold_left
          (fun '(dotProduct, normA, normB) i =>
             (dotProduct + getNum a i * getNum b i,
              normA + getNum a i * getNum a i,
              normB + getNum b i * getNum b i)%float)
          (seq 0 (length a)) (0, 0, 0)%float in
      let denominator := (sqrt normA * sqrt normB)%float in
      if (denominator =? 0)%float then 0%float
      else (dotProduct / denominator)%float
  | _, _ => 0%float
  end.

(** Centroid initialisation.  [draws] are the successive values of
    [Math.floor(Math.random() * n)], each given by a natural number reduced
    modulo [n]; the [do ... while] loop skips the indices already used. *)
Fixpoint pickCentroids (embeddings : list (list float)) (remaining : nat)
    (usedIndices : list nat) (centroids : list (list float))
    (draws : list nat) {struct draws} : outcome (list (list float)) :=
  match remaining with
  | O => Ok centroids
  | S remaining' =>
    match draws with
    | [] => Diverge
    | r :: draws' =>
      let idx := (r mod length embeddings)%nat in
      if bool_decide (idx ∈ usedIndices)
      then pickCentroids embeddings remaining usedIndices centroids draws'
      else
        match embeddings !! idx with
        | Some e =>
          pickCentroids embeddings remaining' (idx :: usedIndices)
            (centroids ++ [e]) draws'
        | None => Throw (TypeError "undefined is not iterable")
        end
    end
  end.

(** How many different indices the draws contain: the initialisation
    finishes once [k] different indices have been drawn. *)
Definition distinctDraws (n : nat) (draws : list nat) : nat :=
  length (remove_dups (map (fun r => r mod n)%nat draws)).

(** Body of the inner loop of the assignment step: centroid [j] replaces
    the best one so far when its similarity is strictly greater. *)
Definition nearestBody (e : list float) (centroids : list (list float))
    (best : nat * float) (j : nat) : nat * float :=
  let '(bestCluster, bestSimilarity) := best in
  let similarity := cosineSimilarity (Some e) (centroids !! j) in
  if (bestSimilarity <? similarity)%float
  then (j, similarity)
  else (bestCluster, bestSimilarity).

(** [bestCluster] after the inner loop [for (let j = 1; j < k; j++)]. *)
Definition nearestCentroid (e : list float) (centroids : list (list float))
    (k : nat) : nat :=
  fst (fold_left (nearestBody e centroids) (seq 1 (k - 1))
         (0%nat, cosineSimilarity (Some e) (centroids !! 0%nat))).

(** Body of the assignment loop, for entry [i]. *)
Definition assignBody (embeddings centroids : list (list float)) (k : nat)
    (st : list nat * bool) (i : nat) : list nat * bool :=
  let '(assignments, changed) := st in
  let bestCluster := nearestCentroid (embeddings !!! i) centroids k in
  if decide (assignments !! i = Some bestCluster)
  then (assignments, changed)
  else (<[i := bestCluster]> assignments, true).

(** Assignment step: the new assignments and the [changed] flag. *)
Definition assignStep (embeddings centroids : list (list float)) (k : nat)
    (assignments : list nat) : list nat * bool :=
  fold_left (assignBody embeddings centroids k)
    (seq 0 (length embeddings)) (assignments, false).

(** [for (let d = 0; d < dims; d++) row[d] += e[d]]. *)
Definition addInto (e : list float) (dims : nat) (row : list float)
    : list float :=
  fold_left (fun row d => alter (fun x => (x + getNum e d)%float) d row)
    (seq 0 dims) row.

(** Update step, body of the first loop, for entry [i]. *)
Definition accumulateBody (embeddings : list (list float)) (dims : nat)
    (assignments : list nat) (st : list (list float) * list nat) (i : nat)
    : list (list float) * list nat :=
  let '(newCentroids, counts) := st in
  let cluster := assignments !!! i in
  (alter (addInto (embeddings !!! i) dims) cluster newCentroids,
   alter S cluster counts).

(** Update step, first loop: per cluster, the coordinate-wise sums and the
    member count. *)
Definition accumulate (embeddings : list (list float)) (dims k : nat)
    (assignments : list nat) : list (list float) * list nat :=
  fold_left (accumulateBody embeddings dims assignments)
    (seq 0 (length embeddings))
    (replicate k (replicate dims 0%float), replicate k 0%nat).

(** [for (let d = 0; d < dims; d++) c[d] = sums[d] / count]. *)
Definition divideInto (sums : list float) (count : nat) (dims : nat)
    (c : list float) : list float :=
  fold_left (fun c d => arraySet c d (getNum sums d / numOfNat count)%float)
    (seq 0 dims) c.

(** Update step, body of the second loop, for centroid [j]. *)
Definition updateBody (newCentroids : list (list float)) (counts : list nat)
    (dims : nat) (centroids : list (list float)) (j : nat)
    : list (list float) :=
  if decide (0 < counts !!! j)%nat
  then alter (divideInto (newCentroids !!! j) (counts !!! j) dims) j centroids
  else centroids.

(** Update step: centroids with members become the mean of their members. *)
Definition updateCentroids (embeddings : list (list float)) (dims k : nat)
    (assignments : list nat) (centroids : list (list float))
    : list (list float) :=
  let '(newCentroids, counts) := accumulate embeddings dims k assignments in
  fold_left (updateBody newCentroids counts dims) (seq 0 k) centroids.

(** The main loop, [iters] iterations left. *)
Fixpoint kmeansLoop (iters : nat) (embeddings : list (list float))
    (dims k : nat) (centroids : list (list float)) (assignments : list nat)
    : list nat :=
  match iters with
  | O => assignments
  | S iters' =>
    let '(assignments', changed) := assignStep embeddings centroids k assignments in
    if negb changed then assignments'
    else
      kmeansLoop iters' embeddings dims k
        (updateCentroids embeddings dims k assignments' centroids) assignments'
  end.

(** [clusterEmbeddings(entries, k, maxIterations)]. *)
Definition clusterEmbeddings (entries : list ClusterEntry) (k : JsInt)
    (maxIterations : nat) (draws : list nat) : outcome (list Assignment) :=
  if jsLt (JInt (Z.of_nat (length entries))) k
  then Ok (map (fun entry => {| entryId := ce_id entry; clusterId := 0 |}) entries)
  else
    let embeddings := map ce_embedding entries in
    match embeddings !! 0%nat with
    | None => Throw (TypeError "Cannot read properties of undefined (reading 'length')")
    | Some e0 =>
      let dims := length e0 in
      match pickCentroids embeddings (loopBound k) [] [] draws with
      | Ok centroids =>
        let assignments :=
          kmeansLoop maxIterations embeddings dims (loopBound k) centroids
            (replicate (length embeddings) 0%nat) in
        Ok (imap (fun index entry =>
                    {| entryId := ce_id entry; clusterId := assignments !!! index |})
                 entries)
      | Throw e => Throw e
      | Diverge => Diverge
      end
    end.

(** One HTTP request ([axios.post] and the reading of the response body):
    the environment gives the reply, [None] when the request fails or the
    body has not the expected shape. *)
Definition afterRequest (w : World) : World :=
  {| store := store w; dbCalls := dbCalls w; httpCalls := S (httpCalls w);
     console := console w |}.

Definition httpCall {A} (reply : Env -> nat -> option A) : M A :=
  fun env w =>
    match reply env (httpCalls w) with
    | Some a => (Ok a, afterRequest w)
    | None => (Throw (Error "request failed"), afterRequest w)
    end.

(** [generateEmbedding(text)]. *)
Definition generateEmbedding (text : string) : M (list float) :=
  tryCatch
    (let* apiKey := databaseService.getSetting "openai_api_key" in
     match apiKey with
     | None => throw (Error "OpenAI API key not configured")
     | Some _ =>
       let maxLength := (8 * 1000)%nat in
       let truncatedText :=
         if (maxLength <? length (chars text))%nat
         then substring0 maxLength text else text in
       httpCall (fun env n => embeddingReply env n truncatedText)
     end)
    (fun error =>
       do* log "Embedding generation error:" in
       throw error).

Definition newline : string := String (ascii_of_nat 10) EmptyString.

(** [entry.summary || entry.transcript.substring(0, 200)] for a sample
    entry ([None] is the [null] that [getJournalEntry] returns for a
    missing row). *)
Definition sampleText (entry : option Entry) : outcome string :=
  match entry with
  | None => Throw (TypeError "Cannot read properties of null (reading 'summary')")
  | Some e =>
    let fromTranscript :=
      match e_transcript e with
      | Some t => Ok (substring0 200 t)
      | None => Throw (TypeError "Cannot read properties of null (reading 'substring')")
      end in
    match e_summary e with
    | Some s => if decide (s = "") then fromTranscript else Ok s
    | None => fromTranscript
    end
  end.

(** The [samples] text: the first three entries, numbered from 1, joined
    by blank lines. *)
Fixpoint formatSamples (idx : nat) (entries : list (option Entry))
    : outcome (list string) :=
  match entries with
  | [] => Ok []
  | entry :: rest =>
    match sampleText entry with
    | Ok text =>
      match formatSamples (S idx) rest with
      | Ok lines => Ok (("Entry " +:+ showNat (idx + 1) +:+ ": " +:+ text) :: lines)
      | Throw e => Throw e
      | Diverge => Diverge
      end
    | Throw e => Throw e
    | Diverge => Diverge
    end
  end.

Fixpoint join (sep : string) (l : list string) : string :=
  match l with
  | [] => ""
  | [s] => s
  | s :: rest => s +:+ sep +:+ join sep rest
  end.

(** [labelCluster(sampleEntries)]: every failure inside is caught and
    gives the placeholder label. *)
Definition labelCluster (sampleEntries : list (option Entry)) : M string :=
  tryCatch
    (let* apiKey := databaseService.getSetting "openai_api_key" in
     match apiKey with
     | None => throw (Error "OpenAI API key not configured")
     | Some _ =>
       let* lines := lift (formatSamples 0 (take 3 sampleEntries)) in
       let samples := join (newline +:+ newline) lines in
       let* content :=
         httpCall (fun env n =>
           chatReply env n
             ("Generate a label for these related journal entries:"
              +:+ newline +:+ newline +:+ samples)) in
       ret (trim content)
     end)
    (fun error =>
       do* log "Cluster labeling error:" in
       ret "Untitled Topic").

(** [s.split(sep)] for a one-character separator: the pieces between the
    separators, one more than there are separators. *)
Fixpoint splitOn (sep : ascii) (l : list ascii) : list (list ascii) :=
  match l with
  | [] => [[]]
  | c :: l' =>
    if decide (c = sep) then [] :: splitOn sep l'
    else
      match splitOn sep l' with
      | piece :: rest => (c :: piece) :: rest
      | [] => [[c]]
      end
  end.

Definition split (sep : ascii) (s : string) : list string :=
  unchars <$> splitOn sep (chars s).

(** [extractTopics(text)]: every failure inside is caught and gives the
    empty list. *)
Definition extractTopics (text : string) : M (list string) :=
  tryCatch
    (let* apiKey := databaseService.getSetting "openai_api_key" in
     match apiKey with
     | None => throw (Error "OpenAI API key not configured")
     | Some _ =>
       let* content :=
         httpCall (fun env n =>
           chatReply env n
             ("Extract topics from:" +:+ newline +:+ newline +:+ text)) in
       let topicsText := trim content in
       ret (filter (fun t => (0 < length (chars t))%nat)
              (trim <$> split "," topicsText))
     end)
    (fun error =>
       do* log "Topic extraction error:" in
       ret []).

(** ** What the update step is meant to compute *)

(** The embeddings assigned to cluster [j], in index order. *)
Definition members (embeddings : list (list float)) (assignments : list nat)
    (j : nat) : list (list float) :=
  (fun i => embeddings !!! i)
    <$> filter (fun i => assignments !!! i = j) (seq 0 (length embeddings)).

(** The sum of coordinate [d] over the members, added in index order
    starting from [0]. *)
Definition columnSum (ms : list (list float)) (d : nat) : float :=
  fold_left (fun acc e => (acc + getNum e d)%float) ms 0%float.

(** The element-wise mean of the members, over [dims] coordinates. *)
Definition meanOf (ms : list (list float)) (dims : nat) : list float :=
  map (fun d => (columnSum ms d / numOfNat (length ms))%float) (seq 0 dims).

(** The similarity the assignment step compares for entry [e] and
    centroid [j]. *)
Definition similarityTo (e : list float) (centroids : list (list float))
    (j : nat) : float :=
  cosineSimilarity (Some e) (centroids !! j).

End embeddingsService.
(* ================================================================== *)
(** * services/clusteringService.js *)
(* ================================================================== *)

Module clusteringService.
Import databaseService embeddingsService.

(** [clusterGroups[clusterId].push(entryId)], creating the array on first
    use.  The groups are kept in ascending order of cluster id, the order
    in which [Object.entries] lists integer keys. *)
Fixpoint groupPush (groups : list (nat * list Z)) (c : nat) (i : Z)
    : list (nat * list Z) :=
  match groups with
  | [] => [(c, [i])]
  | (c', ids) :: rest =>
    if decide (c = c') then (c', ids ++ [i]) :: rest
    else if decide (c < c')%nat then (c, [i]) :: groups
    else (c', ids) :: groupPush rest c i
  end.

Definition groupByCluster (clusterAssignments : list Assignment)
    : list (nat * list Z) :=
  fold_left (fun groups a => groupPush groups (clusterId a) (entryId a))
    clusterAssignments [].

Definition showJsInt (n : JsInt) : string :=
  match n with
  | JNaN => "NaN"
  | JInt z => if z <? 0 then "-" +:+ showNat (Z.to_nat (- z)) else showNat (Z.to_nat z)
  end.

(** ** What a run is meant to do *)

(** The number of clusters a run asks for: the argument when it is given
    and truthy, else the [cluster_count] setting, else 5. *)
Definition requestedK (numClusters : option JsInt) (s : Store) : JsInt :=
  let fromSettings :=
    match settingOf s "cluster_count" with
    | Some v => parseInt v
    | None => JInt 5
    end in
  match numClusters with
  | Some n => if jsTruthy n then n else fromSettings
  | None => fromSettings
  end.

(** The entries after the assignments are written: each assignment, in
    order, sets the [cluster_id] of the entry with its [entryId]. *)
Definition writeClusters (clusterAssignments : list Assignment)
    (es : list Entry) : list Entry :=
  fold_left
    (fun es a =>
       (fun e =>
          if decide (e_id e = entryId a)
          then applyUpdates
                 {| u_transcript := None; u_summary := None; u_name := None;
                    u_embedding := None; u_topics := None;
                    u_cluster_id := Some (Some (clusterId a)) |} e
          else e) <$> es)
    clusterAssignments es.

(** The store after the cluster folders among [fs] are deleted. *)
Definition dropClusterFolders (fs : list Folder) (s : Store) : Store :=
  fold_left
    (fun s f =>
       if decide (folder_type f = "cluster")
       then deleteFolderLinks (folder_id f) (deleteFolderRow (folder_id f) s)
       else s)
    fs s.

(** The groups that get a folder: those with at least two entries. *)
Definition survivors (groups : list (nat * list Z)) : list (nat * list Z) :=
  filter (fun g => (2 <= length g.2)%nat) groups.

(** The folder a run creates for cluster [c]. *)
Definition clusterFolder (i : Z) (label : string) (c : nat) : Folder :=
  {| folder_id := i; folder_name := label; folder_type := "cluster";
     folder_rules := None; folder_cluster_id := Some c; folder_color := None |}.

(** The store after one cluster folder per label and cluster id is added. *)
Definition addClusterFolders (labelled : list (string * nat)) (s : Store) : Store :=
  fold_left (fun s p => insertFolder p.1 "cluster" None (Some p.2) None s)
    labelled s.

(** What a label can be: the placeholder, or a trimmed reply of the
    labelling endpoint. *)
Definition labelFrom (env : Env) (label : string) : Prop :=
  label = "Untitled Topic"
  \/ exists n prompt content,
       chatReply env n prompt = Some content /\ label = trim content.

(** The rows [getJournalEntry] returns for the first three entries of a
    group. *)
Definition sampleRows (s : Store) (entryIds : list Z) : list (option Entry) :=
  (fun i => head (filter (fun e => e_id e = i) (journal_entries s)))
    <$> take 3 entryIds.

(** The prompt of the labelling request for a group; [None] when the
    labelling makes no request: the API key is not set, or a sample is
    missing or has neither summary nor transcript. *)
Definition labelPrompt (s : Store) (entryIds : list Z) : option string :=
  match settingOf s "openai_api_key" with
  | None => None
  | Some _ =>
    match formatSamples 0 (take 3 (sampleRows s entryIds)) with
    | Ok lines =>
      Some ("Generate a label for these related journal entries:"
            +:+ newline +:+ newline +:+ join (newline +:+ newline) lines)
    | _ => None
    end
  end.



(** How many database calls [resolveNumClusters] makes. *)
Definition resolveCost (numClusters : option JsInt) : nat :=
  match numClusters with
  | Some n => if jsTruthy n then 0 else 1
  | None => 1
  end.

(** ** The service *)

(** [numClusters] as the run resolves it: the argument when it is truthy,
    else the [cluster_count] setting, else 5. *)
Definition resolveNumClusters (numClusters : option JsInt) : M JsInt :=
  let fromSettings :=
    let* setting := getSetting "cluster_count" in
    ret (match setting with
         | Some s => parseInt s
         | None => JInt 5
         end) in
  match numClusters with
  | Some n => if jsTruthy n then ret n else fromSettings
  | None => fromSettings
  end.

(** Body of the loop over [Object.entries(clusterGroups)]. *)
Definition createClusterFolder (group : nat * list Z) : M unit :=
  let '(clusterId, entryIds) := group in
  if (length entryIds <? 2)%nat then ret tt
  else
    let* sampleEntries := mapAll (take 3 entryIds) getJournalEntry in
    let* label := labelCluster sampleEntries in
    let* _ := createSmartFolder label "cluster" None (Some clusterId) None in
    log ("Created cluster folder: " +:+ label).

(** [regenerateClusters(numClusters)]; [None] is the default [null]. *)
Definition regenerateClusters (numClusters : option JsInt) : M unit :=
  tryCatch
    (do* log "Starting cluster regeneration..." in
     let* numClusters := resolveNumClusters numClusters in
     let* entries := getEntriesForClustering in
     if (length entries <? 3)%nat
     then log "Not enough entries with embeddings to cluster"
     else
       let k := jsMin numClusters (JInt (Z.of_nat (length entries / 2))) in
       do* log ("Clustering " +:+ showNat (length entries) +:+ " entries into "
                +:+ showJsInt k +:+ " clusters...") in
       let* env := ask in
       let* clusterAssignments :=
         lift (clusterEmbeddings entries k 10 (randomDraws env)) in
       let clusterGroups := groupByCluster clusterAssignments in
       do* updateEntryClusters clusterAssignments in
       let* existingFolders := getSmartFolders in
       do* forEach existingFolders (fun folder =>
             if decide (folder_type folder = "cluster")
             then deleteSmartFolder (folder_id folder)
             else ret tt) in
       do* log "Generating cluster labels..." in
       do* forEach clusterGroups createClusterFolder in
       do* setSetting "last_clustering_date" (nowISO env) in
       log "Cluster regeneration complete!")
    (fun error =>
       do* log "Error regenerating clusters:" in
       throw error).

(** [shouldTriggerClustering()]. *)
Definition shouldTriggerClustering : M bool :=
  tryCatch
    (let* lastClusteringDate := getSetting "last_clustering_date" in
     let* thresholdSetting := getSetting "cluster_threshold" in
     let clusterThreshold := default "10" thresholdSetting in
     match lastClusteringDate with
     | None =>
       let* entries := getEntriesForClustering in
       ret (5 <=? length entries)%nat
     | Some lastClusteringDate =>
       let* allEntries := getEntriesForClustering in
       let* env := ask in
       let lastDate := newDate env (JString lastClusteringDate) in
       let newEntries :=
         filter (fun entry =>
                   let entryDate := newDate env (clusterRowProp entry "created_at") in
                   dateGt entryDate lastDate = true)
           allEntries in
       ret (jsGe (JInt (Z.of_nat (length newEntries))) (parseInt clusterThreshold))
     end)
    (fun error =>
       do* log "Error checking clustering trigger:" in
       ret false).

(** The entries created strictly after [lastDate], which is what the
    filter of [shouldTriggerClustering] is written to keep. *)
Definition createdAfter (lastDate : Z) (s : Store) : list Entry :=
  filter (fun e => is_Some (e_embedding e) ∧ lastDate < e_created_at e)
    (journal_entries s).

(** The smart folders that are no cluster folders. *)
Definition otherFolders (s : Store) : list Folder :=
  filter (fun f => folder_type f ≠ "cluster") (smart_folders s).

(** The journal entries apart from their [cluster_id]. *)
Definition withoutCluster (e : Entry) : Entry :=
  {| e_id := e_id e; e_date := e_date e; e_mode := e_mode e;
     e_audio_path := e_audio_path e; e_transcript := e_transcript e;
     e_summary := e_summary e; e_name := e_name e;
     e_created_at := e_created_at e; e_embedding := e_embedding e;
     e_topics := e_topics e; e_cluster_id := None |}.

Definition entryContents (s : Store) : list Entry :=
  withoutCluster <$> journal_entries s.

(** [getClusterFolder(clusterId)]: the first cluster folder with this
    cluster id in the order of [getSmartFolders], or [null]. *)
Definition getClusterFolder (clusterId : option nat) : M (option Folder) :=
  let* folders := getSmartFolders in
  ret (head (filter (fun f => folder_type f = "cluster"
                              ∧ folder_cluster_id f = clusterId) folders)).

(** [renameClusterFolder(clusterId, newName)]. *)
Definition renameClusterFolder (clusterId : option nat) (newName : string)
    : M unit :=
  let* folder := getClusterFolder clusterId in
  match folder with
  | Some f =>
    updateSmartFolder (folder_id f)
      {| fu_name := Some (Some newName); fu_rules := None; fu_color := None |}
  | None => ret tt
  end.

(** What [getClusteringStats] returns; a cluster is given by its cluster
    id, its name and the id of its folder. *)
Record Stats := {
  totalClusters : nat;
  totalEntriesWithEmbeddings : nat;
  lastClusteringDate : option JsDate;
  clusters : list (option nat * string * Z);
}.

Definition noStats : Stats :=
  {| totalClusters := 0; totalEntriesWithEmbeddings := 0;
     lastClusteringDate := None; clusters := [] |}.

(** [getClusteringStats()]. *)
Definition getClusteringStats : M Stats :=
  tryCatch
    (let* folders := getSmartFolders in
     let clusterFolders := filter (fun f => folder_type f = "cluster") folders in
     let* lastClusteringDate := getSetting "last_clustering_date" in
     let* entries := getEntriesForClustering in
     let* env := ask in
     ret {| totalClusters := length clusterFolders;
            totalEntriesWithEmbeddings := length entries;
            lastClusteringDate :=
              (fun text => newDate env (JString text)) <$> lastClusteringDate;
            clusters :=
              (fun f => (folder_cluster_id f, folder_name f, folder_id f))
                <$> clusterFolders |})
    (fun error =>
       do* log "Error getting clustering stats:" in
       ret noStats).

End clusteringService.

(* ================================================================== *)
(** * services/searchService.js *)
(* ================================================================== *)

(** [Array.prototype.sort(compare)]: the sort is stable, and an element
    comes after another when [compare] of the two is positive (a [NaN]
    counts as [0]).  Where [compare] is not consistent, as with [NaN]
    differences, the order is the engine's own; the one given here is
    that of an insertion sort, plain or binary. *)
Definition jsSort {A} (compare : A -> A -> float) (l : list A) : list A :=
  stableSort (fun x y => (0 <? compare x y)%float) l.

(** [l.slice(0, n)] for an integer [n]: a negative [n] counts from the end. *)
Definition slice0 {A} (l : list A) (n : JsInt) : list A :=
  match n with
  | JNaN => []
  | JInt z =>
    if 0 <=? z then take (Z.to_nat z) l
    else take (length l - Z.to_nat (- z)) l
  end.

(** A small non-negative integer as a number. *)
Definition numOfZ (z : Z) : float := of_uint63 (Uint63.of_Z z).

Module searchService.
Import databaseService embeddingsService.

Definition HYBRID : string := "hybrid".
Definition SEMANTIC : string := "semantic".
Definition KEYWORD : string := "keyword".

Record Config := {
  mode : JsValue;
  semanticWeight : float;
  keywordWeight : float;
  minScore : float;
  maxResults : JsInt;
}.

Definition DEFAULT_CONFIG : Config :=
  {| mode := JString HYBRID; semanticWeight := 0.6; keywordWeight := 0.4;
     minScore := 0.1; maxResults := JInt 50 |}.

(** The [options] object: [None] is a property that is not given. *)
Record Options := {
  o_mode : option JsValue;
  o_semanticWeight : option float;
  o_keywordWeight : option float;
  o_minScore : option float;
  o_maxResults : option JsInt;
}.

Definition noOptions : Options :=
  {| o_mode := None; o_semanticWeight := None; o_keywordWeight := None;
     o_minScore := None; o_maxResults := None |}.

(** [{ ...DEFAULT_CONFIG, ...options }]. *)
Definition mergeConfig (options : Options) : Config :=
  {| mode := default (mode DEFAULT_CONFIG) (o_mode options);
     semanticWeight := default (semanticWeight DEFAULT_CONFIG) (o_semanticWeight options);
     keywordWeight := default (keywordWeight DEFAULT_CONFIG) (o_keywordWeight options);
     minScore := default (minScore DEFAULT_CONFIG) (o_minScore options);
     maxResults := default (maxResults DEFAULT_CONFIG) (o_maxResults options) |}.

(** ** SQL *)

(** SQLite's [LIKE]: [%] matches any run of characters, [_] any one
    character, other characters match themselves without regard to ASCII
    case. *)
Fixpoint likeMatch (pattern text : list ascii) : bool :=
  match pattern with
  | [] => match text with [] => true | _ => false end
  | c :: pattern' =>
    if decide (c = "%"%char) then
      (fix anySuffix (t : list ascii) : bool :=
         likeMatch pattern' t
         || match t with [] => false | _ :: t' => anySuffix t' end) text
    else
      match text with
      | [] => false
      | d :: text' =>
        (bool_decide (c = "_"%char) || bool_decide (lowerChar c = lowerChar d))
        && likeMatch pattern' text'
      end
  end.

(** [LOWER(column) LIKE ?]: a NULL column gives NULL, which is not true. *)
Definition lowerLike (column : option string) (searchTerm : string) : bool :=
  match column with
  | None => false
  | Some text => likeMatch (chars searchTerm) (chars (sqlLower text))
  end.

(** The CASE expression [match_score]. *)
Definition matchScore (searchTerm : string) (e : Entry) : Z :=
  if lowerLike (e_name e) searchTerm then 4
  else if lowerLike (e_summary e) searchTerm then 3
  else if lowerLike (e_topics e) searchTerm then 2
  else if lowerLike (e_transcript e) searchTerm then 1
  else 0.

(** The WHERE clause. *)
Definition whereMatches (searchTerm : string) (e : Entry) : bool :=
  lowerLike (e_transcript e) searchTerm || lowerLike (e_summary e) searchTerm
  || lowerLike (e_name e) searchTerm || lowerLike (e_topics e) searchTerm.

(** The keyword query: the matching rows with their [match_score],
    ORDER BY match_score DESC, created_at DESC (rows equal in both keep
    the order of the table). *)
Definition keywordRows (searchTerm : string) (s : Store) : list (Entry * Z) :=
  stableSort
    (fun x y =>
       (x.2 <? y.2)
       || ((x.2 =? y.2) && (e_created_at x.1 <? e_created_at y.1)))
    ((fun e => (e, matchScore searchTerm e))
       <$> filter (fun e => whereMatches searchTerm e = true) (journal_entries s)).

(** The semantic query: SELECT * ... WHERE embedding IS NOT NULL ORDER BY
    created_at DESC. *)
Definition embeddedRows (s : Store) : list Entry :=
  stableSort (fun x y => e_created_at x <? e_created_at y)
    (filter (fun e => is_Some (e_embedding e)) (journal_entries s)).

(** ** Results *)

(** A result of one leg: the row, [match_score] for a keyword row, and the
    [score] and [searchType] the leg adds. *)
Record LegResult := {
  entry : Entry;
  match_score : option Z;
  score : float;
  searchType : string;
}.

(** A result of [searchEntries]: a leg's result with its [combinedScore],
    and the properties [combineResults] adds in hybrid mode. *)
Record Hit := {
  result : LegResult;
  semanticScore : option float;
  keywordScore : option float;
  combinedScore : float;
  matchTypes : option (list string);
}.

Definition hitId (h : Hit) : Z := e_id (entry (result h)).

(** [Math.max(...scores)]. *)
Definition maxOf (scores : list Z) : Z := foldr Z.max 0 scores.

(** [performKeywordSearch(query)]. *)
Definition performKeywordSearch (query : string) : M (list LegResult) :=
  if isBlank query then ret []
  else
    tryCatch
      (let searchTerm := "%" +:+ toLowerCase query +:+ "%" in
       let* results := databaseService.query (keywordRows searchTerm) in
       let maxScore :=
         if (0 <? length results)%nat then maxOf (results.*2) else 1 in
       ret ((fun row =>
               {| entry := row.1; match_score := Some row.2;
                  score := (numOfZ row.2 / numOfZ maxScore)%float;
                  searchType := "keyword" |}) <$> results))
      (fun error =>
         do* log "Keyword search error:" in
         ret []).

(** [performSemanticSearch(query, queryEmbedding)]. *)
Definition performSemanticSearch (query : string)
    (queryEmbedding : option (list float)) : M (list LegResult) :=
  if isBlank query then ret []
  else
    tryCatch
      (let* embedding :=
         match queryEmbedding with
         | Some v => ret v
         | None => generateEmbedding query
         end in
       let* entries := databaseService.query embeddedRows in
       if (length entries =? 0)%nat then ret []
       else
         let results :=
           (fun e =>
              {| entry := e; match_score := None;
                 score := cosineSimilarity (Some embedding) (e_embedding e);
                 searchType := "semantic" |}) <$> entries in
         ret (jsSort (fun a b => (score b - score a)%float) results))
      (fun error =>
         do* log "Semantic search error:" in
         ret []).

(** The [Map] of [combineResults]: keys in insertion order; setting a key
    that is present keeps its place. *)
Definition mapHas (m : list (Z * Hit)) (k : Z) : bool :=
  bool_decide (k ∈ m.*1).

Fixpoint mapGet (m : list (Z * Hit)) (k : Z) : option Hit :=
  match m with
  | [] => None
  | (k', v) :: m' => if decide (k = k') then Some v else mapGet m' k
  end.

Fixpoint mapSet (m : list (Z * Hit)) (k : Z) (v : Hit) : list (Z * Hit) :=
  match m with
  | [] => [(k, v)]
  | (k', v') :: m' =>
    if decide (k = k') then (k, v) :: m' else (k', v') :: mapSet m' k v
  end.

(** The object set for a semantic result. *)
Definition semanticHit (semanticWeight : float) (r : LegResult) : Hit :=
  {| result := r; semanticScore := Some (score r); keywordScore := Some 0%float;
     combinedScore := (score r * semanticWeight)%float;
     matchTypes := Some ["semantic"] |}.

(** The object set for a keyword result whose id is not in the map. *)
Definition keywordHit (keywordWeight : float) (r : LegResult) : Hit :=
  {| result := r; semanticScore := Some 0%float; keywordScore := Some (score r);
     combinedScore := (score r * keywordWeight)%float;
     matchTypes := Some ["keyword"] |}.

(** The object [existing] after the three assignments for a keyword
    result whose id is in the map. *)
Definition mergedHit (semanticWeight keywordWeight : float) (existing : Hit)
    (r : LegResult) : Hit :=
  {| result := result existing;
     semanticScore := semanticScore existing;
     keywordScore := Some (score r);
     combinedScore :=
       (default nan (semanticScore existing) * semanticWeight
        + score r * keywordWeight)%float;
     matchTypes := Some (default [] (matchTypes existing) ++ ["keyword"]) |}.

(** Body of the loop over the semantic results. *)
Definition addSemantic (semanticWeight : float) (m : list (Z * Hit))
    (r : LegResult) : list (Z * Hit) :=
  mapSet m (e_id (entry r)) (semanticHit semanticWeight r).

(** Body of the loop over the keyword results. *)
Definition addKeyword (semanticWeight keywordWeight : float) (m : list (Z * Hit))
    (r : LegResult) : list (Z * Hit) :=
  if mapHas m (e_id (entry r)) then
    match mapGet m (e_id (entry r)) with
    | Some existing =>
      mapSet m (e_id (entry r)) (mergedHit semanticWeight keywordWeight existing r)
    | None => m
    end
  else mapSet m (e_id (entry r)) (keywordHit keywordWeight r).

(** [combineResults(semanticResults, keywordResults, semanticWeight,
    keywordWeight)]. *)
Definition combineResults (semanticResults keywordResults : list LegResult)
    (semanticWeight keywordWeight : float) : list Hit :=
  let resultsMap := fold_left (addSemantic semanticWeight) semanticResults [] in
  let resultsMap :=
    fold_left (addKeyword semanticWeight keywordWeight) keywordResults resultsMap in
  jsSort (fun a b => (combinedScore b - combinedScore a)%float) (resultsMap.*2).

(** [results.map(r => ({ ...r, combinedScore: r.score }))]. *)
Definition singleLeg (results : list LegResult) : list Hit :=
  (fun r =>
     {| result := r; semanticScore := None; keywordScore := None;
        combinedScore := score r; matchTypes := None |}) <$> results.

(** The filter by [minScore] and the cut to [maxResults]. *)
Definition finish (config : Config) (results : list Hit) : list Hit :=
  let results :=
    filter (fun r => (minScore config <=? combinedScore r)%float = true) results in
  if jsTruthy (maxResults config) then slice0 results (maxResults config)
  else results.

(** [searchEntries(query, options)].  The two legs of the hybrid mode,
    which [Promise.all] starts together, are run one after the other:
    they only read, so each leg gives what it gives alone, and only the
    numbers of their database calls depend on the order. *)
Definition searchEntries (query : string) (options : Options) : M (list Hit) :=
  let config := mergeConfig options in
  if isBlank query then ret []
  else
    tryCatch
      (let* results :=
         if decide (mode config = JString SEMANTIC) then
           let* results := performSemanticSearch query None in
           ret (singleLeg results)
         else if decide (mode config = JString KEYWORD) then
           let* results := performKeywordSearch query in
           ret (singleLeg results)
         else
           let* semanticResults := performSemanticSearch query None in
           let* keywordResults := performKeywordSearch query in
           ret (combineResults semanticResults keywordResults
                  (semanticWeight config) (keywordWeight config)) in
       ret (finish config results))
      (fun error =>
         do* log "Search error:" in
         throw error).

(** ** Filters and suggestions *)

(** The [filters] object: [None] is a property that is not given;
    [dateRange] is given by its [start] and [end]. *)
Record Filters := {
  f_mode : option string;
  f_dateRange : option (JsValue * JsValue);
  f_hasName : option bool;
  f_clusterId : option (option nat);
}.

Definition noFilters : Filters :=
  {| f_mode := None; f_dateRange := None; f_hasName := None; f_clusterId := None |}.

(** [r.name] is truthy. *)
Definition named (r : Hit) : Prop :=
  match e_name (entry (result r)) with
  | Some name => name ≠ ""
  | None => False
  end.

#[global] Instance named_dec r : Decision (named r).
Proof. unfold named. destruct (e_name (entry (result r))); apply _. Defined.

Section Dates.

(** [new Date(r.created_at)]: the date the engine reads from the column. *)
Variable createdDate : Z -> JsDate.

(** [searchEntriesWithFilters(query, filters, options)]. *)
Definition searchEntriesWithFilters (query : string) (filters : Filters)
    (options : Options) : M (list Hit) :=
  let* results := searchEntries query options in
  let* env := ask in
  let results :=
    match f_mode filters with
    | Some m =>
      if decide (m = "") then results
      else filter (fun r => e_mode (entry (result r)) = m) results
    | None => results
    end in
  let results :=
    match f_dateRange filters with
    | Some (start, finish) =>
      filter (fun r =>
                let entryDate := createdDate (e_created_at (entry (result r))) in
                dateGe entryDate (newDate env start)
                && dateGe (newDate env finish) entryDate = true)
        results
    | None => results
    end in
  let results :=
    match f_hasName filters with
    | Some true => filter named results
    | Some false => filter (fun r => ¬ named r) results
    | None => results
    end in
  let results :=
    match f_clusterId filters with
    | Some c => filter (fun r => e_cluster_id (entry (result r)) = c) results
    | None => results
    end in
  ret results.

End Dates.

Section Suggestions.

(** What the elements of a parsed topics array are, with the equality of
    [Map] keys, and [JSON.parse] on a topics text as far as the loop goes
    on with its result: [None] when the text is not JSON, or not an array
    (which has no [forEach]). *)
Context {Topic : Type} `{EqDecision Topic}.
Variable parseTopics : string -> option (list Topic).

(** SELECT topics FROM journal_entries WHERE topics IS NOT NULL ORDER BY
    created_at DESC LIMIT 50. *)
Definition topicRows (s : Store) : list string :=
  take 50
    (omap e_topics
       (newestFirst (filter (fun e => is_Some (e_topics e)) (journal_entries s)))).

(** [topicCounts.get(topic)] and [topicCounts.set(topic, n)] on a [Map]
    with its keys in insertion order. *)
Fixpoint countOf (m : list (Topic * Z)) (t : Topic) : option Z :=
  match m with
  | [] => None
  | (t', n) :: m' => if decide (t = t') then Some n else countOf m' t
  end.

Fixpoint setCount (m : list (Topic * Z)) (t : Topic) (n : Z) : list (Topic * Z) :=
  match m with
  | [] => [(t, n)]
  | (t', n') :: m' =>
    if decide (t = t') then (t, n) :: m' else (t', n') :: setCount m' t n
  end.

(** [topicCounts.set(topic, (topicCounts.get(topic) || 0) + 1)]. *)
Definition countTopic (m : list (Topic * Z)) (t : Topic) : list (Topic * Z) :=
  setCount m t (default 0 (countOf m t) + 1).

(** The loop over the rows; [None] when a [JSON.parse] or a [forEach]
    throws. *)
Fixpoint countRows (rows : list string) (m : list (Topic * Z))
    : option (list (Topic * Z)) :=
  match rows with
  | [] => Some m
  | text :: rows' =>
    if decide (text = "") then countRows rows' m
    else
      match parseTopics text with
      | Some topics => countRows rows' (fold_left countTopic topics m)
      | None => None
      end
  end.

(** [getSearchSuggestions()]; the counts are whole numbers, and
    [b[1] - a[1]] is their difference. *)
Definition getSearchSuggestions : M (list Topic) :=
  tryCatch
    (let* rows := databaseService.query topicRows in
     match countRows rows [] with
     | Some topicCounts =>
       ret ((take 10 (stableSort (fun a b => 0 <? b.2 - a.2) topicCounts)).*1)
     | None => throw (TypeError "JSON.parse or forEach")
     end)
    (fun error =>
       do* log "Error getting search suggestions:" in
       ret []).

End Suggestions.

(** ** Notions of the specification *)

(** [needle] occurs in [text], ASCII case apart. *)
Definition containsCI (needle text : string) : Prop :=
  exists before after,
    lowerChar <$> chars text = before ++ (lowerChar <$> chars needle) ++ after.

(** A text of ASCII characters. *)
Definition asciiText (text : string) : Prop :=
  Forall (fun c => (nat_of_ascii c < 128)%nat) (chars text).

(** A query without the characters [LIKE] reads as wildcards. *)
Definition plainQuery (query : string) : Prop :=
  ("%"%char ∉ chars query) /\ ("_"%char ∉ chars query).

(** [{ ...options, mode: m }]. *)
Definition withMode (options : Options) (m : JsValue) : Options :=
  {| o_mode := Some m; o_semanticWeight := o_semanticWeight options;
     o_keywordWeight := o_keywordWeight options; o_minScore := o_minScore options;
     o_maxResults := o_maxResults options |}.

(** The ids of a leg's results, and the result and the score a leg has
    for an id. *)
Definition idsOf (results : list LegResult) : list Z :=
  (fun r => e_id (entry r)) <$> results.

Fixpoint resultOf (results : list LegResult) (i : Z) : option LegResult :=
  match results with
  | [] => None
  | r :: results' =>
    if decide (i = e_id (entry r)) then Some r else resultOf results' i
  end.

Definition scoreIn (results : list LegResult) (i : Z) : option float :=
  score <$> resultOf results i.

(** The combined score of an entry with the scores [s] and [k] of the two
    legs, [None] for a leg that has not found the entry. *)
Definition fusedScore (s k : option float) (semanticWeight keywordWeight : float)
    : option float :=
  match s, k with
  | Some a, Some b => Some (a * semanticWeight + b * keywordWeight)%float
  | Some a, None => Some (a * semanticWeight)%float
  | None, Some b => Some (b * keywordWeight)%float
  | None, None => None
  end.

(** The weighted sum with [0] for a leg that has not found the entry. *)
Definition paddedScore (s k : option float) (semanticWeight keywordWeight : float)
    : float :=
  (default 0 s * semanticWeight + default 0 k * keywordWeight)%float.

(** Combined scores in descending order. *)
Definition descending (results : list Hit) : Prop :=
  StronglySorted (fun a b => (combinedScore b <=? combinedScore a)%float = true)
    results.

(** The tier of the highest field that matches. *)
Definition highestTier (name summary topics transcript : bool) : Z :=
  Z.max (if name then 4 else 0)
    (Z.max (if summary then 3 else 0)
       (Z.max (if topics then 2 else 0) (if transcript then 1 else 0))).

End searchService.

(* ================================================================== *)
(** * JSON texts the callers write *)
(* ================================================================== *)

(** The number an element of an embedding counts as once the embedding has
    been written with [JSON.stringify] and read with [JSON.parse]: a finite
    number is read back as it is, [-0] as [0]; a [NaN] or an infinity is
    written as [null], which counts as [0] in the sums and products that
    are all the services do with an element. *)
Definition storedNumber (x : float) : float :=
  if is_finite x then (if (x =? 0)%float then 0%float else x) else 0%float.

Definition hexDigit (n : nat) : ascii :=
  if (n <? 10)%nat then ascii_of_nat (48 + n) else ascii_of_nat (87 + n).

Definition quote : ascii := ascii_of_nat 34.
Definition backslash : ascii := ascii_of_nat 92.

(** A character inside a JSON string, as [JSON.stringify] writes it. *)
Definition jsonChar (c : ascii) : list ascii :=
  let n := nat_of_ascii c in
  if (n =? 34)%nat then [backslash; quote]
  else if (n =? 92)%nat then [backslash; backslash]
  else if (n =? 8)%nat then [backslash; "b"%char]
  else if (n =? 9)%nat then [backslash; "t"%char]
  else if (n =? 10)%nat then [backslash; "n"%char]
  else if (n =? 12)%nat then [backslash; "f"%char]
  else if (n =? 13)%nat then [backslash; "r"%char]
  else if (n <? 32)%nat
       then [backslash; "u"%char; "0"%char; "0"%char;
             hexDigit (n / 16); hexDigit (n mod 16)]
  else [c].

Definition jsonString (s : string) : string :=
  unchars ([quote] ++ (c ← chars s; jsonChar c) ++ [quote]).

(** [JSON.stringify(topics)] for an array of strings. *)
Definition jsonStringify (topics : list string) : string :=
  "[" +:+ embeddingsService.join "," (jsonString <$> topics) +:+ "]".

(** [{ embedding: JSON.stringify(embedding) }]. *)
Definition embeddingUpdate (embedding : list float) : databaseService.Updates :=
  {| databaseService.u_transcript := None; databaseService.u_summary := None; databaseService.u_name := None;
     databaseService.u_embedding := Some (Some (storedNumber <$> embedding));
     databaseService.u_topics := None; databaseService.u_cluster_id := None |}.

(** [{ topics: JSON.stringify(topics) }]. *)
Definition topicsUpdate (topics : list string) : databaseService.Updates :=
  {| databaseService.u_transcript := None; databaseService.u_summary := None; databaseService.u_name := None;
     databaseService.u_embedding := None; databaseService.u_topics := Some (Some (jsonStringify topics));
     databaseService.u_cluster_id := None |}.

(* ================================================================== *)
(** * screens/HomeScreen.js *)
(* ================================================================== *)

Module homeScreen.
Import databaseService embeddingsService clusteringService.

(** [generateEmbeddingAndTopics(entryId, text)], the background step after
    an entry is saved. *)
Definition generateEmbeddingAndTopics (entryId : Z) (text : string) : M unit :=
  tryCatch
    (do* log "Generating embedding and topics for entry" in
     let* embedding := generateEmbedding text in
     do* updateJournalEntry entryId (embeddingUpdate embedding) in
     let* topics := extractTopics text in
     do* updateJournalEntry entryId (topicsUpdate topics) in
     do* log "Embedding and topics generated successfully" in
     let* shouldCluster := shouldTriggerClustering in
     if shouldCluster then
       do* log "Triggering cluster regeneration..." in
       regenerateClusters None
     else ret tt)
    (fun error => log "Error generating embedding/topics:").

End homeScreen.

(* ================================================================== *)
(** * scripts/backfillEmbeddings.js *)
(* ================================================================== *)

Module backfillEmbeddings.
Import databaseService.

Record EmbeddingStatus := {
  withEmbeddings : nat;
  withoutEmbeddings : nat;
  total : nat;
}.

(** [checkEmbeddingStatus()]. *)
Definition checkEmbeddingStatus : M EmbeddingStatus :=
  let* entries := getJournalEntries in
  let withEmbeddings :=
    length (filter (fun e => is_Some (e_embedding e)) entries) in
  let withoutEmbeddings :=
    length (filter (fun e => ¬ is_Some (e_embedding e)) entries) in
  do* log "Embedding Status:" in
  do* log ("  With embeddings: " +:+ showNat withEmbeddings) in
  do* log ("  Without embeddings: " +:+ showNat withoutEmbeddings) in
  do* log ("  Total entries: " +:+ showNat (length entries)) in
  ret {| withEmbeddings := withEmbeddings;
         withoutEmbeddings := withoutEmbeddings;
         total := length entries |}.

(** [Math.round(x)] for a number [x] from [0] to [100]: the number of
    halves [n + 0.5], [n] below [100], that [x] reaches. *)
Definition roundPercent (x : float) : Z :=
  Z.of_nat (length (filter (fun n => (numOfNat n + 0.5 <=? x)%float = true) (seq 0 100))).

(** [Math.round((processed / total) * 100)]. *)
Definition percent (processed total : nat) : Z :=
  roundPercent (numOfNat processed / numOfNat total * 100)%float.

(** [if (onProgress) onProgress(message, progress)]. *)
Definition progress (onProgress : option (string -> Z -> M unit))
    (message : string) (p : Z) : M unit :=
  match onProgress with
  | Some callback => callback message p
  | None => ret tt
  end.

(** [entry.transcript || entry.summary || '']. *)
Definition textOf (entry : Entry) : string :=
  match e_transcript entry with
  | Some t => if decide (t = "") then default "" (e_summary entry) else t
  | None => default "" (e_summary entry)
  end.

(** Body of the loop over the entries that need an embedding, from the
    count [processed] to the new count.  The [try] block is taken in two
    parts with the one [catch] for each: up to [processed++], and from
    there on, where the count is already raised. *)
Definition backfillEntry (onProgress : option (string -> Z -> M unit))
    (total processed : nat) (entry : Entry) : M nat :=
  let failed := fun error : Err => log "Error processing entry" in
  let text := textOf entry in
  let* stored :=
    tryCatch
      (if decide (text = "") then
         do* log "Skipping entry - no text content" in
         ret false
       else
         do* log "Processing entry..." in
         let* embedding := embeddingsService.generateEmbedding text in
         do* updateJournalEntry (e_id entry) (embeddingUpdate embedding) in
         let* topics := embeddingsService.extractTopics text in
         do* updateJournalEntry (e_id entry) (topicsUpdate topics) in
         ret true)
      (fun error => do* failed error in ret false) in
  if stored : bool then
    let processed := S processed in
    do* tryCatch
          (do* log ("Progress: " +:+ showNat processed +:+ "/" +:+ showNat total) in
           progress onProgress
             ("Processing " +:+ showNat processed +:+ "/" +:+ showNat total)
             (percent processed total))
          failed in
    ret processed
  else ret processed.

Fixpoint backfillLoop (onProgress : option (string -> Z -> M unit))
    (total : nat) (entries : list Entry) (processed : nat) : M nat :=
  match entries with
  | [] => ret processed
  | entry :: rest =>
    let* processed := backfillEntry onProgress total processed entry in
    backfillLoop onProgress total rest processed
  end.

(** [backfillEmbeddings(onProgress)]: [None] is the [undefined] of the
    early return, [Some (processed, total)] the object returned at the
    end. *)
Definition backfillEmbeddings (onProgress : option (string -> Z -> M unit))
    : M (option (nat * nat)) :=
  tryCatch
    (do* log "Starting embedding backfill..." in
     let* entries := getJournalEntries in
     let entriesNeedingEmbeddings :=
       filter (fun e => ¬ is_Some (e_embedding e)) entries in
     do* log ("Found " +:+ showNat (length entriesNeedingEmbeddings)
              +:+ " entries without embeddings") in
     if (length entriesNeedingEmbeddings =? 0)%nat then
       do* log "All entries already have embeddings!" in
       do* progress onProgress "All entries already have embeddings" 100 in
       ret None
     else
       let* processed :=
         backfillLoop onProgress (length entriesNeedingEmbeddings)
           entriesNeedingEmbeddings 0 in
       do* log "Backfill complete! Now regenerating clusters..." in
       do* progress onProgress "Generating clusters..." 95 in
       do* clusteringService.regenerateClusters None in
       do* log "All done!" in
       do* progress onProgress "Complete!" 100 in
       ret (Some (processed, length entriesNeedingEmbeddings)))
    (fun error =>
       do* log "Error in backfill process:" in
       throw error).

(** ** Notions for the statements about a backfill *)

(** The contents of the entries whose id is not in [ids]. *)
Definition contentsOutside (ids : list Z) (s : Store) : list Entry :=
  filter (λ e, e_id e ∉ ids) (clusteringService.entryContents s).

(** A callback that leaves the journal entries as they are. *)
Definition keepsEntries (onProgress : option (string → Z → M unit)) : Prop :=
  ∀ callback, onProgress = Some callback →
    ∀ message p, keepsView journal_entries (callback message p).

(** A change of the rows that keeps the id and the text of a row, and
    the embedding a row has. *)
Definition grows (g : Entry → Entry) : Prop :=
  ∀ e, e_id (g e) = e_id e ∧ textOf (g e) = textOf e
       ∧ (is_Some (e_embedding e) → is_Some (e_embedding (g e))).

End backfillEmbeddings.

(* ================================================================== *)
(** * Example data *)
(* ================================================================== *)

Module examples.

(** Two entries with the embeddings [1, 0] and [0, 1]. *)
Definition twoEntries : list ClusterEntry :=
  [ {| ce_id := 10; ce_transcript := None; ce_summary := None;
       ce_embedding := [1; 0]%float |};
    {| ce_id := 11; ce_transcript := None; ce_summary := None;
       ce_embedding := [0; 1]%float |} ].

(** Three entries: the products of the first embedding with itself and
    with the third are beyond the largest number. *)
Definition hugeCluster : list ClusterEntry :=
  [ {| ce_id := 20; ce_transcript := None; ce_summary := None;
       ce_embedding := [-1e308; 0]%float |};
    {| ce_id := 21; ce_transcript := None; ce_summary := None;
       ce_embedding := [1; 1]%float |};
    {| ce_id := 22; ce_transcript := None; ce_summary := None;
       ce_embedding := [100; 100]%float |} ].

(** A journal entry with the given id, texts, creation time and embedding. *)
Definition entry (i : Z) (name transcript : option string) (created : Z)
    (embedding : option (list float)) : Entry :=
  {| e_id := i; e_date := "2024-01-01T00:00:00.000Z"; e_mode := "solo";
     e_audio_path := None; e_transcript := transcript; e_summary := None;
     e_name := name; e_created_at := created; e_embedding := embedding;
     e_topics := None; e_cluster_id := None |}.

Definition storeOf (es : list Entry) (st : list (string * string)) : Store :=
  {| journal_entries := es; smart_folders := []; folder_entries := [];
     settings := list_to_map st; next_folder_id := 1 |}.

Definition worldOf (s : Store) : World :=
  {| store := s; dbCalls := 0; httpCalls := 0; console := [] |}.

(** An environment without failures: the labeller answers ["Topic"], the
    embedding provider answers [1, 0], dates are read as decimal numbers. *)
Definition quietEnv : Env :=
  {| dbFails := fun _ => false;
     chatReply := fun _ _ => Some "Topic";
     embeddingReply := fun _ _ => Some [1; 0]%float;
     nowISO := "2024-06-01T00:00:00.000Z";
     randomDraws := [0; 1; 2; 3; 4; 5]%nat;
     dateParse := fun s => match parseInt s with JInt z => Some z | JNaN => None end |}.

(** Six entries in two groups of three, created at times 101 to 106. *)
Definition sixEntries : list Entry :=
  [ entry 1 None (Some "a") 101 (Some [1; 0]%float);
    entry 2 None (Some "b") 102 (Some [0.9; 0.1]%float);
    entry 3 None (Some "c") 103 (Some [0.8; 0.2]%float);
    entry 4 None (Some "d") 104 (Some [0; 1]%float);
    entry 5 None (Some "e") 105 (Some [0.1; 0.9]%float);
    entry 6 None (Some "f") 106 (Some [0.2; 0.8]%float) ].


(** An environment whose first labelling request is refused and whose
    later ones are answered. *)
Definition firstLabelFails : Env :=
  {| dbFails := fun _ => false;
     chatReply := fun n _ => if (n =? 0)%nat then None else Some " Health ";
     embeddingReply := fun _ _ => Some [1; 0]%float;
     nowISO := "2024-06-01T00:00:00.000Z";
     randomDraws := [0; 1; 2; 3; 4; 5]%nat;
     dateParse := fun s => match parseInt s with JInt z => Some z | JNaN => None end |}.

(** An environment whose database call number [n] fails. *)
Definition failsAt (n : nat) : Env :=
  {| dbFails := fun i => (i =? n)%nat;
     chatReply := fun _ _ => Some "Topic";
     embeddingReply := fun _ _ => Some [1; 0]%float;
     nowISO := "2024-06-01T00:00:00.000Z";
     randomDraws := [0; 1; 2; 3; 4; 5]%nat;
     dateParse := fun s => match parseInt s with JInt z => Some z | JNaN => None end |}.

(** An environment whose provider and labeller refuse every request. *)
Definition deadEnv : Env :=
  {| dbFails := fun _ => false;
     chatReply := fun _ _ => None;
     embeddingReply := fun _ _ => None;
     nowISO := "2024-06-01T00:00:00.000Z";
     randomDraws := [];
     dateParse := fun _ => None |}.

(** Four entries to search: "work" is in the name and the transcript of the
    first and in the transcript of the third; the third has no embedding. *)
Definition searchEntries4 : list Entry :=
  [ entry 1 (Some "Work") (Some "a day at work") 101 (Some [1; 0]%float);
    entry 2 (Some "ab") (Some "gym") 102 (Some [0; 1]%float);
    entry 3 None (Some "my WORK out") 103 None;
    entry 4 None (Some "nothing") 104 (Some [0.6; 0.8]%float) ].

Definition searchWorld : World :=
  worldOf (storeOf searchEntries4 [("openai_api_key", "sk-test")]).

(** An environment whose provider answers [0, 0]. *)
Definition zeroEnv : Env :=
  {| dbFails := fun _ => false;
     chatReply := fun _ _ => Some "Topic";
     embeddingReply := fun _ _ => Some [0; 0]%float;
     nowISO := "2024-06-01T00:00:00.000Z";
     randomDraws := [];
     dateParse := fun _ => None |}.

(** Three entries to search; the squared norm of the second embedding is
    beyond the largest number. *)
Definition hugeEntries : list Entry :=
  [ entry 1 None (Some "my work") 103 (Some [1; 0]%float);
    entry 2 None (Some "gym") 102 (Some [1e200; 0]%float);
    entry 3 (Some "work") (Some "notes") 101 (Some [1; 0]%float) ].

Definition hugeWorld : World :=
  worldOf (storeOf hugeEntries [("openai_api_key", "sk-test")]).

(** A store with a cluster folder, a rule folder and links: entries 1 and
    4 are in cluster 0, the cluster folder has the id 1; the junction
    table links entry 2 to the smart folder 1 and entry 3 to the manual
    folder 7. *)
Definition folderStore : Store :=
  {| journal_entries :=
       [ {| e_id := 1; e_date := "2024-01-01T00:00:00.000Z"; e_mode := "solo";
            e_audio_path := None; e_transcript := Some "a day at work";
            e_summary := None; e_name := Some "Work"; e_created_at := 101;
            e_embedding := Some [1; 0]%float; e_topics := None;
            e_cluster_id := Some 0%nat |};
         entry 2 (Some "ab") (Some "gym") 102 (Some [0; 1]%float);
         entry 3 None (Some "my WORK out") 103 None;
         {| e_id := 4; e_date := "2024-01-04T00:00:00.000Z";
            e_mode := "conversational";
            e_audio_path := None; e_transcript := Some "nothing";
            e_summary := None; e_name := None; e_created_at := 104;
            e_embedding := Some [0.6; 0.8]%float; e_topics := None;
            e_cluster_id := Some 0%nat |} ];
     smart_folders :=
       [ {| folder_id := 1; folder_name := "Career"; folder_type := "cluster";
            folder_rules := None; folder_cluster_id := Some 0%nat;
            folder_color := None |};
         {| folder_id := 2; folder_name := "Recent"; folder_type := "rule";
            folder_rules := Some "{}"; folder_cluster_id := None;
            folder_color := None |} ];
     folder_entries :=
       [ {| fe_folder_id := 1; fe_entry_id := 2; fe_folder_type := "smart" |};
         {| fe_folder_id := 7; fe_entry_id := 3; fe_folder_type := "manual" |} ];
     settings := list_to_map [("openai_api_key", "sk-test")];
     next_folder_id := 3 |}.

Definition folderWorld : World := worldOf folderStore.

(** A text of 8001 characters: 8000 times [a], then [c]. *)
Definition longText (c : ascii) : string :=
  unchars (replicate (8 * 1000) "a"%char ++ [c]).

(** The capital letter E with an acute accent and the small one, and two
    entries named by them. *)
Definition capitalE : string := String (ascii_of_nat 201) EmptyString.
Definition smallE : string := String (ascii_of_nat 233) EmptyString.

Definition accentWorld : World :=
  worldOf (storeOf [ entry 1 (Some capitalE) (Some "gym") 101 None;
                     entry 2 (Some smallE) (Some "walk") 102 None ] []).

End examples.

(* ================================================================== *)
(** * Lemmas: the order of binary64 numbers *)
(* ================================================================== *)

Section FloatOrder.

Lemma SFcompare_key f1 f2 :
  SFcompare f1 f2 =
  match key f1, key f2 with
  | Some a, Some b => Some (lex3 a b)
  | _, _ => None
  end.
Proof.
  destruct f1 as [[]|[]| |[] m1 e1], f2 as [[]|[]| |[] m2 e2]; try reflexivity; cbn -[Z.compare];
    rewrite ?Z.compare_opp; 
    try (rewrite (Z.compare_antisym e1 e2)); destruct (e1 ?= e2); cbn; try reflexivity.
Qed.

Lemma lex3_Lt a b : lex3 a b = Lt <-> lt3 a b.
Proof.
  destruct a as [[a1 a2] a3], b as [[b1 b2] b3]; unfold lex3, lt3; cbn.
  destruct (Z.compare_spec a1 b1), (Z.compare_spec a2 b2), (Z.compare_spec a3 b3);
    split; intros; try discriminate; try lia; reflexivity.
Qed.

Lemma lex3_Eq a b : lex3 a b = Eq <-> a = b.
Proof.
  destruct a as [[a1 a2] a3], b as [[b1 b2] b3]; unfold lex3; cbn.
  destruct (Z.compare_spec a1 b1), (Z.compare_spec a2 b2), (Z.compare_spec a3 b3);
    split; intros H'; try discriminate; try (injection H'; intros); try lia; subst; reflexivity.
Qed.

Lemma lex3_Gt a b : lex3 a b = Gt <-> lt3 b a.
Proof.
  destruct a as [[a1 a2] a3], b as [[b1 b2] b3]; unfold lex3, lt3; cbn.
  destruct (Z.compare_spec a1 b1), (Z.compare_spec a2 b2), (Z.compare_spec a3 b3);
    split; intros; try discriminate; try lia; reflexivity.
Qed.

Lemma ltb_key x y :
  (x <? y)%float = true <-> exists a b, fkey x = Some a /\ fkey y = Some b /\ lt3 a b.
Proof.
  rewrite FloatAxioms.ltb_spec. unfold SFltb, fkey. rewrite SFcompare_key.
  destruct (key (Prim2SF x)) as [a|], (key (Prim2SF y)) as [b|]; split;
    try (intros (a' & b' & [= <-] & [= <-] & L)); try discriminate.
  - intros H. exists a, b. repeat split. apply lex3_Lt. destruct (lex3 a b); congruence.
  - apply lex3_Lt in L. now rewrite L.
Qed.

Lemma leb_key x y :
  (x <=? y)%float = true <-> exists a b, fkey x = Some a /\ fkey y = Some b /\ (lt3 a b \/ a = b).
Proof.
  rewrite FloatAxioms.leb_spec. unfold SFleb, fkey. rewrite SFcompare_key.
  destruct (key (Prim2SF x)) as [a|], (key (Prim2SF y)) as [b|]; split;
    try (intros (a' & b' & [= <-] & [= <-] & L)); try discriminate.
  - intros H. exists a, b. repeat split.
    destruct (lex3 a b) eqn:E; try discriminate.
    + right. now apply lex3_Eq.
    + left. now apply lex3_Lt.
  - destruct L as [L|L]; [apply lex3_Lt in L|apply lex3_Eq in L]; now rewrite L.
Qed.

Lemma eqb_key x y :
  (x =? y)%float = true <-> exists a, fkey x = Some a /\ fkey y = Some a.
Proof.
  rewrite FloatAxioms.eqb_spec. unfold SFeqb, fkey. rewrite SFcompare_key.
  destruct (key (Prim2SF x)) as [a|], (key (Prim2SF y)) as [b|]; split;
    try (intros (a' & [= <-] & [= E])); try discriminate.
  - intros H. exists a. split; [reflexivity|]. f_equal. symmetry. apply lex3_Eq.
    destruct (lex3 a b); congruence.
  - symmetry in E. apply lex3_Eq in E. now rewrite E.
Qed.

Lemma is_nan_key x : is_nan x = false <-> exists a, fkey x = Some a.
Proof.
  unfold is_nan. rewrite negb_false_iff, eqb_key. split.
  - intros (a & ? & _). now exists a.
  - intros (a & ?). now exists a.
Qed.

Lemma ltb_trans x y z : (x <? y)%float = true -> (y <? z)%float = true -> (x <? z)%float = true.
Proof.
  rewrite !ltb_key. intros (a & b & Ha & Hb & L1) (b' & c & Hb' & Hc & L2).
  replace b' with b in * by congruence. exists a, c. repeat split; trivial.
  unfold lt3 in *. lia.
Qed.

Lemma leb_trans x y z : (x <=? y)%float = true -> (y <=? z)%float = true -> (x <=? z)%float = true.
Proof.
  rewrite !leb_key. intros (a & b & Ha & Hb & L1) (b' & c & Hb' & Hc & L2).
  replace b' with b in * by congruence. exists a, c. repeat split; trivial.
  destruct L1 as [L1| ->], L2 as [L2| <-]; auto. left. unfold lt3 in *. lia.
Qed.

Lemma lt3_total a b : lt3 a b \/ a = b \/ lt3 b a.
Proof.
  destruct a as [[a1 a2] a3], b as [[b1 b2] b3]. unfold lt3; cbn.
  destruct (Z.compare_spec a1 b1), (Z.compare_spec a2 b2), (Z.compare_spec a3 b3); subst; auto; lia.
Qed.

Lemma lt3_asym a b : lt3 a b -> ~ (lt3 b a \/ b = a).
Proof. unfold lt3. intros H [H'| ->]; lia. Qed.

Lemma ltb_false_leb x y :
  is_nan x = false -> is_nan y = false -> (x <? y)%float = false -> (y <=? x)%float = true.
Proof.
  rewrite !is_nan_key, leb_key. intros (a & Ha) (b & Hb) H.
  exists b, a. repeat split; trivial.
  destruct (lt3_total a b) as [L|[->|L]]; auto.
  exfalso. assert ((x <? y)%float = true) as E by (apply ltb_key; eauto). congruence.
Qed.

Lemma ltb_leb x y : (x <? y)%float = true -> (x <=? y)%float = true.
Proof. rewrite ltb_key, leb_key. intros (a & b & ? & ? & ?). eauto 6. Qed.

Lemma leb_not_ltb x y : (x <=? y)%float = true -> (y <? x)%float = false.
Proof.
  rewrite leb_key. intros (a & b & Ha & Hb & L).
  destruct (y <? x)%float eqn:E; trivial. apply ltb_key in E as (b' & a' & ? & ? & L').
  replace b' with b in * by congruence. replace a' with a in * by congruence.
  exfalso. eapply lt3_asym; [exact L'|]. destruct L; auto.
Qed.

Lemma ltb_not_nan x y :
  (x <? y)%float = true -> is_nan x = false /\ is_nan y = false.
Proof.
  rewrite ltb_key, !is_nan_key. intros (a & b & Ha & Hb & _). eauto.
Qed.

Lemma leb_refl x : is_nan x = false -> (x <=? x)%float = true.
Proof. rewrite is_nan_key, leb_key. intros (a & Ha). exists a, a. auto. Qed.

Lemma leb_ltb_trans x y z :
  (x <=? y)%float = true -> (y <? z)%float = true -> (x <? z)%float = true.
Proof.
  rewrite leb_key, !ltb_key. intros (a & b & Ha & Hb & L1) (b' & c & Hb' & Hc & L2).
  replace b' with b in * by congruence. exists a, c. repeat split; trivial.
  destruct L1 as [L1| ->]; trivial. unfold lt3 in *. lia.
Qed.

Lemma ltb_irrefl x : (x <? x)%float = false.
Proof.
  destruct (x <? x)%float eqn:E; [|done].
  apply ltb_key in E as (a & b & Ha & Hb & L).
  assert (a = b) as -> by congruence. unfold lt3 in L. lia.
Qed.

End FloatOrder.

(* ================================================================== *)
(** * Lemmas: the sign of a difference *)
(* ================================================================== *)

Section FloatSub.

Lemma digits2_size p : digits2_pos p = Pos.size p.
Proof. induction p; cbn; congruence. Qed.

Lemma digits_lower p : 2 ^ (Z.pos (digits2_pos p) - 1) <= Z.pos p.
Proof.
  rewrite digits2_size. pose proof (Pos.size_le p) as H.
  apply Pos2Z.pos_le_pos in H. rewrite Pos2Z.inj_pow in H.
  replace (Z.pos (Pos.size p)) with (Z.succ (Z.pos (Pos.size p) - 1)) in H by lia.
  rewrite Z.pow_succ_r in H by lia. lia.
Qed.

Lemma digits_upper p : Z.pos p < 2 ^ Z.pos (digits2_pos p).
Proof.
  rewrite digits2_size. pose proof (Pos.size_gt p) as H.
  apply Pos2Z.pos_lt_pos in H. now rewrite Pos2Z.inj_pow in H.
Qed.

Lemma iter_xO m d : Z.pos (Pos.iter xO m d) = Z.pos m * 2 ^ Z.pos d.
Proof.
  induction d as [|d IH] using Pos.peano_ind.
  - cbn. lia.
  - rewrite Pos.iter_succ, Pos2Z.inj_succ, Z.pow_succ_r by lia.
    rewrite Pos2Z.inj_xO, IH. lia.
Qed.

Lemma shr_1_m mrs : 0 <= shr_m mrs -> shr_m (shr_1 mrs) = shr_m mrs / 2.
Proof.
  destruct mrs as [[|[p|p|]|p] r s]; cbn [shr_m shr_1]; intros H; try lia.
  - reflexivity.
  - rewrite Pos2Z.inj_xI. apply Z.div_unique with 1; lia.
  - rewrite Pos2Z.inj_xO. apply Z.div_unique with 0; lia.
  - reflexivity.
Qed.

Lemma iter_shr_m p : forall mrs,
  0 <= shr_m mrs -> shr_m (SpecFloat.iter_pos shr_1 p mrs) = shr_m mrs / 2 ^ Z.pos p.
Proof.
  induction p as [p IH|p IH|]; intros mrs H; cbn [SpecFloat.iter_pos].
  - assert (0 <= shr_m (shr_1 mrs)) as H1 by (rewrite shr_1_m by trivial; apply Z.div_pos; lia).
    assert (0 < 2 ^ Z.pos p) as Hp by (apply Z.pow_pos_nonneg; lia).
    rewrite IH, IH, shr_1_m by (try rewrite IH by trivial; try apply Z.div_pos; lia).
    rewrite !Z.div_div by lia. f_equal.
    rewrite Pos2Z.inj_xI. replace (2 * Z.pos p + 1) with (1 + Z.pos p + Z.pos p) by lia.
    rewrite !Z.pow_add_r by lia. lia.
  - assert (0 < 2 ^ Z.pos p) as Hp by (apply Z.pow_pos_nonneg; lia).
    rewrite IH, IH by (try rewrite IH by trivial; try apply Z.div_pos; lia).
    rewrite !Z.div_div by lia. f_equal.
    rewrite <- Z.pow_add_r by lia. f_equal. lia.
  - rewrite shr_1_m by trivial. reflexivity.
Qed.

(** Shifting right by the amount [fexp] asks for never clears a positive
    mantissa when the exponent is at least [emin]. *)
Lemma shr_fexp_pos m e l :
  0 < m -> SpecFloat.emin prec emax <= e ->
  0 < shr_m (fst (shr_fexp prec emax m e l)) /\ SpecFloat.emin prec emax <= snd (shr_fexp prec emax m e l).
Proof.
  intros Hm He. destruct m as [|p|p]; try lia. unfold shr_fexp, shr, Zdigits2.
  assert (shr_m (shr_record_of_loc (Z.pos p) l) = Z.pos p) as Hrec by (destruct l as [|[]]; reflexivity).
  destruct (fexp prec emax (Z.pos (digits2_pos p) + e) - e) as [|n|n] eqn:En; cbn [fst snd];
    rewrite ?Hrec; try (split; lia).
  unfold fexp, SpecFloat.emin, prec, emax in *.
  rewrite iter_shr_m by (rewrite Hrec; lia). rewrite Hrec. split; [|lia].
  apply Z.div_str_pos. split; [apply Z.pow_pos_nonneg; lia|].
  pose proof (digits_lower p).
  assert (2 ^ Z.pos n <= 2 ^ (Z.pos (digits2_pos p) - 1)) by (apply Z.pow_le_mono_r; lia).
  lia.
Qed.

Lemma round_nearest_even_ge m l : 0 < m -> 0 < round_nearest_even m l.
Proof. intros H. destruct l as [|[]]; cbn; try lia. destruct (Z.even m); lia. Qed.

Lemma binary_round_aux_pos s m e l :
  0 < m -> SpecFloat.emin prec emax <= e -> signed s (binary_round_aux prec emax s m e l).
Proof.
  intros Hm He. unfold binary_round_aux.
  destruct (shr_fexp_pos m e l Hm He) as [H1 H2].
  destruct (shr_fexp prec emax m e l) as [mrs' e']. cbn [fst snd] in *.
  pose proof (round_nearest_even_ge (shr_m mrs') (loc_of_shr_record mrs') H1) as H3.
  destruct (shr_fexp_pos _ e' loc_Exact H3 H2) as [H4 H5].
  destruct (shr_fexp prec emax _ e' loc_Exact) as [mrs'' e'']. cbn [fst snd] in *.
  destruct (shr_m mrs''); try lia.
  destruct (e'' <=? emax - prec); constructor.
Qed.

Lemma binary_round_pos s m e :
  SpecFloat.emin prec emax <= e -> signed s (binary_round prec emax s m e).
Proof.
  intros He. unfold binary_round, shl_align.
  set (f := fexp prec emax (Z.pos (digits2_pos m) + e)).
  assert (SpecFloat.emin prec emax <= f) by (unfold f, fexp; lia).
  destruct (f - e); apply binary_round_aux_pos; lia.
Qed.

(** Whatever the rounding does, the result of [binary_round_aux] carries
    the sign it was given, unless it is a NaN. *)
Lemma binary_round_aux_sign s m e l :
  match binary_round_aux prec emax s m e l with
  | S754_zero s' | S754_infinity s' | S754_finite s' _ _ => s' = s
  | S754_nan => True
  end.
Proof.
  unfold binary_round_aux.
  destruct (shr_fexp prec emax m e l) as [mrs' e'].
  destruct (shr_fexp prec emax _ e' loc_Exact) as [mrs'' e''].
  destruct (shr_m mrs''); trivial. destruct (e'' <=? emax - prec); trivial.
Qed.


Lemma bounded_inv m e :
  bounded prec emax m e = true ->
  SpecFloat.emin prec emax <= e /\ Z.pos (digits2_pos m) <= 53 /\
  (e = SpecFloat.emin prec emax \/ Z.pos (digits2_pos m) = 53).
Proof.
  unfold bounded, canonical_mantissa, fexp, SpecFloat.emin, prec, emax.
  rewrite andb_true_iff, Z.eqb_eq, Z.leb_le. lia.
Qed.

Lemma shl_align_fst mx ex ez :
  ez <= ex -> Z.pos (fst (shl_align mx ex ez)) = Z.pos mx * 2 ^ (ex - ez).
Proof.
  intros H. unfold shl_align. destruct (ez - ex) as [|d|d] eqn:E; cbn [fst]; try lia.
  - replace (ex - ez) with 0 by lia. lia.
  - rewrite iter_xO. f_equal. f_equal. lia.
Qed.

(** On canonical representations, comparing the aligned mantissas is the
    lexicographic comparison of exponent and mantissa that [SFcompare] uses. *)
Lemma align_compare mx ex my ey :
  bounded prec emax mx ex = true -> bounded prec emax my ey = true ->
  (Z.pos (fst (shl_align mx ex (Z.min ex ey))) ?= Z.pos (fst (shl_align my ey (Z.min ex ey)))) =
  match ex ?= ey with Lt => Lt | Gt => Gt | Eq => Pos.compare_cont Eq mx my end.
Proof.
  intros Hx Hy. apply bounded_inv in Hx as (Hx1 & Hx2 & Hx3), Hy as (Hy1 & Hy2 & Hy3).
  rewrite !shl_align_fst by lia.
  pose proof (digits_lower mx). pose proof (digits_upper mx).
  pose proof (digits_lower my). pose proof (digits_upper my).
  assert (forall d, Z.pos d <= 53 -> 2 ^ Z.pos d <= 2 ^ 53) as Hup
    by (intros; apply Z.pow_le_mono_r; lia).
  assert (forall d, 0 < d -> 2 <= 2 ^ d) as Hstep
    by (intros d Hd; change 2 with (2 ^ 1) at 1; apply Z.pow_le_mono_r; lia).
  destruct (Z.compare_spec ex ey) as [->|L|L].
  - rewrite Z.min_id, Z.sub_diag, !Z.mul_1_r. reflexivity.
  - replace (Z.min ex ey) with ex by lia. rewrite Z.sub_diag, Z.mul_1_r.
    apply Z.compare_lt_iff.
    assert (Z.pos (digits2_pos my) = 53) as E by lia. rewrite E in *.
    specialize (Hup _ Hx2). specialize (Hstep (ey - ex) ltac:(lia)).
    change (2 ^ (53 - 1)) with 4503599627370496 in *. change (2 ^ 53) with 9007199254740992 in *.
    nia.
  - replace (Z.min ex ey) with ey by lia. rewrite Z.sub_diag, Z.mul_1_r.
    apply Z.compare_gt_iff.
    assert (Z.pos (digits2_pos mx) = 53) as E by lia. rewrite E in *.
    specialize (Hup _ Hy2). specialize (Hstep (ex - ey) ltac:(lia)).
    change (2 ^ (53 - 1)) with 4503599627370496 in *. change (2 ^ 53) with 9007199254740992 in *.
    nia.
Qed.

Lemma binary_normalize_pos m e :
  SpecFloat.emin prec emax <= e ->
  SFltb (S754_zero false) (binary_normalize prec emax m e false) = (0 <? m).
Proof.
  intros He. destruct m as [|p|p]; cbn [binary_normalize]; try reflexivity.
  - destruct (binary_round_pos false p e He); reflexivity.
  - unfold binary_round. destruct (shl_align _ _ _) as [mz ez].
    pose proof (binary_round_aux_sign true (Z.pos mz) ez loc_Exact) as H.
    destruct (binary_round_aux _ _ _ _ _ _) as [| | |s' m' e']; subst; reflexivity.
Qed.

(** The sign test a JavaScript comparator [(a, b) => b - a] relies on:
    for numbers that are not NaN, [y - x > 0] exactly when [x < y]. *)
Lemma SFsub_pos x y :
  SpecFloat.valid_binary prec emax x = true -> SpecFloat.valid_binary prec emax y = true ->
  x <> S754_nan -> y <> S754_nan ->
  SFltb (S754_zero false) (SFsub prec emax y x) = SFltb x y.
Proof.
  intros Vx Vy Nx Ny.
  destruct x as [sx|sx| |sx mx ex], y as [sy|sy| |sy my ey]; try congruence;
    try (destruct sx, sy; reflexivity); try (destruct sx; reflexivity);
    try (destruct sy; reflexivity).
  cbn [SpecFloat.valid_binary] in Vx, Vy. cbn [SFsub].
  rewrite binary_normalize_pos
    by (apply bounded_inv in Vx, Vy; lia).
  pose proof (align_compare mx ex my ey Vx Vy) as A.
  set (ax := Z.pos (fst (shl_align mx ex (Z.min ex ey)))) in *.
  set (ay := Z.pos (fst (shl_align my ey (Z.min ex ey)))) in *.
  replace (fst (shl_align my ey (Z.min ey ex))) with (fst (shl_align my ey (Z.min ex ey)))
    by (now rewrite Z.min_comm).
  replace (fst (shl_align mx ex (Z.min ey ex))) with (fst (shl_align mx ex (Z.min ex ey)))
    by (now rewrite Z.min_comm).
  fold ax ay. assert (0 < ax) by (unfold ax; lia). assert (0 < ay) by (unfold ay; lia).
  unfold SFltb, SFcompare.
  destruct sx, sy; cbn [cond_Zopp];
    destruct (ex ?= ey); destruct (Pos.compare_cont Eq mx my); cbn [CompOpp];
    pose proof (Z.compare_spec ax ay) as C; rewrite A in C; inversion C;
    match goal with |- context [0 <? ?t] => destruct (Z.ltb_spec 0 t) end;
    try reflexivity; lia.
Qed.

Lemma sub_pos x y :
  is_nan x = false -> is_nan y = false -> (0 <? y - x)%float = (x <? y)%float.
Proof.
  intros Nx Ny. rewrite !FloatAxioms.ltb_spec, sub_spec.
  change (Prim2SF 0) with (S754_zero false). apply SFsub_pos; try apply Prim2SF_valid.
  - intros E. unfold is_nan in Nx. rewrite FloatAxioms.eqb_spec, E in Nx. discriminate.
  - intros E. unfold is_nan in Ny. rewrite FloatAxioms.eqb_spec, E in Ny. discriminate.
Qed.

End FloatSub.


Section FloatZero.

Lemma eqb_refl_key x : is_nan x = false -> (x =? x)%float = true.
Proof. unfold is_nan. now rewrite negb_false_iff. Qed.

Lemma is_finite_cases w :
  is_finite w = true ->
  (exists s, Prim2SF w = S754_zero s) \/ (exists s m e, Prim2SF w = S754_finite s m e).
Proof.
  unfold is_finite, is_nan, is_infinity.
  rewrite negb_true_iff, orb_false_iff, negb_false_iff.
  rewrite !FloatAxioms.eqb_spec, abs_spec.
  destruct (Prim2SF w) as [s|s| |s m e]; intros [H1 H2].
  - left. now exists s.
  - exfalso. now vm_compute in H2.
  - exfalso. now vm_compute in H1.
  - right. now exists s, m, e.
Qed.

(** [0 * w] is a zero for a finite [w]. *)
Lemma mul_zero_l w :
  is_finite w = true -> exists s, Prim2SF (0 * w) = S754_zero s.
Proof.
  intros H. rewrite mul_spec. change (Prim2SF 0) with (S754_zero false).
  destruct (is_finite_cases w H) as [[s ->]|(s & m & e & ->)]; cbn; eauto.
Qed.

(** Adding a zero does not change the value, as [==] compares. *)
Lemma add_zero_r x z s :
  Prim2SF z = S754_zero s -> is_nan x = false -> (x =? x + z)%float = true.
Proof.
  intros Hz Hx. pose proof (eqb_refl_key x Hx) as E. revert E.
  rewrite !FloatAxioms.eqb_spec, add_spec, Hz.
  destruct (Prim2SF x) as [sx|sx| |sx m e]; cbn [SF64add SFadd]; trivial.
  now destruct sx, s.
Qed.

Lemma add_zero_l x z s :
  Prim2SF z = S754_zero s -> is_nan x = false -> (x =? z + x)%float = true.
Proof.
  intros Hz Hx. pose proof (eqb_refl_key x Hx) as E. revert E.
  rewrite !FloatAxioms.eqb_spec, add_spec, Hz.
  destruct (Prim2SF x) as [sx|sx| |sx m e]; cbn [SF64add SFadd]; trivial.
  now destruct sx, s.
Qed.

End FloatZero.

Section FloatProduct.

(** The product of two numbers does not depend on their order. *)
Lemma float_mul_comm x y : (x * y)%float = (y * x)%float.
Proof.
  apply Prim2SF_inj. rewrite !mul_spec. unfold SF64mul, SFmul.
  destruct (Prim2SF x) as [sx|sx| |sx mx ex], (Prim2SF y) as [sy|sy| |sy my ey];
    try reflexivity; rewrite ?(xorb_comm sx sy); try reflexivity.
  now rewrite (Pos.mul_comm mx my), (Z.add_comm ex ey).
Qed.

End FloatProduct.
(* ================================================================== *)
(** * embeddingsService: cosine similarity *)
(* ================================================================== *)

Section CosineSimilarity.
Import embeddingsService.

(** An absent vector gives [0]. *)
Lemma cosineSimilarity_absent_l b : cosineSimilarity None b = 0%float.
Proof. reflexivity. Qed.

Lemma cosineSimilarity_absent_r a : cosineSimilarity a None = 0%float.
Proof. by destruct a. Qed.

(** Vectors of different lengths give [0]. *)
Lemma cosineSimilarity_mismatch (a b : list float) :
  length a ≠ length b → cosineSimilarity (Some a) (Some b) = 0%float.
Proof.
  intros H. unfold cosineSimilarity.
  destruct (Nat.eqb_spec (length a) (length b)) as [E|E]; [done|reflexivity].
Qed.

(** C3: on the vectors [0.1, 0.7] and [0.1, 0.7] [cosineSimilarity] returns
    [1.0000000000000002], which is above [1]; on the zero-norm vector [0]
    and the vector [1e200] it returns [NaN], not [0] ([normB] overflows to
    [Infinity], the denominator [0 * Infinity] is [NaN], which is not
    [=== 0]). *)
Lemma cosineSimilarity_leaves_range :
  cosineSimilarity (Some [0.1; 0.7]%float) (Some [0.1; 0.7]%float)
    = 1.0000000000000002%float
  ∧ (1 <? cosineSimilarity (Some [0.1; 0.7]%float) (Some [0.1; 0.7]%float))%float = true
  ∧ is_nan (cosineSimilarity (Some [0]%float) (Some [1e200]%float)) = true
  ∧ is_nan (cosineSimilarity (Some [1e200]%float) (Some [1e200]%float)) = true.
Proof. repeat split; vm_compute; reflexivity. Qed.

End CosineSimilarity.

(* ================================================================== *)
(** * embeddingsService: the shape of the clustering result *)
(* ================================================================== *)

Section ClusterShape.
Import embeddingsService.

Lemma nearestBody_lt e centroids k l st :
  Forall (λ j, j < k)%nat l → (st.1 < k)%nat →
  ((fold_left (nearestBody e centroids) l st).1 < k)%nat.
Proof.
  intros Hl. revert st. induction Hl as [|j l Hj Hl IH]; intros [b s] Hb; [done|].
  cbn [fold_left]. apply IH. unfold nearestBody. by destruct (s <? _)%float.
Qed.

Lemma nearestCentroid_lt e centroids k :
  (0 < k)%nat → (nearestCentroid e centroids k < k)%nat.
Proof.
  intros Hk. apply nearestBody_lt; [|done].
  apply Forall_forall. intros j Hj%elem_of_seq. lia.
Qed.

Lemma assignBody_shape embeddings centroids k st i :
  (0 < k)%nat → Forall (λ c, c < k)%nat st.1 →
  length (assignBody embeddings centroids k st i).1 = length st.1
  ∧ Forall (λ c, c < k)%nat (assignBody embeddings centroids k st i).1.
Proof.
  intros Hk Hst. destruct st as [asg ch]. unfold assignBody. case_decide; [done|].
  cbn. split; [by rewrite length_insert|].
  apply Forall_insert; [done|]. by apply nearestCentroid_lt.
Qed.

Lemma assignFold_shape embeddings centroids k l st :
  (0 < k)%nat → Forall (λ c, c < k)%nat st.1 →
  length (fold_left (assignBody embeddings centroids k) l st).1 = length st.1
  ∧ Forall (λ c, c < k)%nat (fold_left (assignBody embeddings centroids k) l st).1.
Proof.
  intros Hk. revert st. induction l as [|i l IH]; intros st Hst; [done|].
  cbn [fold_left]. destruct (assignBody_shape embeddings centroids k st i Hk Hst) as [E F].
  destruct (IH _ F) as [E' F']. split; [congruence|done].
Qed.

Lemma assignStep_shape embeddings centroids k assignments :
  (0 < k)%nat → Forall (λ c, c < k)%nat assignments →
  length (assignStep embeddings centroids k assignments).1 = length assignments
  ∧ Forall (λ c, c < k)%nat (assignStep embeddings centroids k assignments).1.
Proof. intros Hk Ha. by apply (assignFold_shape _ _ _ _ (assignments, false)). Qed.

Lemma kmeansLoop_shape iters embeddings dims k centroids assignments :
  (0 < k)%nat → Forall (λ c, c < k)%nat assignments →
  length (kmeansLoop iters embeddings dims k centroids assignments) = length assignments
  ∧ Forall (λ c, c < k)%nat (kmeansLoop iters embeddings dims k centroids assignments).
Proof.
  intros Hk. revert centroids assignments.
  induction iters as [|iters IH]; intros centroids assignments Ha; [done|].
  cbn [kmeansLoop].
  destruct (assignStep_shape embeddings centroids k assignments Hk Ha) as [E F].
  destruct (assignStep embeddings centroids k assignments) as [asg' changed].
  cbn [fst] in E, F. destruct changed; cbn [negb]; [|done].
  destruct (IH (updateCentroids embeddings dims k asg' centroids) asg' F) as [E' F'].
  split; [congruence|done].
Qed.

Lemma filter_none {A} (P : A → Prop) `{!∀ x, Decision (P x)} (l : list A) :
  Forall (λ x, ¬ P x) l → filter P l = [].
Proof.
  induction 1 as [|x l Hx Hl IH]; [done|]. rewrite filter_cons. by case_decide.
Qed.

Lemma filter_all {A} (P : A → Prop) `{!∀ x, Decision (P x)} (l : list A) :
  Forall P l → filter P l = l.
Proof.
  induction 1 as [|x l Hx Hl IH]; [done|]. rewrite filter_cons.
  case_decide; [by f_equal|done].
Qed.

Lemma fresh_cons (L used : list nat) (x : nat) :
  (length (filter (λ i, i ∉ used) L)
   ≤ length (filter (λ i, i ∉ x :: used) L) + length (filter (λ i, i = x) L))%nat.
Proof.
  induction L as [|y L IH]; [cbn; lia|].
  rewrite !filter_cons.
  destruct (decide (y ∉ used)) as [H1|H1], (decide (y ∉ x :: used)) as [H2|H2],
    (decide (y = x)) as [H3|H3]; cbn [length]; try lia; exfalso;
    apply H2; by apply not_elem_of_cons.
Qed.

Lemma filter_eq_NoDup (L : list nat) (x : nat) :
  NoDup L → (length (filter (λ i, i = x) L) ≤ 1)%nat.
Proof.
  induction 1 as [|y L Hy HL IH]; [cbn; lia|].
  rewrite filter_cons. case_decide; [|done]. subst. cbn [length].
  rewrite filter_none; [done|].
  apply Forall_forall. intros z Hz ->. done.
Qed.

(** The initialisation finishes, with [remaining] more centroids, as soon
    as the draws hold that many indices not used yet. *)
Lemma pickCentroids_ok embeddings draws : ∀ remaining usedIndices centroids,
  (0 < length embeddings)%nat →
  (remaining ≤ length (filter (λ i, i ∉ usedIndices)
                 (remove_dups (map (λ r, r mod length embeddings)%nat draws))))%nat →
  ∃ centroids',
    pickCentroids embeddings remaining usedIndices centroids draws = Ok centroids'
    ∧ length centroids' = (length centroids + remaining)%nat.
Proof.
  induction draws as [|r draws IH]; intros remaining used cents Hn Hrem.
  - cbn in Hrem. assert (remaining = 0)%nat as -> by lia. exists cents. cbn. split; [done|lia].
  - destruct remaining as [|remaining']; [exists cents; cbn; split; [done|lia]|].
    cbn [pickCentroids]. set (idx := (r mod length embeddings)%nat) in *.
    cbn [map remove_dups] in Hrem. fold idx in Hrem.
    case_bool_decide as Hused.
    + apply IH; [done|]. destruct (decide_rel elem_of idx _) in Hrem; [done|].
      rewrite filter_cons in Hrem. by case_decide.
    + assert (idx < length embeddings)%nat as Hidx by (apply Nat.mod_upper_bound; lia).
      destruct (lookup_lt_is_Some_2 embeddings idx Hidx) as [e He]. rewrite He.
      set (L := remove_dups (map (λ r, (r mod length embeddings)%nat) draws)) in *.
      destruct (IH remaining' (idx :: used) (cents ++ [e]) Hn) as (c & Hc & Hlen).
      * pose proof (fresh_cons L used idx) as F.
        pose proof (filter_eq_NoDup L idx (NoDup_remove_dups _)) as G.
        destruct (decide_rel elem_of idx _) as [Hin|Hin] in Hrem.
        -- lia.
        -- rewrite filter_cons in Hrem. case_decide; [|done]. cbn [length] in Hrem.
           assert (filter (λ i, i = idx) L = []) as E.
           { apply filter_none, Forall_forall. intros z Hz ->.
             apply Hin. by apply elem_of_remove_dups. }
           rewrite E in F. cbn in F. lia.
      * exists c. split; [done|]. rewrite Hlen, length_app. cbn. lia.
Qed.

Lemma pickCentroids_enough embeddings k draws :
  (0 < length embeddings)%nat → (k ≤ distinctDraws (length embeddings) draws)%nat →
  ∃ centroids, pickCentroids embeddings k [] [] draws = Ok centroids
               ∧ length centroids = k.
Proof.
  intros Hn Hk. apply (pickCentroids_ok embeddings draws k [] [] Hn).
  unfold distinctDraws in Hk.
  rewrite filter_all; [done|].
  apply Forall_forall. intros i _. apply not_elem_of_nil.
Qed.

Lemma lookup_total_Forall (P : nat → Prop) (l : list nat) i :
  Forall P l → P 0%nat → P (l !!! i).
Proof.
  intros Hl H0. rewrite list_lookup_total_alt.
  destruct (l !! i) as [x|] eqn:E; [|done].
  by eapply Forall_lookup_1.
Qed.

(** C4 (as amended, for [k >= 1]): [clusterEmbeddings] returns one
    [(entryId, clusterId)] pair per entry, in input order, every
    [clusterId] is in [0, k), and when there are fewer than [k] entries
    every [clusterId] is [0].  With [N >= k] the initialisation needs [k]
    different indices from the random source. *)
Theorem clusterEmbeddings_shape (entries : list ClusterEntry) (k : Z)
    (maxIterations : nat) (draws : list nat) :
  1 ≤ k →
  (k ≤ Z.of_nat (length entries) →
   (Z.to_nat k ≤ distinctDraws (length entries) draws)%nat) →
  ∃ result,
    clusterEmbeddings entries (JInt k) maxIterations draws = Ok result
    ∧ map entryId result = map ce_id entries
    ∧ Forall (λ a, (clusterId a < Z.to_nat k)%nat) result
    ∧ (Z.of_nat (length entries) < k → Forall (λ a, clusterId a = 0%nat) result).
Proof.
  intros Hk Hdraws. unfold clusterEmbeddings. cbn [jsLt loopBound].
  destruct (Z.ltb_spec (Z.of_nat (length entries)) k) as [Hlt|Hge].
  - eexists. split; [done|]. split; [|split].
    + rewrite <- list_fmap_compose. done.
    + apply Forall_fmap, Forall_forall. intros e _. cbn. lia.
    + intros _. apply Forall_fmap, Forall_forall. by intros e _.
  - specialize (Hdraws Hge).
    destruct entries as [|e0 entries']; [cbn in Hge; lia|].
    set (entries := e0 :: entries') in *. cbn [map lookup list_lookup].
    change (ce_embedding e0 :: map ce_embedding entries') with (map ce_embedding entries).
    destruct (pickCentroids_enough (map ce_embedding entries) (Z.to_nat k) draws)
      as (centroids & -> & Hlen).
    { rewrite length_map. cbn. lia. }
    { by rewrite length_map. }
    destruct (kmeansLoop_shape maxIterations (map ce_embedding entries)
                (length (ce_embedding e0)) (Z.to_nat k) centroids
                (replicate (length (map ce_embedding entries)) 0%nat)) as [Elen Elt].
    { lia. }
    { apply Forall_replicate. lia. }
    eexists. split; [done|]. split; [|split].
    + apply list_eq. intros i. rewrite !list_lookup_fmap, list_lookup_imap.
      by destruct (entries !! i).
    + apply Forall_lookup. intros i a. rewrite list_lookup_imap.
      destruct (entries !! i); intros [= <-]. cbn.
      apply (lookup_total_Forall (λ c, c < Z.to_nat k)%nat); [done|lia].
    + lia.
Qed.

(** Witness for [clusterEmbeddings_shape]: two entries, [k = 2]. *)
Lemma clusterEmbeddings_shape_witness :
  ∃ result,
    clusterEmbeddings examples.twoEntries (JInt 2) 10 [0; 0; 1]%nat = Ok result
    ∧ map entryId result = map ce_id examples.twoEntries
    ∧ Forall (λ a, (clusterId a < Z.to_nat 2)%nat) result
    ∧ (Z.of_nat (length examples.twoEntries) < 2
       → Forall (λ a, clusterId a = 0%nat) result).
Proof.
  apply (clusterEmbeddings_shape examples.twoEntries 2 10%nat [0; 0; 1]%nat).
  - lia.
  - intros _. vm_compute. lia.
Defined.

(** C4 as stated fails at [k = 0]: one entry and [k = 0] is the case
    [N >= k], the call returns the pair with [clusterId] [0], and [0] is
    not in the empty range [0, 0). *)
Lemma clusterEmbeddings_k0_counterexample :
  let entries := take 1 examples.twoEntries in
  ¬ (Z.of_nat (length entries) < 0)
  ∧ clusterEmbeddings entries (JInt 0) 10 []
    = Ok [ {| entryId := 10; clusterId := 0 |} ]
  ∧ ¬ Forall (λ a, (0 ≤ clusterId a < Z.to_nat 0)%nat)
        [ {| entryId := 10; clusterId := 0 |} ].
Proof.
  split; [cbn; lia|]. split; [reflexivity|].
  intros H. apply Forall_cons_1 in H as [H _]. cbn in H. lia.
Qed.

End ClusterShape.

(* ================================================================== *)
(** * embeddingsService: one iteration of the clustering loop *)
(* ================================================================== *)

Section ClusterIteration.
Import embeddingsService.

Variables (embeddings centroids : list (list float)) (k : nat).

(** ** Assignment step: the nearest centroid *)

Lemma nearestBody_best e l : ∀ (st : nat * float) (seen : list nat),
  st.2 = similarityTo e centroids st.1 →
  (∀ j, j ∈ seen → (st.2 <? similarityTo e centroids j)%float = false) →
  let st' := fold_left (nearestBody e centroids) l st in
  st'.2 = similarityTo e centroids st'.1
  ∧ ∀ j, j ∈ seen ++ l → (st'.2 <? similarityTo e centroids j)%float = false.
Proof.
  induction l as [|t l IH]; intros [b s] seen Hs Hseen; cbn [fold_left].
  - split; [done|]. intros j. rewrite app_nil_r. apply Hseen.
  - cbn [fst snd] in *.
    assert (nearestBody e centroids (b, s) t
            = if (s <? similarityTo e centroids t)%float
              then (t, similarityTo e centroids t) else (b, s)) as -> by reflexivity.
    destruct (s <? similarityTo e centroids t)%float eqn:E.
    + destruct (IH (t, similarityTo e centroids t) (seen ++ [t])) as [G1 G2]; [done| |].
      * intros j [Hj|Hj%list_elem_of_singleton]%elem_of_app; cbn [snd].
        -- destruct (similarityTo e centroids t <? similarityTo e centroids j)%float eqn:E'; [|done].
           rewrite <- (Hseen j Hj). symmetry. eapply ltb_trans; eauto.
        -- subst. apply ltb_irrefl.
      * split; [done|]. intros j Hj. apply G2. rewrite <- app_assoc. exact Hj.
    + destruct (IH (b, s) (seen ++ [t])) as [G1 G2]; [done| |].
      * intros j [Hj|Hj%list_elem_of_singleton]%elem_of_app; cbn [snd]; [by apply Hseen|by subst].
      * split; [done|]. intros j Hj. apply G2. rewrite <- app_assoc. exact Hj.
Qed.

(** No centroid is strictly more similar to [e] than the one chosen. *)
Lemma nearestCentroid_best e j :
  (j < k)%nat →
  (similarityTo e centroids (nearestCentroid e centroids k)
     <? similarityTo e centroids j)%float = false.
Proof.
  intros Hj. unfold nearestCentroid.
  destruct (nearestBody_best e (seq 1 (k - 1)) (0%nat, similarityTo e centroids 0) [0%nat])
    as [G1 G2]; [done| |].
  - intros j' ->%list_elem_of_singleton. apply ltb_irrefl.
  - cbn zeta in G1, G2.
    change (cosineSimilarity (Some e) (centroids !! 0%nat)) with (similarityTo e centroids 0).
    rewrite <- G1. apply G2.
    change ([0%nat] ++ seq 1 (k - 1)) with (seq 0 (S (k - 1))).
    apply elem_of_seq. lia.
Qed.

(** The inner loop from centroid [a] on, when the similarity of the best
    centroid so far is a number: the best centroid stays one whose
    similarity is a number, that no centroid seen with a number for
    similarity exceeds, and that every earlier such centroid is strictly
    below. *)
Lemma nearestBody_max e n : ∀ (a : nat) (st : nat * float),
  (st.1 < a)%nat →
  st.2 = similarityTo e centroids st.1 →
  is_nan st.2 = false →
  (∀ j, (j < a)%nat → is_nan (similarityTo e centroids j) = false →
        (similarityTo e centroids j <=? st.2)%float = true) →
  (∀ j, (j < st.1)%nat → is_nan (similarityTo e centroids j) = false →
        (similarityTo e centroids j <? st.2)%float = true) →
  let st' := fold_left (nearestBody e centroids) (seq a n) st in
  (st'.1 < a + n)%nat
  ∧ st'.2 = similarityTo e centroids st'.1
  ∧ is_nan st'.2 = false
  ∧ (∀ j, (j < a + n)%nat → is_nan (similarityTo e centroids j) = false →
          (similarityTo e centroids j <=? st'.2)%float = true)
  ∧ (∀ j, (j < st'.1)%nat → is_nan (similarityTo e centroids j) = false →
          (similarityTo e centroids j <? st'.2)%float = true).
Proof.
  induction n as [|n IH]; intros a [b s] Hb Hs Hnan Hle Hlt; cbn [seq fold_left].
  - cbn [fst snd] in *. rewrite Nat.add_0_r. done.
  - cbn [fst snd] in *.
    assert (nearestBody e centroids (b, s) a
            = if (s <? similarityTo e centroids a)%float
              then (a, similarityTo e centroids a) else (b, s)) as -> by reflexivity.
    replace (a + S n)%nat with (S a + n)%nat by lia.
    destruct (s <? similarityTo e centroids a)%float eqn:E.
    + destruct (ltb_not_nan _ _ E) as [_ Hna].
      apply IH; cbn [fst snd]; [lia|done|done| |].
      * intros j Hj Hnj. destruct (decide (j = a)) as [->|Hne]; [by apply leb_refl|].
        apply ltb_leb. eapply leb_ltb_trans; [|exact E]. apply Hle; [lia|done].
      * intros j Hj Hnj. eapply leb_ltb_trans; [|exact E]. by apply Hle.
    + apply IH; cbn [fst snd]; [lia|done|done| |done].
      intros j Hj Hnj. destruct (decide (j = a)) as [->|Hne].
      * by apply ltb_false_leb.
      * apply Hle; [lia|done].
Qed.

(** When the similarity of the best centroid so far is [NaN] the inner
    loop never replaces it. *)
Lemma nearestBody_nan e l (b : nat) (s : float) :
  is_nan s = true → fold_left (nearestBody e centroids) l (b, s) = (b, s).
Proof.
  intros Hnan. induction l as [|j l IH]; [done|]. cbn [fold_left].
  assert (nearestBody e centroids (b, s) j = (b, s)) as ->; [|exact IH].
  unfold nearestBody.
  destruct (s <? cosineSimilarity (Some e) (centroids !! j))%float eqn:E; [|done].
  apply ltb_not_nan in E as [E _]. congruence.
Qed.

(** The centroid the inner loop chooses.  When the similarity to centroid
    [0] is [NaN], it is centroid [0].  When it is a number, it is the
    first of the centroids of highest similarity among those whose
    similarity is a number. *)
Lemma nearestCentroid_spec e :
  (0 < k)%nat →
  let best := nearestCentroid e centroids k in
  (is_nan (similarityTo e centroids 0) = true → best = 0%nat)
  ∧ (is_nan (similarityTo e centroids 0) = false →
     is_nan (similarityTo e centroids best) = false
     ∧ (∀ j, (j < k)%nat → is_nan (similarityTo e centroids j) = false →
          (similarityTo e centroids j <=? similarityTo e centroids best)%float = true)
     ∧ (∀ j, (j < best)%nat → is_nan (similarityTo e centroids j) = false →
          (similarityTo e centroids j <? similarityTo e centroids best)%float = true)).
Proof.
  intros Hk best. subst best. unfold nearestCentroid.
  change (cosineSimilarity (Some e) (centroids !! 0%nat)) with (similarityTo e centroids 0).
  split.
  - intros Hnan. by rewrite nearestBody_nan.
  - intros Hnan.
    destruct (nearestBody_max e (k - 1) 1 (0%nat, similarityTo e centroids 0))
      as (G1 & G2 & G3 & G4 & G5); cbn [fst snd]; [lia|done|done| | |].
    + intros j Hj Hnj. assert (j = 0%nat) as -> by lia. by apply leb_refl.
    + intros j Hj. lia.
    + cbn zeta in G1, G2, G3, G4, G5. rewrite <- G2. split; [done|]. split; [|done].
      intros j Hj. apply G4. lia.
Qed.

(** ** Assignment step: every entry is reassigned *)

Lemma assignBody_lookup st a i :
  (assignBody embeddings centroids k st a).1 !! i
  = if decide (a = i)
    then (λ _, nearestCentroid (embeddings !!! a) centroids k) <$> st.1 !! a
    else st.1 !! i.
Proof.
  destruct st as [asg ch]. unfold assignBody. cbn [fst].
  case_decide as Hcur; cbn [fst].
  - case_decide; [subst; by rewrite Hcur|done].
  - by rewrite list_insert_alter, list_lookup_alter.
Qed.

Lemma assignFold_lookup l : ∀ st i,
  (fold_left (assignBody embeddings centroids k) l st).1 !! i
  = if decide (i ∈ l)
    then (λ _, nearestCentroid (embeddings !!! i) centroids k) <$> st.1 !! i
    else st.1 !! i.
Proof.
  induction l as [|a l IH]; intros st i; cbn [fold_left].
  - case_decide as H; [by apply elem_of_nil in H|done].
  - rewrite IH, assignBody_lookup.
    destruct (decide (a = i)) as [->|Hne], (decide (i ∈ l)) as [Hin|Hin],
      (decide (i ∈ _ :: l)) as [Hin'|Hin']; try done.
    + by destruct (st.1 !! i).
    + exfalso. apply Hin'. by left.
    + exfalso. apply Hin'. by left.
    + exfalso. apply Hin'. by right.
    + by apply elem_of_cons in Hin' as [->|?].
Qed.

Lemma assignFold_flag_true l : ∀ st,
  st.2 = true → (fold_left (assignBody embeddings centroids k) l st).2 = true.
Proof.
  induction l as [|a l IH]; intros [asg ch] H; [done|].
  cbn [fold_left]. apply IH. unfold assignBody. cbn in H. subst. by case_decide.
Qed.

Lemma assignFold_unchanged l : ∀ st,
  (fold_left (assignBody embeddings centroids k) l st).2 = false →
  (fold_left (assignBody embeddings centroids k) l st).1 = st.1 ∧ st.2 = false.
Proof.
  induction l as [|a l IH]; intros [asg ch] H; [done|].
  cbn [fold_left] in *. unfold assignBody in H |- * at 1. unfold assignBody at 1.
  case_decide as Hcur.
  - by apply IH.
  - by rewrite assignFold_flag_true in H.
Qed.

Lemma assignFold_changed l : ∀ st,
  NoDup l → (fold_left (assignBody embeddings centroids k) l st).2 = true →
  st.2 = true
  ∨ ∃ i, i ∈ l ∧ st.1 !! i ≠ Some (nearestCentroid (embeddings !!! i) centroids k).
Proof.
  induction l as [|a l IH]; intros [asg ch] Hnd H; [by left|].
  apply NoDup_cons in Hnd as [Ha Hnd]. cbn [fold_left] in H.
  destruct (IH _ Hnd H) as [G|(i & Hi & G)].
  - unfold assignBody in G. case_decide as Hcur; [by left|].
    right. exists a. split; [by left|done].
  - right. exists i. split; [by right|].
    rewrite assignBody_lookup in G. rewrite decide_False in G; [done|].
    by intros ->.
Qed.

(** The assignment step gives every entry its nearest centroid, and its
    [changed] flag tells whether an assignment is different from before. *)
Lemma assignStep_spec assignments :
  length assignments = length embeddings →
  let '(assignments', changed) := assignStep embeddings centroids k assignments in
  length assignments' = length embeddings
  ∧ (∀ i e, embeddings !! i = Some e →
       assignments' !! i = Some (nearestCentroid e centroids k))
  ∧ (changed = false ↔ assignments' = assignments).
Proof.
  intros Hlen. unfold assignStep.
  destruct (fold_left _ _ _) as [asg' ch] eqn:E.
  assert (∀ i e, embeddings !! i = Some e →
            asg' !! i = Some (nearestCentroid e centroids k)) as Hlook.
  { intros i e He. pose proof (assignFold_lookup (seq 0 (length embeddings)) (assignments, false) i) as L.
    rewrite E in L. cbn [fst] in L. rewrite L.
    pose proof (lookup_lt_Some _ _ _ He) as Hi.
    rewrite decide_True by (apply elem_of_seq; lia).
    rewrite (list_lookup_total_correct _ _ _ He).
    destruct (lookup_lt_is_Some_2 assignments i) as [c ->]; [lia|done]. }
  split; [|split; [done|]].
  - apply Nat.le_antisymm.
    + apply Nat.nlt_ge. intros Hlt.
      destruct (lookup_lt_is_Some_2 asg' (length embeddings) Hlt) as [c Hc].
      pose proof (assignFold_lookup (seq 0 (length embeddings)) (assignments, false) (length embeddings)) as L.
      rewrite E in L. cbn [fst] in L. rewrite Hc in L.
      rewrite decide_False in L by (rewrite elem_of_seq; lia).
      symmetry in L. apply lookup_lt_Some in L. lia.
    + apply Nat.nlt_ge. intros Hlt.
      destruct (lookup_lt_is_Some_2 embeddings (length asg') Hlt) as [e He].
      apply Hlook, lookup_lt_Some in He. lia.
  - split.
    + intros ->. pose proof (assignFold_unchanged (seq 0 (length embeddings)) (assignments, false)) as U.
      rewrite E in U. by destruct U.
    + intros ->. destruct ch; [|done]. exfalso.
      destruct (assignFold_changed (seq 0 (length embeddings)) (assignments, false)) as [G|(i & Hi & G)].
      * apply NoDup_seq.
      * by rewrite E.
      * done.
      * cbn [fst] in G. apply elem_of_seq in Hi.
        destruct (lookup_lt_is_Some_2 embeddings i) as [e He]; [lia|].
        rewrite (list_lookup_total_correct _ _ _ He) in G. by apply G, Hlook.
Qed.

(** ** Update step: sums, counts and means *)

Lemma fold_alter_lookup {A} (g : nat → A → A) (l : list nat) : ∀ (row : list A) i,
  NoDup l →
  fold_left (λ row d, alter (g d) d row) l row !! i
  = if decide (i ∈ l) then g i <$> row !! i else row !! i.
Proof.
  induction l as [|a l IH]; intros row i Hnd; cbn [fold_left].
  - case_decide as H; [by apply elem_of_nil in H|done].
  - apply NoDup_cons in Hnd as [Ha Hnd]. rewrite IH by done.
    rewrite list_lookup_alter.
    destruct (decide (a = i)) as [->|Hne], (decide (i ∈ l)) as [Hin|Hin],
      (decide (i ∈ _ :: l)) as [Hin'|Hin']; try done.
    + exfalso. apply Hin'. by left.
    + exfalso. apply Hin'. by right.
    + by apply elem_of_cons in Hin' as [->|?].
Qed.

Lemma addInto_map e dims (f : nat → float) :
  addInto e dims (f <$> seq 0 dims)
  = (λ d, (f d + getNum e d)%float) <$> seq 0 dims.
Proof.
  apply list_eq. intros i. unfold addInto.
  rewrite (fold_alter_lookup (λ d x, (x + getNum e d)%float)) by apply NoDup_seq.
  rewrite !list_lookup_fmap. case_decide as H.
  - apply elem_of_seq in H. rewrite lookup_seq_lt by lia. done.
  - rewrite elem_of_seq in H. rewrite lookup_seq_ge by lia. done.
Qed.

Lemma addInto_fold ms dims : ∀ (f : nat → float),
  fold_left (λ row e, addInto e dims row) ms (f <$> seq 0 dims)
  = (λ d, fold_left (λ acc e, (acc + getNum e d)%float) ms (f d)) <$> seq 0 dims.
Proof.
  induction ms as [|e ms IH]; intros f; [done|].
  cbn [fold_left]. by rewrite addInto_map, IH.
Qed.

Lemma divideInto_spec sums count c : ∀ dims,
  divideInto sums count dims c
  = ((λ d, (getNum sums d / numOfNat count)%float) <$> seq 0 dims) ++ drop dims c.
Proof.
  unfold divideInto. induction dims as [|m IH]; [by rewrite drop_0|].
  rewrite seq_S, fold_left_app, IH, fmap_app. cbn [fold_left fmap list_fmap plus].
  set (v := λ d, (getNum sums d / numOfNat count)%float).
  assert (length (v <$> seq 0 m) = m) as Hm by (by rewrite length_fmap, length_seq).
  unfold arraySet. rewrite length_app, Hm, length_drop. case_decide as Hlt.
  - assert (m < length c)%nat as Hc by lia.
    destruct (drop m c) as [|x rest] eqn:E.
    { apply (f_equal length) in E. rewrite length_drop in E. cbn in E. lia. }
    rewrite insert_app_r_alt by lia. rewrite Hm, Nat.sub_diag. cbn [insert list_insert].
    rewrite <- app_assoc. cbn. do 3 f_equal.
    replace (S m) with (m + 1)%nat by lia. rewrite <- drop_drop, E. done.
  - rewrite (drop_ge c m), (drop_ge c (S m)) by lia.
    replace (m - (m + (length c - m)))%nat with 0%nat by lia.
    rewrite !app_nil_r. done.
Qed.

Variables (dims : nat) (assignments : list nat).

Lemma accumulateFold_lookup (l : list nat) (j : nat) : ∀ st row count,
  st.1 !! j = Some row → st.2 !! j = Some count →
  let st' := fold_left (accumulateBody embeddings dims assignments) l st in
  st'.1 !! j
  = Some (fold_left (λ row e, addInto e dims row)
            ((λ i, embeddings !!! i) <$> filter (λ i, assignments !!! i = j) l) row)
  ∧ st'.2 !! j
    = Some (count + length (filter (λ i, assignments !!! i = j) l))%nat.
Proof.
  induction l as [|i l IH]; intros [nc cnt] row count Hrow Hcount; cbn [fold_left].
  - cbn. split; [done|]. by rewrite Nat.add_0_r.
  - cbn [fst snd] in *. rewrite filter_cons. unfold accumulateBody at 2 4.
    case_decide as Hc.
    + subst j. edestruct IH as [G1 G2]; [| |split; [exact G1|]].
      * cbn [fst]. rewrite list_lookup_alter_eq, Hrow. done.
      * cbn [snd]. rewrite list_lookup_alter_eq, Hcount. done.
      * rewrite G2. cbn [length]. f_equal. lia.
    + apply IH; cbn [fst snd]; by rewrite list_lookup_alter_ne.
Qed.

(** After the first loop, row [j] holds the column sums of the members of
    cluster [j] and [counts[j]] their number. *)
Lemma accumulate_spec j :
  (j < k)%nat →
  (accumulate embeddings dims k assignments).1 !! j
    = Some (columnSum (members embeddings assignments j) <$> seq 0 dims)
  ∧ (accumulate embeddings dims k assignments).2 !! j
    = Some (length (members embeddings assignments j)).
Proof.
  intros Hj. unfold accumulate, members.
  edestruct (accumulateFold_lookup (seq 0 (length embeddings)) j
               (replicate k (replicate dims 0%float), replicate k 0%nat))
    as [G1 G2].
  { cbn [fst]. by apply lookup_replicate_2. }
  { cbn [snd]. by apply lookup_replicate_2. }
  cbn zeta in G1, G2. rewrite G1, G2. split.
  - f_equal. assert (replicate dims 0%float = (λ _, 0%float) <$> seq 0 dims) as ->.
    { rewrite (const_fmap _ (seq 0 dims) 0%float) by done. by rewrite length_seq. }
    by rewrite addInto_fold.
  - by rewrite length_fmap.
Qed.

(** C5, update step: a centroid with members becomes the element-wise
    mean of its members (over the [dims] coordinates, any further
    coordinates it had are kept); a centroid without members is kept. *)
Lemma updateCentroids_spec j c :
  (j < k)%nat → centroids !! j = Some c →
  updateCentroids embeddings dims k assignments centroids !! j
  = Some (match members embeddings assignments j with
          | [] => c
          | ms => meanOf ms dims ++ drop dims c
          end).
Proof.
  intros Hj Hc. unfold updateCentroids.
  destruct (accumulate_spec j Hj) as [G1 G2].
  destruct (accumulate embeddings dims k assignments) as [nc cnt]. cbn [fst snd] in G1, G2.
  set (g := λ j c, if decide (0 < cnt !!! j)%nat
                   then divideInto (nc !!! j) (cnt !!! j) dims c else c).
  assert (∀ l cs, fold_left (updateBody nc cnt dims) l cs
                  = fold_left (λ cs j, alter (g j) j cs) l cs) as ->.
  { induction l as [|a l IH]; intros cs; [done|]. cbn [fold_left]. rewrite IH. f_equal.
    unfold updateBody, g. case_decide; [done|]. by rewrite list_alter_id. }
  rewrite fold_alter_lookup by apply NoDup_seq.
  rewrite decide_True by (apply elem_of_seq; lia). rewrite Hc. cbn [fmap option_fmap option_map].
  f_equal. unfold g.
  rewrite (list_lookup_total_correct _ _ _ G1), (list_lookup_total_correct _ _ _ G2).
  destruct (members embeddings assignments j) as [|m ms] eqn:E; cbn [length].
  - by rewrite decide_False by lia.
  - rewrite decide_True by lia. rewrite divideInto_spec. f_equal.
    unfold meanOf. apply list_fmap_ext. intros i d Hd.
    apply lookup_seq in Hd as [-> Hd]. unfold getNum.
    rewrite list_lookup_fmap, lookup_seq_lt by done. done.
Qed.

Lemma updateCentroids_length :
  length (updateCentroids embeddings dims k assignments centroids) = length centroids.
Proof.
  unfold updateCentroids. destruct (accumulate _ _ _ _) as [nc cnt].
  generalize (seq 0 k) as l. intros l. revert centroids.
  induction l as [|a l IH]; intros cs; [done|]. cbn [fold_left]. rewrite IH.
  unfold updateBody. case_decide; [by rewrite length_alter|done].
Qed.

End ClusterIteration.

Section ClusterLoop.
Import embeddingsService.

(** C5 (as amended): one iteration of the loop of [clusterEmbeddings],
    from centroids [centroids] and assignments [assignments] (there are
    [k >= 1] centroids, one assignment per entry).  (1) Every entry is
    assigned to the centroid the comparisons [similarity > bestSimilarity]
    lead to: no centroid is strictly more similar than the one chosen;
    when the similarity to centroid [0] is a number, the one chosen is the
    first centroid of highest cosine similarity among the centroids whose
    similarity is a number; when the similarity to centroid [0] is [NaN],
    the entry is assigned to centroid [0], whatever the other similarities
    are.  (2) When this changes no assignment the loop stops and returns
    the assignments.  (3) When it changes one, the loop goes on with the
    updated centroids: a centroid with members is the element-wise mean of
    its members' embeddings over the [dims] coordinates, a centroid
    without members is unchanged. *)
Theorem kmeans_iteration (embeddings centroids : list (list float))
    (k dims iters : nat) (assignments : list nat) :
  (0 < k)%nat → length centroids = k → length assignments = length embeddings →
  let assignments' := (assignStep embeddings centroids k assignments).1 in
  let centroids' := updateCentroids embeddings dims k assignments' centroids in
  length assignments' = length embeddings
  ∧ (∀ i e, embeddings !! i = Some e →
       ∃ best, assignments' !! i = Some best ∧ (best < k)%nat
         ∧ (∀ j, (j < k)%nat →
              (similarityTo e centroids best <? similarityTo e centroids j)%float = false)
         ∧ (is_nan (similarityTo e centroids 0) = true → best = 0%nat)
         ∧ (is_nan (similarityTo e centroids 0) = false →
            is_nan (similarityTo e centroids best) = false
            ∧ (∀ j, (j < k)%nat → is_nan (similarityTo e centroids j) = false →
                 (similarityTo e centroids j <=? similarityTo e centroids best)%float
                 = true)
            ∧ (∀ j, (j < best)%nat → is_nan (similarityTo e centroids j) = false →
                 (similarityTo e centroids j <? similarityTo e centroids best)%float
                 = true)))
  ∧ (assignments' = assignments →
       kmeansLoop (S iters) embeddings dims k centroids assignments = assignments)
  ∧ (assignments' ≠ assignments →
       kmeansLoop (S iters) embeddings dims k centroids assignments
       = kmeansLoop iters embeddings dims k centroids' assignments'
       ∧ length centroids' = k
       ∧ ∀ j c, centroids !! j = Some c →
           centroids' !! j
           = Some (match members embeddings assignments' j with
                   | [] => c
                   | ms => meanOf ms dims ++ drop dims c
                   end)).
Proof.
  intros Hk Hcent Hlen assignments' centroids'.
  pose proof (assignStep_spec embeddings centroids k assignments Hlen) as S.
  unfold centroids', assignments'. cbn [kmeansLoop].
  destruct (assignStep embeddings centroids k assignments) as [asg' changed].
  destruct S as (S1 & S2 & S3). cbn [fst]. split; [done|]. split; [|split].
  - intros i e He. exists (nearestCentroid e centroids k).
    split; [by apply S2|]. split; [by apply nearestCentroid_lt|].
    split; [intros j Hj; by apply nearestCentroid_best|].
    apply nearestCentroid_spec. exact Hk.
  - intros E. rewrite (proj2 S3 E). exact E.
  - intros Hne. destruct changed; [|by destruct Hne; apply S3].
    cbn [negb]. split; [done|]. split.
    + by rewrite updateCentroids_length.
    + intros j c Hc. apply updateCentroids_spec; [|done].
      apply lookup_lt_Some in Hc. lia.
Qed.

(** Witness for [kmeans_iteration]: entries [1, 0] and [0, 1], both first
    assigned to cluster [0], centroids [1, 0] and [0, 1]. *)
Lemma kmeans_iteration_witness :
  let embeddings := ce_embedding <$> examples.twoEntries in
  let assignments' := (assignStep embeddings embeddings 2 [0; 0]%nat).1 in
  let centroids' := updateCentroids embeddings 2 2 assignments' embeddings in
  length assignments' = length embeddings
  ∧ (∀ i e, embeddings !! i = Some e →
       ∃ best, assignments' !! i = Some best ∧ (best < 2)%nat
         ∧ (∀ j, (j < 2)%nat →
              (similarityTo e embeddings best <? similarityTo e embeddings j)%float = false)
         ∧ (is_nan (similarityTo e embeddings 0) = true → best = 0%nat)
         ∧ (is_nan (similarityTo e embeddings 0) = false →
            is_nan (similarityTo e embeddings best) = false
            ∧ (∀ j, (j < 2)%nat → is_nan (similarityTo e embeddings j) = false →
                 (similarityTo e embeddings j <=? similarityTo e embeddings best)%float
                 = true)
            ∧ (∀ j, (j < best)%nat → is_nan (similarityTo e embeddings j) = false →
                 (similarityTo e embeddings j <? similarityTo e embeddings best)%float
                 = true)))
  ∧ (assignments' = [0; 0]%nat →
       kmeansLoop (S 9) embeddings 2 2 embeddings [0; 0]%nat = [0; 0]%nat)
  ∧ (assignments' ≠ [0; 0]%nat →
       kmeansLoop (S 9) embeddings 2 2 embeddings [0; 0]%nat
       = kmeansLoop 9 embeddings 2 2 centroids' assignments'
       ∧ length centroids' = 2%nat
       ∧ ∀ j c, embeddings !! j = Some c →
           centroids' !! j
           = Some (match members embeddings assignments' j with
                   | [] => c
                   | ms => meanOf ms 2 ++ drop 2 c
                   end)).
Proof.
  apply (kmeans_iteration (ce_embedding <$> examples.twoEntries)
           (ce_embedding <$> examples.twoEntries) 2 2 9 [0; 0]%nat).
  - lia.
  - reflexivity.
  - reflexivity.
Defined.

(** C5 as stated fails when a similarity is [NaN].  Three entries with
    the embeddings [-1e308, 0], [1, 1] and [100, 100], [k = 2], the first
    two drawn as centroids.  The similarity of the third entry to
    centroid [0] is [NaN] (the dot product and a norm overflow, and
    [-Infinity / Infinity] is [NaN]); no comparison with it is true, and
    the first iteration leaves the entry with centroid [0] although its
    similarity to centroid [1] is [0.9999999999999999].  The call returns
    it in cluster [0]. *)
Lemma kmeans_nan_counterexample :
  let embeddings := ce_embedding <$> examples.hugeCluster in
  let e := [100; 100]%float in
  let centroids := [[-1e308; 0]; [1; 1]]%float in
  embeddings !! 2%nat = Some e
  ∧ pickCentroids embeddings 2 [] [] [0; 1]%nat = Ok centroids
  ∧ assignStep embeddings centroids 2 [0; 0; 0]%nat = ([0; 1; 0]%nat, true)
  ∧ is_nan (similarityTo e centroids 0) = true
  ∧ similarityTo e centroids 1 = 0.9999999999999999%float
  ∧ (similarityTo e centroids 1 <=? similarityTo e centroids 0)%float = false
  ∧ clusterEmbeddings examples.hugeCluster (JInt 2) 10 [0; 1]%nat
    = Ok [ {| entryId := 20; clusterId := 0 |}; {| entryId := 21; clusterId := 1 |};
           {| entryId := 22; clusterId := 0 |} ].
Proof. repeat split; vm_compute; reflexivity. Qed.

End ClusterLoop.
(* ================================================================== *)
(** * clusteringService: when to cluster *)
(* ================================================================== *)

Section Trigger.
Import databaseService embeddingsService clusteringService.

Lemma bind_ok {A B} (m : M A) (k : A → M B) env w a w' :
  m env w = (Ok a, w') → bind m k env w = k a env w'.
Proof. unfold bind. by intros ->. Qed.

Lemma dbCall_ok {A} (f : Store → A * Store) env w :
  dbFails env (dbCalls w) = false →
  dbCall f env w = (Ok (f (store w)).1, afterCall w (f (store w)).2).
Proof. unfold dbCall. by intros ->. Qed.

Lemma dbCall_fails {A} (f : Store → A * Store) env w :
  dbFails env (dbCalls w) = true →
  dbCall f env w = (Throw (Error "database error"), afterCall w (store w)).
Proof. unfold dbCall. by intros ->. Qed.

(** Never clustered: the trigger fires exactly from five embedded entries. *)
Lemma shouldTrigger_first env w :
  (∀ n, dbFails env n = false) →
  settingOf (store w) "last_clustering_date" = None →
  (shouldTriggerClustering env w).1
  = Ok (bool_decide (5 ≤ length (clusterRows (store w)))%nat).
Proof.
  intros Hdb Hlast. unfold shouldTriggerClustering, tryCatch, getSetting,
    getEntriesForClustering, query.
  rewrite (bind_ok _ _ _ _ _ _ (dbCall_ok _ env w (Hdb _))). cbn [fst snd].
  rewrite (bind_ok _ _ _ _ _ _ (dbCall_ok _ env _ (Hdb _))). cbn [fst snd afterCall store].
  rewrite Hlast.
  rewrite (bind_ok _ _ _ _ _ _ (dbCall_ok _ env _ (Hdb _))).
  unfold ret. cbn [fst snd afterCall store].
  f_equal. destruct (Nat.leb_spec 5 (length (clusterRows (store w))));
    [by rewrite bool_decide_eq_true_2|by rewrite bool_decide_eq_false_2 by lia].
Qed.

(** Clustered before: the filter reads [entry.created_at], a column the
    rows of [getEntriesForClustering] do not have, so no entry counts as
    new and the result is [0 >= threshold], whatever the entries are. *)
Lemma shouldTrigger_later env w last :
  (∀ n, dbFails env n = false) →
  settingOf (store w) "last_clustering_date" = Some last →
  (shouldTriggerClustering env w).1
  = Ok (jsGe (JInt 0)
          (parseInt (default "10" (settingOf (store w) "cluster_threshold")))).
Proof.
  intros Hdb Hlast. unfold shouldTriggerClustering, tryCatch, getSetting,
    getEntriesForClustering, query.
  rewrite (bind_ok _ _ _ _ _ _ (dbCall_ok _ env w (Hdb _))). cbn [fst snd].
  rewrite (bind_ok _ _ _ _ _ _ (dbCall_ok _ env _ (Hdb _))). cbn [fst snd afterCall store].
  rewrite Hlast.
  rewrite (bind_ok _ _ _ _ _ _ (dbCall_ok _ env _ (Hdb _))). cbn [fst snd afterCall store].
  unfold bind, ask, ret. cbn [fst].
  rewrite filter_none; [done|].
  apply Forall_forall. intros entry _. by destruct (newDate env (JString last)).
Qed.

(** C6: a store with six embedded entries, all created after the last
    clustering (time 100, entries at 101 to 106) and a threshold of 3.
    Six new entries reach the threshold, yet [shouldTriggerClustering]
    returns [false]. *)
Lemma shouldTrigger_misses_new_entries :
  let s := examples.storeOf examples.sixEntries
             [("last_clustering_date", "100"); ("cluster_threshold", "3")] in
  length (createdAfter 100 s) = 6%nat
  ∧ jsGe (JInt (Z.of_nat (length (createdAfter 100 s)))) (parseInt "3") = true
  ∧ (shouldTriggerClustering examples.quietEnv (examples.worldOf s)).1 = Ok false.
Proof. repeat split; vm_compute; reflexivity. Qed.

End Trigger.

(* ================================================================== *)
(** * clusteringService: regeneration *)
(* ================================================================== *)

Section Settings.
Import databaseService embeddingsService clusteringService.




















End Settings.

Section Regenerate.
Import databaseService embeddingsService clusteringService.

Variable env : Env.

(** ** Single calls *)

Lemma query_ok {A} (f : Store → A) w :
  dbFails env (dbCalls w) = false →
  ∃ w', query f env w = (Ok (f (store w)), w')
        ∧ store w' = store w ∧ httpCalls w' = httpCalls w
        ∧ dbCalls w' = S (dbCalls w).
Proof. intros H. unfold query. rewrite dbCall_ok by done. eexists. by split. Qed.

Lemma run_ok (f : Store → Store) w :
  dbFails env (dbCalls w) = false →
  ∃ w', run f env w = (Ok tt, w')
        ∧ store w' = f (store w) ∧ httpCalls w' = httpCalls w
        ∧ dbCalls w' = S (dbCalls w).
Proof. intros H. unfold run. rewrite dbCall_ok by done. eexists. by split. Qed.

Lemma withEntries_same s : withEntries s (journal_entries s) = s.
Proof. by destruct s. Qed.

Lemma resolveNumClusters_ok numClusters w :
  (resolveCost numClusters = 1%nat → dbFails env (dbCalls w) = false) →
  ∃ w', resolveNumClusters numClusters env w
        = (Ok (requestedK numClusters (store w)), w')
        ∧ store w' = store w ∧ httpCalls w' = httpCalls w
        ∧ dbCalls w' = (dbCalls w + resolveCost numClusters)%nat.
Proof.
  intros Hdb. unfold resolveNumClusters, requestedK, resolveCost in *.
  assert (dbFails env (dbCalls w) = false →
          ∃ w', (let* setting := getSetting "cluster_count" in
                 ret match setting with Some s => parseInt s | None => JInt 5 end) env w
                = (Ok match settingOf (store w) "cluster_count" with
                      | Some s => parseInt s | None => JInt 5 end, w')
                ∧ store w' = store w ∧ httpCalls w' = httpCalls w
                ∧ dbCalls w' = (dbCalls w + 1)%nat) as Hset.
  { intros H. unfold getSetting.
    destruct (query_ok (λ s, settingOf s "cluster_count") w H) as (w1 & E1 & S1 & H1 & D1).
    rewrite (bind_ok _ _ _ _ _ _ E1). exists w1. unfold ret. rewrite S1.
    repeat split; [done|lia]. }
  destruct numClusters as [n|]; [|by apply Hset, Hdb].
  destruct (jsTruthy n); [|by apply Hset, Hdb].
  exists w. unfold ret. repeat split. lia.
Qed.

Lemma updateEntryClusters_ok clusterAssignments : ∀ w,
  (∀ n, (dbCalls w ≤ n < dbCalls w + length clusterAssignments)%nat →
        dbFails env n = false) →
  ∃ w', updateEntryClusters clusterAssignments env w = (Ok tt, w')
        ∧ store w' = withEntries (store w)
                       (writeClusters clusterAssignments (journal_entries (store w)))
        ∧ httpCalls w' = httpCalls w
        ∧ dbCalls w' = (dbCalls w + length clusterAssignments)%nat.
Proof.
  unfold updateEntryClusters.
  induction clusterAssignments as [|a l IH]; intros w Hdb;
    cbn [forEach writeClusters fold_left length].
  - exists w. rewrite withEntries_same. unfold ret. repeat split. lia.
  - unfold updateJournalEntry at 1.
    assert (hasUpdates {| u_transcript := None; u_summary := None; u_name := None;
                          u_embedding := None; u_topics := None;
                          u_cluster_id := Some (Some (clusterId a)) |} = true) as ->
      by reflexivity.
    destruct (run_ok (λ s, withEntries s
                ((λ e, if decide (e_id e = entryId a)
                       then applyUpdates
                              {| u_transcript := None; u_summary := None; u_name := None;
                                 u_embedding := None; u_topics := None;
                                 u_cluster_id := Some (Some (clusterId a)) |} e
                       else e) <$> journal_entries s)) w) as (w1 & E1 & S1 & H1 & D1).
    { apply Hdb. cbn. lia. }
    rewrite (bind_ok _ _ _ _ _ _ E1).
    destruct (IH w1) as (w2 & E2 & S2 & H2 & D2).
    { intros n Hn. apply Hdb. cbn. lia. }
    exists w2. split; [done|].
    rewrite S2, S1, H2, H1, D2, D1. split; [|split; [done|cbn; lia]].
    by destruct (store w).
Qed.

(** ** Labelling *)

Lemma sampleText_returns entry : sampleText entry ≠ Diverge.
Proof.
  unfold sampleText. destruct entry as [e|]; [|done].
  destruct (e_summary e) as [s|], (e_transcript e); try done; by case_decide.
Qed.

Lemma formatSamples_returns entries : ∀ idx, formatSamples idx entries ≠ Diverge.
Proof.
  induction entries as [|x l IH]; intros idx; [done|]. cbn [formatSamples].
  pose proof (sampleText_returns x). specialize (IH (S idx)).
  destruct (sampleText x); [|done|done]. by destruct (formatSamples (S idx) l).
Qed.

(** [labelCluster] never throws and never writes: whatever fails inside,
    the label is the placeholder.  In particular the label is the
    placeholder when the request it makes is refused. *)
Lemma labelCluster_total sampleEntries w :
  ∃ label w',
    labelCluster sampleEntries env w = (Ok label, w')
    ∧ store w' = store w
    ∧ labelFrom env label
    ∧ ((∀ prompt, chatReply env (httpCalls w) prompt = None) →
       label = "Untitled Topic").
Proof.
  unfold labelCluster, tryCatch, bind, getSetting, query, dbCall, lift, httpCall,
    throw, ret, log, labelFrom.
  destruct (dbFails env (dbCalls w)); cbn [fst snd afterCall store httpCalls].
  { eexists _, _. split; [done|]. split; [done|]. split; [by left|done]. }
  destruct (settingOf (store w) "openai_api_key");
    [|eexists _, _; split; [done|]; split; [done|]; split; [by left|done]].
  destruct (formatSamples 0 (take 3 sampleEntries)) as [lines|e|] eqn:F;
    [|eexists _, _; split; [done|]; split; [done|]; split; [by left|done]
     |by apply formatSamples_returns in F].
  change (httpCalls (afterCall w (store w))) with (httpCalls w).
  match goal with
  | |- context [chatReply env (httpCalls w) ?p] =>
    destruct (chatReply env (httpCalls w) p) as [content|] eqn:E
  end.
  - eexists _, _. split; [done|]. split; [done|]. split; [right; eauto|].
    intros H. by rewrite H in E.
  - eexists _, _. split; [done|]. split; [done|]. split; [by left|done].
Qed.



(** ** A run without database failure *)

Section NoFailure.
Hypothesis Hdb : ∀ n, dbFails env n = false.

Lemma mapAll_get_ok ids : ∀ w,
  ∃ w' samples,
    mapAll ids getJournalEntry env w = (Ok samples, w')
    ∧ store w' = store w ∧ httpCalls w' = httpCalls w.
Proof.
  induction ids as [|i ids IH]; intros w; cbn [mapAll].
  - by exists w, [].
  - unfold getJournalEntry at 1.
    destruct (query_ok (λ s, head (filter (λ e, e_id e = i) (journal_entries s))) w (Hdb _))
      as (w1 & E1 & S1 & H1 & _).
    rewrite (bind_ok _ _ _ _ _ _ E1).
    destruct (IH w1) as (w2 & samples & E2 & S2 & H2).
    rewrite (bind_ok _ _ _ _ _ _ E2). eexists _, _. split; [done|]. split; congruence.
Qed.

Lemma createClusterFolder_ok g w :
  ∃ w', createClusterFolder g env w = (Ok tt, w')
        ∧ if decide (2 ≤ length g.2)%nat
          then ∃ label, labelFrom env label
                 ∧ store w' = insertFolder label "cluster" None (Some g.1) None (store w)
          else store w' = store w.
Proof.
  destruct g as [c ids]. unfold createClusterFolder. cbn [fst snd].
  destruct (Nat.ltb_spec (length ids) 2) as [Hlt|Hge].
  - exists w. split; [done|]. by rewrite decide_False by lia.
  - destruct (decide (2 ≤ length ids)%nat) as [_|?]; [|lia].
    destruct (mapAll_get_ok (take 3 ids) w) as (w1 & samples & E1 & S1 & H1).
    rewrite (bind_ok _ _ _ _ _ _ E1).
    destruct (labelCluster_total samples w1) as (label & w2 & E2 & S2 & L2 & _).
    rewrite (bind_ok _ _ _ _ _ _ E2).
    unfold createSmartFolder. rewrite (bind_ok _ _ _ _ _ _ (dbCall_ok _ env w2 (Hdb _))).
    eexists. split; [done|]. exists label. split; [done|].
    cbn [logged store afterCall snd]. by rewrite S2, S1.
Qed.

Lemma createLoop_ok groups : ∀ w,
  ∃ w' labels,
    forEach groups createClusterFolder env w = (Ok tt, w')
    ∧ length labels = length (survivors groups)
    ∧ Forall (labelFrom env) labels
    ∧ store w' = addClusterFolders (zip labels (survivors groups).*1) (store w).
Proof.
  unfold survivors. induction groups as [|g groups IH]; intros w; cbn [forEach].
  - by exists w, [].
  - destruct (createClusterFolder_ok g w) as (w1 & E1 & S1).
    rewrite (bind_ok _ _ _ _ _ _ E1).
    destruct (IH w1) as (w2 & labels & E2 & Hlen & Hlab & S2).
    rewrite filter_cons. case_decide as Hg.
    + destruct S1 as (label & Hl & S1). exists w2, (label :: labels).
      split; [done|]. split; [cbn; by rewrite Hlen|]. split; [by constructor|].
      rewrite S2, S1. done.
    + exists w2, labels. split; [done|]. split; [done|]. split; [done|].
      by rewrite S2, S1.
Qed.

Lemma deleteLoop_ok fs : ∀ w,
  ∃ w',
    forEach fs (λ folder,
        if decide (folder_type folder = "cluster")
        then deleteSmartFolder (folder_id folder) else ret tt) env w
    = (Ok tt, w')
    ∧ store w' = dropClusterFolders fs (store w).
Proof.
  unfold dropClusterFolders. induction fs as [|f fs IH]; intros w; cbn [forEach fold_left].
  - by exists w.
  - case_decide as Hf.
    + unfold deleteSmartFolder.
      destruct (run_ok (deleteFolderRow (folder_id f)) w (Hdb _)) as (w1 & E1 & S1 & _).
      destruct (run_ok (deleteFolderLinks (folder_id f)) w1 (Hdb _)) as (w2 & E2 & S2 & _).
      rewrite (bind_ok _ _ _ _ _ _ (eq_trans (bind_ok _ _ _ _ _ _ E1) E2)).
      destruct (IH w2) as (w3 & E3 & S3). exists w3. split; [done|].
      by rewrite S3, S2, S1.
    + rewrite (bind_ok _ _ _ _ _ _ (eq_refl : ret tt env w = (Ok tt, w))).
      apply IH.
Qed.

(** The whole run: it returns, and the store it leaves is the old one
    with the assignments written, the old cluster folders deleted, one
    folder per group of at least two entries added, and the timestamp set. *)
Lemma regenerate_run numClusters w clusterAssignments :
  (3 ≤ length (clusterRows (store w)))%nat →
  clusterEmbeddings (clusterRows (store w))
    (jsMin (requestedK numClusters (store w))
       (JInt (Z.of_nat (length (clusterRows (store w)) / 2))))
    10 (randomDraws env) = Ok clusterAssignments →
  ∃ w' labels,
    regenerateClusters numClusters env w = (Ok tt, w')
    ∧ length labels = length (survivors (groupByCluster clusterAssignments))
    ∧ Forall (labelFrom env) labels
    ∧ store w'
      = putSetting "last_clustering_date" (nowISO env)
          (addClusterFolders
             (zip labels (survivors (groupByCluster clusterAssignments)).*1)
             (dropClusterFolders (reverse (smart_folders (store w)))
                (withEntries (store w)
                   (writeClusters clusterAssignments (journal_entries (store w)))))).
Proof.
  intros HN Hengine. unfold regenerateClusters, tryCatch.
  rewrite (bind_ok _ _ _ _ _ _ (eq_refl : log _ env w = (Ok tt, logged w _))).
  destruct (resolveNumClusters_ok numClusters (logged w "Starting cluster regeneration...")
              (λ _, Hdb _)) as (w1 & E1 & S1 & _).
  cbn [logged store] in E1, S1. rewrite (bind_ok _ _ _ _ _ _ E1).
  unfold getEntriesForClustering.
  destruct (query_ok clusterRows w1 (Hdb _)) as (w2 & E2 & S2 & _).
  rewrite (bind_ok _ _ _ _ _ _ E2). rewrite S1.
  destruct (Nat.ltb_spec (length (clusterRows (store w))) 3) as [?|_]; [lia|].
  rewrite (bind_ok _ _ _ _ _ _ (eq_refl : log _ env w2 = (Ok tt, logged w2 _))).
  rewrite (bind_ok _ _ _ _ _ _ (eq_refl : ask env _ = (Ok env, _))).
  unfold lift at 1. unfold bind at 1. rewrite Hengine.
  match goal with |- context [bind (updateEntryClusters _) _ env ?w0] =>
    destruct (updateEntryClusters_ok clusterAssignments w0 (λ _ _, Hdb _))
      as (w3 & E3 & S3 & _) end.
  cbn [logged store] in S3. rewrite (bind_ok _ _ _ _ _ _ E3).
  unfold getSmartFolders.
  destruct (query_ok (λ s, reverse (smart_folders s)) w3 (Hdb _)) as (w4 & E4 & S4 & _).
  rewrite (bind_ok _ _ _ _ _ _ E4).
  destruct (deleteLoop_ok (reverse (smart_folders (store w3))) w4) as (w5 & E5 & S5).
  rewrite (bind_ok _ _ _ _ _ _ E5).
  rewrite (bind_ok _ _ _ _ _ _ (eq_refl : log _ env w5 = (Ok tt, logged w5 _))).
  match goal with |- context [bind (forEach _ createClusterFolder) _ env ?w0] =>
    destruct (createLoop_ok (groupByCluster clusterAssignments) w0)
      as (w6 & labels & E6 & Hlen & Hlab & S6) end.
  cbn [logged store] in S6. rewrite (bind_ok _ _ _ _ _ _ E6).
  unfold setSetting.
  destruct (run_ok (putSetting "last_clustering_date" (nowISO env)) w6 (Hdb _))
    as (w7 & E7 & S7 & _).
  rewrite (bind_ok _ _ _ _ _ _ E7). unfold log.
  eexists _, labels. split; [done|]. split; [done|]. split; [done|].
  cbn [logged store]. rewrite S7, S6, S5, S4, S3, S2, S1. done.
Qed.

Lemma journal_entries_addClusterFolders labelled : ∀ s,
  journal_entries (addClusterFolders labelled s) = journal_entries s
  ∧ settings (addClusterFolders labelled s) = settings s.
Proof.
  unfold addClusterFolders. induction labelled as [|p l IH]; intros s; [done|].
  cbn [fold_left]. destruct (IH (insertFolder p.1 "cluster" None (Some p.2) None s)) as [-> ->].
  done.
Qed.

Lemma journal_entries_dropClusterFolders fs : ∀ s,
  journal_entries (dropClusterFolders fs s) = journal_entries s
  ∧ settings (dropClusterFolders fs s) = settings s
  ∧ next_folder_id (dropClusterFolders fs s) = next_folder_id s.
Proof.
  unfold dropClusterFolders. induction fs as [|f fs IH]; intros s; [done|].
  cbn [fold_left]. case_decide; [|apply IH].
  destruct (IH (deleteFolderLinks (folder_id f) (deleteFolderRow (folder_id f) s)))
    as (-> & -> & ->). done.
Qed.

(** The run when the engine does not return: nothing is written. *)
Lemma regenerate_engine_fails numClusters w :
  (3 ≤ length (clusterRows (store w)))%nat →
  (∀ a, clusterEmbeddings (clusterRows (store w))
          (jsMin (requestedK numClusters (store w))
             (JInt (Z.of_nat (length (clusterRows (store w)) / 2))))
          10 (randomDraws env) ≠ Ok a) →
  (regenerateClusters numClusters env w).1
  = match clusterEmbeddings (clusterRows (store w))
            (jsMin (requestedK numClusters (store w))
               (JInt (Z.of_nat (length (clusterRows (store w)) / 2))))
            10 (randomDraws env) with
    | Ok _ => Ok tt
    | Throw e => Throw e
    | Diverge => Diverge
    end
  ∧ store (regenerateClusters numClusters env w).2 = store w.
Proof.
  intros HN Hengine. unfold regenerateClusters, tryCatch.
  rewrite (bind_ok _ _ _ _ _ _ (eq_refl : log _ env w = (Ok tt, logged w _))).
  destruct (resolveNumClusters_ok numClusters (logged w "Starting cluster regeneration...")
              (λ _, Hdb _)) as (w1 & E1 & S1 & _).
  cbn [logged store] in E1, S1. rewrite (bind_ok _ _ _ _ _ _ E1).
  unfold getEntriesForClustering.
  destruct (query_ok clusterRows w1 (Hdb _)) as (w2 & E2 & S2 & _).
  rewrite (bind_ok _ _ _ _ _ _ E2). rewrite S1.
  destruct (Nat.ltb_spec (length (clusterRows (store w))) 3) as [?|_]; [lia|].
  rewrite (bind_ok _ _ _ _ _ _ (eq_refl : log _ env w2 = (Ok tt, logged w2 _))).
  rewrite (bind_ok _ _ _ _ _ _ (eq_refl : ask env _ = (Ok env, _))).
  unfold lift at 1. unfold bind at 1.
  destruct (clusterEmbeddings _ _ _ _) as [a|e|]; [by destruct (Hengine a)| |].
  - cbn. by rewrite S2, S1.
  - cbn. by rewrite S2, S1.
Qed.

(** The run on fewer than three embedded entries. *)
Lemma regenerate_too_few numClusters w :
  (length (clusterRows (store w)) < 3)%nat →
  (regenerateClusters numClusters env w).1 = Ok tt
  ∧ store (regenerateClusters numClusters env w).2 = store w.
Proof.
  intros HN. unfold regenerateClusters, tryCatch.
  rewrite (bind_ok _ _ _ _ _ _ (eq_refl : log _ env w = (Ok tt, logged w _))).
  destruct (resolveNumClusters_ok numClusters (logged w "Starting cluster regeneration...")
              (λ _, Hdb _)) as (w1 & E1 & S1 & _).
  cbn [logged store] in E1, S1. rewrite (bind_ok _ _ _ _ _ _ E1).
  unfold getEntriesForClustering.
  destruct (query_ok clusterRows w1 (Hdb _)) as (w2 & E2 & S2 & _).
  rewrite (bind_ok _ _ _ _ _ _ E2). rewrite S1.
  destruct (Nat.ltb_spec (length (clusterRows (store w))) 3) as [_|?]; [|lia].
  cbn. by rewrite S2, S1.
Qed.


(** ** The label of each folder *)




Lemma labelPrompt_insertFolder name type rules c color s entryIds :
  labelPrompt (insertFolder name type rules c color s) entryIds = labelPrompt s entryIds.
Proof. reflexivity. Qed.









End NoFailure.

(** ** Runs with a database failure *)




End Regenerate.

Section RegenerateSpec.
Import databaseService embeddingsService clusteringService.

(** C7: no database call failing.  With fewer than three embedded entries
    [regenerateClusters] returns normally and the store is the one it
    found: no [cluster_id] is written, no folder created or deleted,
    [last_clustering_date] is untouched.  With three or more, the
    assignments it writes to the entries are those [clusterEmbeddings]
    returns for [k = min(requestedK, floor(N / 2))], where [requestedK] is
    the argument, or the [cluster_count] setting, or 5; if the engine does
    not return for this [k], neither does the run, and nothing is written. *)
Theorem regenerateClusters_floor (env : Env) (numClusters : option JsInt) (w : World) :
  (∀ n, dbFails env n = false) →
  let entries := clusterRows (store w) in
  let N := length entries in
  let k := jsMin (requestedK numClusters (store w)) (JInt (Z.of_nat (N / 2))) in
  let result := regenerateClusters numClusters env w in
  ((N < 3)%nat → result.1 = Ok tt ∧ store result.2 = store w)
  ∧ ((3 ≤ N)%nat →
     match clusterEmbeddings entries k 10 (randomDraws env) with
     | Ok clusterAssignments =>
       result.1 = Ok tt
       ∧ journal_entries (store result.2)
         = writeClusters clusterAssignments (journal_entries (store w))
     | Throw e => result.1 = Throw e ∧ store result.2 = store w
     | Diverge => result.1 = Diverge ∧ store result.2 = store w
     end).
Proof.
  intros Hdb entries N k result. split.
  - intros HN. by apply regenerate_too_few.
  - intros HN. subst entries N k result.
    destruct (clusterEmbeddings _ _ _ _) as [asg|e|] eqn:E.
    + destruct (regenerate_run env Hdb numClusters w asg HN E) as (w' & labels & R & _ & _ & S).
      rewrite R. cbn [fst snd]. split; [done|]. rewrite S. cbn [putSetting journal_entries].
      destruct (journal_entries_addClusterFolders
                  (zip labels (survivors (groupByCluster asg)).*1)
                  (dropClusterFolders (reverse (smart_folders (store w)))
                     (withEntries (store w) (writeClusters asg (journal_entries (store w))))))
        as [-> _].
      destruct (journal_entries_dropClusterFolders (reverse (smart_folders (store w)))
                  (withEntries (store w) (writeClusters asg (journal_entries (store w)))))
        as [-> _].
      done.
    + destruct (regenerate_engine_fails env Hdb numClusters w HN) as [R S].
      { intros a. by rewrite E. }
      rewrite E in R. done.
    + destruct (regenerate_engine_fails env Hdb numClusters w HN) as [R S].
      { intros a. by rewrite E. }
      rewrite E in R. done.
Qed.

(** Witness for [regenerateClusters_floor]: six embedded entries, no
    argument and no setting, so [requestedK] is 5 and [k] is 3. *)
Lemma regenerateClusters_floor_witness :
  let env := examples.quietEnv in
  let w := examples.worldOf (examples.storeOf examples.sixEntries []) in
  let entries := clusterRows (store w) in
  let N := length entries in
  let k := jsMin (requestedK None (store w)) (JInt (Z.of_nat (N / 2))) in
  let result := regenerateClusters None env w in
  ((N < 3)%nat → result.1 = Ok tt ∧ store result.2 = store w)
  ∧ ((3 ≤ N)%nat →
     match clusterEmbeddings entries k 10 (randomDraws env) with
     | Ok clusterAssignments =>
       result.1 = Ok tt
       ∧ journal_entries (store result.2)
         = writeClusters clusterAssignments (journal_entries (store w))
     | Throw e => result.1 = Throw e ∧ store result.2 = store w
     | Diverge => result.1 = Diverge ∧ store result.2 = store w
     end).
Proof.
  apply (regenerateClusters_floor examples.quietEnv None
           (examples.worldOf (examples.storeOf examples.sixEntries []))).
  intros n. reflexivity.
Defined.



(** The run of the witness: the first group's labelling request is
    refused, its folder is created as "Untitled Topic", and the second
    group gets its folder with the label answered for it. *)
Lemma regenerate_one_label_refused :
  let result :=
    regenerateClusters None examples.firstLabelFails
      (examples.worldOf
         (examples.storeOf examples.sixEntries [("openai_api_key", "sk")])) in
  result.1 = Ok tt
  ∧ smart_folders (store result.2)
    = [clusterFolder 1 "Untitled Topic" 1; clusterFolder 2 "Health" 2]
  ∧ settings (store result.2) !! "last_clustering_date"
    = Some "2024-06-01T00:00:00.000Z".
Proof. repeat split; vm_compute; reflexivity. Qed.

(** The run of the same store when database call 8, the read of the
    folders after the six writes, fails: it throws, the six entries keep
    the cluster ids just written and [last_clustering_date] is not set. *)
Lemma regenerate_failure_after_writes :
  let result :=
    regenerateClusters None (examples.failsAt 8)
      (examples.worldOf
         (examples.storeOf examples.sixEntries [("openai_api_key", "sk")])) in
  result.1 = Throw (Error "database error")
  ∧ e_cluster_id <$> journal_entries (store result.2)
    = [Some 0; Some 1; Some 1; Some 2; Some 2; Some 2]%nat
  ∧ smart_folders (store result.2) = []
  ∧ settings (store result.2) !! "last_clustering_date" = None.
Proof. repeat split; vm_compute; reflexivity. Qed.

End RegenerateSpec.

(* ================================================================== *)
(** * searchService: the legs and the modes *)
(* ================================================================== *)

Section SearchRuns.
Import databaseService embeddingsService searchService.

Lemma reads_ret {A} (a : A) : readsOnly (ret a).
Proof. done. Qed.

Lemma reads_throw {A} e : readsOnly (@throw A e).
Proof. done. Qed.

Lemma reads_log msg : readsOnly (log msg).
Proof. done. Qed.

Lemma reads_bind {A B} (m : M A) (k : A → M B) :
  readsOnly m → (∀ a, readsOnly (k a)) → readsOnly (bind m k).
Proof.
  intros Hm Hk env w. unfold bind. destruct (Hm env w) as [H1 H2].
  destruct (m env w) as [[a|e|] w']; [|done|done].
  rewrite <- H2. apply Hk.
Qed.

Lemma reads_tryCatch {A} (m : M A) (h : Err → M A) :
  readsOnly m → (∀ e, readsOnly (h e)) → readsOnly (tryCatch m h).
Proof.
  intros Hm Hh env w. unfold tryCatch. destruct (Hm env w) as [H1 H2].
  destruct (m env w) as [[a|e|] w']; [done| |done].
  rewrite <- H2. apply Hh.
Qed.

Lemma reads_query {A} (f : Store → A) : readsOnly (query f).
Proof.
  intros env w. unfold query, dbCall. by destruct (dbFails env (dbCalls w)).
Qed.

Lemma reads_httpCall {A} (reply : Env → nat → option A) : readsOnly (httpCall reply).
Proof. intros env w. unfold httpCall. by destruct (reply env (httpCalls w)). Qed.

Lemma reads_generateEmbedding text : readsOnly (generateEmbedding text).
Proof.
  apply reads_tryCatch.
  - apply reads_bind; [apply reads_query|]. intros [key|].
    + apply reads_httpCall.
    + apply reads_throw.
  - intros e. apply reads_bind; [apply reads_log|]. intros _. apply reads_throw.
Qed.

(** A [try] whose handler returns a value always returns one. *)
Lemma tryCatch_returns {A} (m : M A) (h : Err → M A) env w :
  readsOnly m → (∀ e w', ∃ a, (h e env w').1 = Ok a) →
  ∃ a, (tryCatch m h env w).1 = Ok a.
Proof.
  intros Hm Hh. unfold tryCatch. destruct (Hm env w) as [H1 _].
  destruct (m env w) as [[a|e|] w']; [by exists a|apply Hh|done].
Qed.

Lemma reads_performKeywordSearch query : readsOnly (performKeywordSearch query).
Proof.
  unfold performKeywordSearch. destruct (isBlank query); [apply reads_ret|].
  apply reads_tryCatch.
  - apply reads_bind; [apply reads_query|]. intros rows. apply reads_ret.
  - intros e. apply reads_bind; [apply reads_log|]. intros _. apply reads_ret.
Qed.

Lemma reads_performSemanticSearch query queryEmbedding :
  readsOnly (performSemanticSearch query queryEmbedding).
Proof.
  unfold performSemanticSearch. destruct (isBlank query); [apply reads_ret|].
  apply reads_tryCatch.
  - apply reads_bind.
    + destruct queryEmbedding; [apply reads_ret|apply reads_generateEmbedding].
    + intros v. apply reads_bind; [apply reads_query|]. intros rows.
      destruct (length rows =? 0)%nat; apply reads_ret.
  - intros e. apply reads_bind; [apply reads_log|]. intros _. apply reads_ret.
Qed.

(** Neither leg throws: each returns a list, whatever fails inside. *)
Lemma performKeywordSearch_returns query env w :
  ∃ results w', performKeywordSearch query env w = (Ok results, w')
                ∧ store w' = store w.
Proof.
  destruct (reads_performKeywordSearch query env w) as [_ Hs].
  assert (∃ a, (performKeywordSearch query env w).1 = Ok a) as [a Ha].
  { unfold performKeywordSearch. destruct (isBlank query); [by eexists|].
    apply tryCatch_returns.
    - apply reads_bind; [apply reads_query|]. intros rows. apply reads_ret.
    - intros e w'. by eexists. }
  destruct (performKeywordSearch query env w) as [r w'].
  exists a, w'. cbn in *. by subst.
Qed.

Lemma performSemanticSearch_returns query queryEmbedding env w :
  ∃ results w', performSemanticSearch query queryEmbedding env w = (Ok results, w')
                ∧ store w' = store w.
Proof.
  destruct (reads_performSemanticSearch query queryEmbedding env w) as [_ Hs].
  assert (∃ a, (performSemanticSearch query queryEmbedding env w).1 = Ok a)
    as [a Ha].
  { unfold performSemanticSearch. destruct (isBlank query); [by eexists|].
    apply tryCatch_returns.
    - apply reads_bind.
      + destruct queryEmbedding; [apply reads_ret|apply reads_generateEmbedding].
      + intros v. apply reads_bind; [apply reads_query|]. intros rows.
        destruct (length rows =? 0)%nat; apply reads_ret.
    - intros e w'. by eexists. }
  destruct (performSemanticSearch query queryEmbedding env w) as [r w'].
  exists a, w'. cbn in *. by subst.
Qed.

(** The hybrid branch of [searchEntries]. *)
Lemma searchEntries_hybrid query options env w :
  isBlank query = false →
  mode (mergeConfig options) ≠ JString SEMANTIC →
  mode (mergeConfig options) ≠ JString KEYWORD →
  ∃ semanticResults keywordResults w1 w2,
    performSemanticSearch query None env w = (Ok semanticResults, w1)
    ∧ performKeywordSearch query env w1 = (Ok keywordResults, w2)
    ∧ store w1 = store w
    ∧ searchEntries query options env w
      = (Ok (finish (mergeConfig options)
               (combineResults semanticResults keywordResults
                  (semanticWeight (mergeConfig options))
                  (keywordWeight (mergeConfig options)))), w2).
Proof.
  intros Hq Hs Hk.
  destruct (performSemanticSearch_returns query None env w) as (S & w1 & HS & Hw1).
  destruct (performKeywordSearch_returns query env w1) as (K & w2 & HK & Hw2).
  exists S, K, w1, w2. split; [done|]. split; [done|]. split; [done|].
  unfold searchEntries. rewrite Hq.
  destruct (decide _) as [?|_]; [done|]. destruct (decide _) as [?|_]; [done|].
  unfold tryCatch, bind. rewrite HS, HK. reflexivity.
Qed.

(** The semantic branch of [searchEntries]. *)
Lemma searchEntries_semantic query options env w :
  isBlank query = false →
  mode (mergeConfig options) = JString SEMANTIC →
  ∃ semanticResults w1,
    performSemanticSearch query None env w = (Ok semanticResults, w1)
    ∧ searchEntries query options env w
      = (Ok (finish (mergeConfig options) (singleLeg semanticResults)), w1).
Proof.
  intros Hq Hs.
  destruct (performSemanticSearch_returns query None env w) as (S & w1 & HS & Hw1).
  exists S, w1. split; [done|].
  unfold searchEntries. rewrite Hq.
  destruct (decide _) as [_|?]; [|done].
  unfold tryCatch, bind. rewrite HS. reflexivity.
Qed.

(** A failure of the provider leaves the semantic leg with the empty list. *)
Lemma semantic_leg_swallows query env w e :
  isBlank query = false →
  (generateEmbedding query env w).1 = Throw e →
  performSemanticSearch query None env w
  = (Ok [], logged (generateEmbedding query env w).2 "Semantic search error:").
Proof.
  intros Hq He. unfold performSemanticSearch. rewrite Hq.
  unfold tryCatch at 1. unfold bind at 1.
  destruct (generateEmbedding query env w) as [r w']. cbn in He. subst r.
  reflexivity.
Qed.

End SearchRuns.

Section SearchModes.
Import databaseService embeddingsService searchService.

(** C10.  For a non-blank query and options whose [mode] is neither
    ['semantic'] nor ['keyword'], [searchEntries] does what it does with
    the mode ['hybrid'] and otherwise the same options: it runs the
    semantic and the keyword leg, merges their results with the configured
    weights, filters and cuts; and it returns a list, it does not throw. *)
Theorem unknown_mode_is_hybrid (query : string) (options : Options)
    (m : JsValue) (env : Env) (w : World) :
  isBlank query = false →
  m ≠ JString SEMANTIC →
  m ≠ JString KEYWORD →
  searchEntries query (withMode options m) env w
  = searchEntries query (withMode options (JString HYBRID)) env w
  ∧ ∃ semanticResults keywordResults w1 w2,
      performSemanticSearch query None env w = (Ok semanticResults, w1)
      ∧ performKeywordSearch query env w1 = (Ok keywordResults, w2)
      ∧ searchEntries query (withMode options m) env w
        = (Ok (finish (mergeConfig options)
                 (combineResults semanticResults keywordResults
                    (semanticWeight (mergeConfig options))
                    (keywordWeight (mergeConfig options)))), w2).
Proof.
  intros Hq Hs Hk.
  destruct (searchEntries_hybrid query (withMode options m) env w Hq Hs Hk)
    as (S & K & w1 & w2 & HS & HK & _ & Hm).
  destruct (searchEntries_hybrid query (withMode options (JString HYBRID)) env w Hq)
    as (S' & K' & w1' & w2' & HS' & HK' & _ & Hh); [done|done|].
  rewrite HS in HS'. injection HS' as <- <-.
  rewrite HK in HK'. injection HK' as <- <-.
  split.
  - rewrite Hm, Hh. reflexivity.
  - exists S, K, w1, w2. split; [done|]. split; [done|]. exact Hm.
Qed.

Lemma unknown_mode_is_hybrid_witness :
  searchEntries "work" (withMode noOptions (JString "fuzzy")) examples.quietEnv
    examples.searchWorld
  = searchEntries "work" (withMode noOptions (JString HYBRID)) examples.quietEnv
      examples.searchWorld
  ∧ ∃ semanticResults keywordResults w1 w2,
      performSemanticSearch "work" None examples.quietEnv examples.searchWorld
      = (Ok semanticResults, w1)
      ∧ performKeywordSearch "work" examples.quietEnv w1 = (Ok keywordResults, w2)
      ∧ searchEntries "work" (withMode noOptions (JString "fuzzy"))
          examples.quietEnv examples.searchWorld
        = (Ok (finish (mergeConfig noOptions)
                 (combineResults semanticResults keywordResults
                    (semanticWeight (mergeConfig noOptions))
                    (keywordWeight (mergeConfig noOptions)))), w2).
Proof.
  apply (unknown_mode_is_hybrid "work" noOptions (JString "fuzzy")
           examples.quietEnv examples.searchWorld).
  - reflexivity.
  - discriminate.
  - discriminate.
Defined.

(** C2, as the code has it.  For a non-blank query, when computing the
    query embedding fails, the semantic leg catches the failure, writes it
    to the console and returns the empty list; a search in the mode
    ['semantic'] then returns the empty list and does not throw, and a
    search in the hybrid mode returns what the keyword leg alone gives. *)
Theorem semantic_failure_is_swallowed (query : string) (env : Env) (w : World)
    (e : Err) :
  isBlank query = false →
  (generateEmbedding query env w).1 = Throw e →
  let w1 := logged (generateEmbedding query env w).2 "Semantic search error:" in
  performSemanticSearch query None env w = (Ok [], w1)
  ∧ (∀ options, mode (mergeConfig options) = JString SEMANTIC →
       searchEntries query options env w = (Ok [], w1))
  ∧ (∀ options,
       mode (mergeConfig options) ≠ JString SEMANTIC →
       mode (mergeConfig options) ≠ JString KEYWORD →
       ∃ keywordResults w2,
         performKeywordSearch query env w1 = (Ok keywordResults, w2)
         ∧ searchEntries query options env w
           = (Ok (finish (mergeConfig options)
                    (combineResults [] keywordResults
                       (semanticWeight (mergeConfig options))
                       (keywordWeight (mergeConfig options)))), w2)).
Proof.
  intros Hq He w1.
  pose proof (semantic_leg_swallows query env w e Hq He) as Hleg.
  split; [exact Hleg|]. split.
  - intros options Hm.
    destruct (searchEntries_semantic query options env w Hq Hm)
      as (S & w1' & HS & Hr).
    rewrite Hleg in HS. injection HS as <- <-. rewrite Hr.
    unfold finish, singleLeg. cbn [fmap list_fmap].
    rewrite filter_nil. unfold slice0.
    destruct (maxResults (mergeConfig options)) as [|z]; cbn; [done|].
    rewrite !take_nil. by repeat case_match.
  - intros options Hs Hk.
    destruct (searchEntries_hybrid query options env w Hq Hs Hk)
      as (S & K & w1' & w2 & HS & HK & _ & Hr).
    rewrite Hleg in HS. injection HS as <- <-.
    exists K, w2. split; [done|]. exact Hr.
Qed.

Lemma semantic_failure_is_swallowed_witness :
  let w1 := logged (generateEmbedding "work" examples.deadEnv examples.searchWorld).2
              "Semantic search error:" in
  performSemanticSearch "work" None examples.deadEnv examples.searchWorld = (Ok [], w1)
  ∧ (∀ options, mode (mergeConfig options) = JString SEMANTIC →
       searchEntries "work" options examples.deadEnv examples.searchWorld = (Ok [], w1))
  ∧ (∀ options,
       mode (mergeConfig options) ≠ JString SEMANTIC →
       mode (mergeConfig options) ≠ JString KEYWORD →
       ∃ keywordResults w2,
         performKeywordSearch "work" examples.deadEnv w1 = (Ok keywordResults, w2)
         ∧ searchEntries "work" options examples.deadEnv examples.searchWorld
           = (Ok (finish (mergeConfig options)
                    (combineResults [] keywordResults
                       (semanticWeight (mergeConfig options))
                       (keywordWeight (mergeConfig options)))), w2)).
Proof.
  apply (semantic_failure_is_swallowed "work" examples.deadEnv examples.searchWorld
           (Error "request failed")).
  - reflexivity.
  - reflexivity.
Defined.

(** C2 as stated fails: with a provider that refuses every request, a
    search for ["work"] in the mode ['semantic'] returns the empty list;
    no error reaches the caller. *)
Lemma semantic_failure_counterexample :
  isBlank "work" = false
  ∧ (generateEmbedding "work" examples.deadEnv examples.searchWorld).1
    = Throw (Error "request failed")
  ∧ (searchEntries "work" (withMode noOptions (JString SEMANTIC))
       examples.deadEnv examples.searchWorld).1 = Ok []
  ∧ ¬ ∃ e, (searchEntries "work" (withMode noOptions (JString SEMANTIC))
              examples.deadEnv examples.searchWorld).1 = Throw e.
Proof.
  split; [reflexivity|]. split; [reflexivity|].
  assert ((searchEntries "work" (withMode noOptions (JString SEMANTIC))
             examples.deadEnv examples.searchWorld).1 = Ok []) as H
    by (vm_compute; reflexivity).
  split; [exact H|]. intros [e He]. rewrite H in He. discriminate.
Qed.

End SearchModes.

(* ================================================================== *)
(** * searchService: sorting *)
(* ================================================================== *)

Section StableSort.
Context {A : Type} (after : A → A → bool).

Lemma insertSorted_perm x l : insertSorted after x l ≡ₚ x :: l.
Proof.
  induction l as [|y l IH]; [done|]. cbn. destruct (after x y); [|done].
  rewrite IH. apply perm_swap.
Qed.

Lemma stableSort_perm l : stableSort after l ≡ₚ l.
Proof.
  induction l as [|x l IH]; [done|]. cbn. rewrite insertSorted_perm.
  by constructor.
Qed.

(** The sort puts [x] before [y] only if [R x y], when on the elements
    sorted (those with [P]) [after] decides [R] and [R] is transitive. *)
Context (P : A → Prop) (R : A → A → Prop).
Hypothesis after_true : ∀ x y, P x → P y → after x y = true → R y x.
Hypothesis after_false : ∀ x y, P x → P y → after x y = false → R x y.
Hypothesis R_trans : ∀ x y z, P x → P y → P z → R x y → R y z → R x z.

Lemma insertSorted_sorted x l :
  P x → Forall P l → StronglySorted R l → StronglySorted R (insertSorted after x l).
Proof.
  intros Hx Hl Hs. induction Hs as [|y l Hs IH Hy]; cbn.
  - by repeat constructor.
  - apply Forall_cons_1 in Hl as [Py Pl]. destruct (after x y) eqn:E.
    + constructor; [by apply IH|].
      rewrite insertSorted_perm. constructor; [|done]. by apply after_true.
    + assert (R x y) as Rxy by by apply after_false.
      constructor; [by constructor|]. constructor; [done|].
      rewrite Forall_forall in Hy, Pl. apply Forall_forall. intros z Hz.
      apply (R_trans x y z); auto.
Qed.

Lemma stableSort_sorted l : Forall P l → StronglySorted R (stableSort after l).
Proof.
  induction l as [|x l IH]; intros Hl; cbn; [constructor|].
  apply Forall_cons_1 in Hl as [Px Pl]. apply insertSorted_sorted; auto.
  pose proof (stableSort_perm l) as Hp. unfold stableSort in Hp. by rewrite Hp.
Qed.

End StableSort.

Section SortedLists.
Context {A : Type} (R : A → A → Prop).

Lemma sorted_filter (Q : A → Prop) `{!∀ x, Decision (Q x)} l :
  StronglySorted R l → StronglySorted R (filter Q l).
Proof.
  induction 1 as [|x l Hs IH Hx]; [constructor|].
  rewrite filter_cons. destruct (decide (Q x)); [|done].
  constructor; [done|]. rewrite Forall_forall in Hx. apply Forall_forall.
  intros y [_ Hy]%list_elem_of_filter. auto.
Qed.

Lemma sorted_take n l : StronglySorted R l → StronglySorted R (take n l).
Proof.
  intros Hs. revert n. induction Hs as [|x l Hs IH Hx]; intros [|n]; cbn;
    try constructor; [apply IH|]. by apply Forall_take.
Qed.

Lemma sorted_lookup l i j a b :
  StronglySorted R l → l !! i = Some a → l !! j = Some b → (i < j)%nat → R a b.
Proof.
  intros Hs. revert i j. induction Hs as [|x l Hs IH Hx]; intros i j Hi Hj Hij.
  - done.
  - destruct j as [|j]; [lia|]. cbn in Hj. destruct i as [|i].
    + cbn in Hi. injection Hi as ->. rewrite Forall_forall in Hx.
      apply Hx. by eapply list_elem_of_lookup_2.
    + cbn in Hi. apply (IH i j); auto with lia.
Qed.

End SortedLists.

(** [sort((a, b) => f(b) - f(a))] sorts by [f], descending, when no [f]
    is [NaN]. *)
Lemma jsSort_descending {A} (f : A → float) (l : list A) :
  Forall (λ a, is_nan (f a) = false) l →
  StronglySorted (λ a b, (f b <=? f a)%float = true)
    (jsSort (λ a b, (f b - f a)%float) l).
Proof.
  intros Hl. unfold jsSort.
  apply (stableSort_sorted _ (λ a, is_nan (f a) = false)); [| | |done].
  - intros x y Hx Hy H. rewrite sub_pos in H by done. by apply ltb_leb.
  - intros x y Hx Hy H. rewrite sub_pos in H by done. by apply ltb_false_leb.
  - intros x y z _ _ _ H1 H2. by eapply leb_trans.
Qed.

Lemma jsSort_perm {A} (compare : A → A → float) (l : list A) :
  jsSort compare l ≡ₚ l.
Proof. apply stableSort_perm. Qed.

(* ================================================================== *)
(** * searchService: LIKE *)
(* ================================================================== *)

Section Like.
Import searchService.

Lemma lowerChar_idemp c : lowerChar (lowerChar c) = lowerChar c.
Proof. destruct c as [[] [] [] [] [] [] [] []]; reflexivity. Qed.

Lemma lowerChar_percent c : lowerChar c = "%"%char → c = "%"%char.
Proof. destruct c as [[] [] [] [] [] [] [] []]; cbv; congruence. Qed.

Lemma lowerChar_underscore c : lowerChar c = "_"%char → c = "_"%char.
Proof. destruct c as [[] [] [] [] [] [] [] []]; cbv; congruence. Qed.

Lemma chars_append a b : chars (a +:+ b) = chars a ++ chars b.
Proof.
  unfold chars. induction a as [|c a IH]; [done|].
  change (c :: list_ascii_of_string (a +:+ b)
          = c :: (list_ascii_of_string a ++ list_ascii_of_string b)).
  by rewrite IH.
Qed.

Lemma chars_unchars l : chars (unchars l) = l.
Proof. apply list_ascii_of_string_of_list_ascii. Qed.

Lemma lowerChar_jsLowerChar c : lowerChar (jsLowerChar c) = jsLowerChar c.
Proof. destruct c as [[] [] [] [] [] [] [] []]; reflexivity. Qed.

Lemma jsLowerChar_percent c : jsLowerChar c = "%"%char → c = "%"%char.
Proof. destruct c as [[] [] [] [] [] [] [] []]; cbv; congruence. Qed.

Lemma jsLowerChar_underscore c : jsLowerChar c = "_"%char → c = "_"%char.
Proof. destruct c as [[] [] [] [] [] [] [] []]; cbv; congruence. Qed.

(** On ASCII characters the two conversions agree. *)
Lemma jsLowerChar_ascii c : (nat_of_ascii c < 128)%nat → jsLowerChar c = lowerChar c.
Proof. destruct c as [[] [] [] [] [] [] [] []]; cbv; intros; (reflexivity || lia). Qed.

Lemma chars_searchTerm query :
  chars ("%" +:+ toLowerCase query +:+ "%")
  = "%"%char :: (jsLowerChar <$> chars query) ++ ["%"%char].
Proof.
  rewrite !chars_append. unfold toLowerCase. by rewrite chars_unchars.
Qed.

(** A leading [%] lets the rest of the pattern start anywhere. *)
Lemma likeMatch_percent pattern text :
  likeMatch ("%"%char :: pattern) text = true
  ↔ ∃ before rest, text = before ++ rest ∧ likeMatch pattern rest = true.
Proof.
  cbn [likeMatch]. destruct (decide _) as [_|?]; [|done].
  induction text as [|d text IH].
  - rewrite orb_false_r. split.
    + intros H. by exists [], [].
    + intros (before & rest & E & H). symmetry in E.
      apply app_eq_nil in E as [-> ->]. done.
  - rewrite orb_true_iff, IH. split.
    + intros [H|(before & rest & -> & H)].
      * by exists [], (d :: text).
      * by exists (d :: before), rest.
    + intros (before & rest & E & H). destruct before as [|d' before].
      * left. cbn in E. by subst.
      * right. injection E as -> ->. by exists before, rest.
Qed.

Lemma likeMatch_any text : likeMatch ["%"%char] text = true.
Proof. apply likeMatch_percent. exists text, []. by rewrite app_nil_r. Qed.

(** A pattern of plain characters followed by [%] matches the texts that
    begin with these characters, ASCII case apart. *)
Lemma likeMatch_prefix pattern text :
  "%"%char ∉ pattern → "_"%char ∉ pattern →
  likeMatch (pattern ++ ["%"%char]) text = true
  ↔ ∃ after, lowerChar <$> text = (lowerChar <$> pattern) ++ after.
Proof.
  revert text. induction pattern as [|c pattern IH]; intros text Hp Hu.
  - cbn [app]. rewrite likeMatch_any. split; [|done]. intros _. by eexists.
  - apply not_elem_of_cons in Hp as [Hc Hp]. apply not_elem_of_cons in Hu as [Hc' Hu].
    cbn [app likeMatch]. destruct (decide _) as [?|_]; [done|].
    destruct text as [|d text].
    + split; [done|]. intros [after E]. done.
    + rewrite bool_decide_eq_false_2 by done. cbn [orb].
      rewrite andb_true_iff, bool_decide_eq_true, IH by done. cbn. split.
      * intros [-> [after ->]]. by exists after.
      * intros [after E]. injection E as -> ->. split; [done|]. by exists after.
Qed.

(** For a query without wildcards, [LOWER(column) LIKE '%query%'] says
    that the lowercased query occurs in the column, ASCII case apart. *)
Lemma lowerLike_contains query text :
  plainQuery query →
  lowerLike (Some text) ("%" +:+ toLowerCase query +:+ "%") = true
  ↔ containsCI (toLowerCase query) text.
Proof.
  intros [Hp Hu]. unfold lowerLike, containsCI.
  rewrite chars_searchTerm, likeMatch_percent.
  unfold toLowerCase, sqlLower. rewrite !chars_unchars.
  set (needle := jsLowerChar <$> chars query).
  assert ("%"%char ∉ needle) as Hp'.
  { intros (c & E & Hc)%list_elem_of_fmap. symmetry in E.
    apply jsLowerChar_percent in E. by subst. }
  assert ("_"%char ∉ needle) as Hu'.
  { intros (c & E & Hc)%list_elem_of_fmap. symmetry in E.
    apply jsLowerChar_underscore in E. by subst. }
  assert (lowerChar <$> needle = needle) as Hneedle.
  { unfold needle. rewrite <- list_fmap_compose. apply list_fmap_ext.
    intros _ c _. apply lowerChar_jsLowerChar. }
  assert (∀ l : list ascii, lowerChar <$> (lowerChar <$> l) = lowerChar <$> l)
    as Hidem.
  { intros l. rewrite <- list_fmap_compose. apply list_fmap_ext.
    intros _ c _. apply lowerChar_idemp. }
  rewrite Hneedle. split.
  - intros (before & rest & E & H). apply likeMatch_prefix in H as [after H]; [|done..].
    rewrite Hneedle in H. exists before, after. rewrite E.
    assert (lowerChar <$> (before ++ rest) = before ++ rest) as E'.
    { rewrite <- E. apply Hidem. }
    rewrite fmap_app in E'. apply app_inj_1 in E' as [_ E']; [|by rewrite length_fmap].
    by rewrite <- E', H.
  - intros (before & after & E). exists before, (needle ++ after).
    split; [done|]. apply likeMatch_prefix; [done..|]. exists (lowerChar <$> after).
    rewrite Hneedle. rewrite fmap_app, Hneedle.
    assert (lowerChar <$> (before ++ needle ++ after) = before ++ needle ++ after) as E'.
    { rewrite <- E. apply Hidem. }
    rewrite !fmap_app, Hneedle in E'.
    apply app_inj_1 in E' as [_ E']; [|by rewrite length_fmap].
    apply app_inj_1 in E' as [_ E']; [|done]. by rewrite E'.
Qed.

(** For an ASCII query, lowercasing it first changes nothing to its
    occurrences, ASCII case apart. *)
Lemma containsCI_ascii query text :
  asciiText query → containsCI (toLowerCase query) text ↔ containsCI query text.
Proof.
  intros Hascii. unfold containsCI, toLowerCase. rewrite chars_unchars.
  assert (lowerChar <$> (jsLowerChar <$> chars query) = lowerChar <$> chars query) as ->;
    [|done].
  rewrite <- list_fmap_compose. apply Forall_fmap_ext_1.
  eapply Forall_impl; [exact Hascii|]. intros c Hc. cbn.
  by rewrite lowerChar_jsLowerChar, jsLowerChar_ascii.
Qed.

End Like.

(* ================================================================== *)
(** * searchService: the keyword leg *)
(* ================================================================== *)

Section Keyword.
Import databaseService searchService.

Lemma matchScore_highestTier term e :
  matchScore term e
  = highestTier (lowerLike (e_name e) term) (lowerLike (e_summary e) term)
      (lowerLike (e_topics e) term) (lowerLike (e_transcript e) term).
Proof.
  unfold matchScore, highestTier.
  by destruct (lowerLike (e_name e) term), (lowerLike (e_summary e) term),
    (lowerLike (e_topics e) term), (lowerLike (e_transcript e) term).
Qed.

Lemma whereMatches_matchScore term e :
  whereMatches term e = true → 1 ≤ matchScore term e ≤ 4.
Proof.
  unfold whereMatches, matchScore.
  destruct (lowerLike (e_name e) term), (lowerLike (e_summary e) term),
    (lowerLike (e_topics e) term), (lowerLike (e_transcript e) term); cbn; intros; lia.
Qed.

Lemma keywordRows_perm term s :
  (keywordRows term s).*1
  ≡ₚ filter (λ e, whereMatches term e = true) (journal_entries s).
Proof.
  unfold keywordRows. rewrite stableSort_perm, <- list_fmap_compose.
  by rewrite list_fmap_id.
Qed.

Lemma keywordRows_elem term s row :
  row ∈ keywordRows term s →
  row.2 = matchScore term row.1 ∧ whereMatches term row.1 = true.
Proof.
  unfold keywordRows. rewrite stableSort_perm.
  intros (e & -> & [He _]%list_elem_of_filter)%list_elem_of_fmap. done.
Qed.

(** ORDER BY match_score DESC, created_at DESC. *)
Lemma keywordRows_sorted term s :
  StronglySorted
    (λ x y : Entry * Z,
       y.2 < x.2 ∨ (y.2 = x.2 ∧ e_created_at y.1 ≤ e_created_at x.1))
    (keywordRows term s).
Proof.
  unfold keywordRows. apply (stableSort_sorted _ (λ _, True)).
  - intros x y _ _ H. apply orb_true_iff in H as [H|H]; [lia|].
    apply andb_true_iff in H as [H1 H2]. lia.
  - intros x y _ _ H. apply orb_false_iff in H as [H1 H2].
    apply andb_false_iff in H2. lia.
  - intros x y z _ _ _. lia.
  - by apply Forall_true.
Qed.

Lemma maxOf_ge l x : x ∈ l → x ≤ maxOf l.
Proof.
  unfold maxOf. induction l as [|y l IH]; [by intros ?%elem_of_nil|].
  intros [->|H]%elem_of_cons; cbn [foldr]; [lia|]. specialize (IH H). lia.
Qed.

Lemma maxOf_elem l : l ≠ [] → Forall (λ x, 1 ≤ x) l → maxOf l ∈ l.
Proof.
  unfold maxOf. induction l as [|y l IH]; [done|]. intros _ [Hy Hl]%Forall_cons_1.
  destruct l as [|z l].
  - cbn. rewrite Z.max_l by lia. by left.
  - specialize (IH ltac:(done) Hl). cbn [foldr] in *.
    destruct (Z.max_spec y (Z.max z (foldr Z.max 0 l))) as [[_ ->]|[_ ->]].
    + by right.
    + by left.
Qed.

(** The quotients of the tiers. *)
Lemma tier_quotient raw top :
  1 ≤ raw ≤ top → top ≤ 4 →
  (0 <? numOfZ raw / numOfZ top)%float = true
  ∧ (numOfZ raw / numOfZ top <=? 1)%float = true.
Proof.
  intros H1 H2.
  assert (top = 1 ∨ top = 2 ∨ top = 3 ∨ top = 4) as Ht by lia.
  assert (raw = 1 ∨ raw = 2 ∨ raw = 3 ∨ raw = 4) as Hr by lia.
  destruct Ht as [-> | [-> | [-> | ->]]], Hr as [-> | [-> | [-> | ->]]];
    try lia; by vm_compute.
Qed.

Lemma tier_quotient_mono raw raw' top :
  1 ≤ raw' ≤ raw → raw ≤ top → top ≤ 4 →
  (numOfZ raw' / numOfZ top <=? numOfZ raw / numOfZ top)%float = true
  ∧ (raw' < raw → (numOfZ raw' / numOfZ top <? numOfZ raw / numOfZ top)%float = true).
Proof.
  intros H1 H2 H3.
  assert (top = 1 ∨ top = 2 ∨ top = 3 ∨ top = 4) as Ht by lia.
  assert (raw = 1 ∨ raw = 2 ∨ raw = 3 ∨ raw = 4) as Hr by lia.
  assert (raw' = 1 ∨ raw' = 2 ∨ raw' = 3 ∨ raw' = 4) as Hr' by lia.
  destruct Ht as [-> | [-> | [-> | ->]]], Hr as [-> | [-> | [-> | ->]]],
    Hr' as [-> | [-> | [-> | ->]]]; try lia; (split; [by vm_compute|]);
    intros; try lia; by vm_compute.
Qed.

(** The keyword leg when the query succeeds. *)
Lemma performKeywordSearch_ok query env w :
  isBlank query = false →
  dbFails env (dbCalls w) = false →
  let rows := keywordRows ("%" +:+ toLowerCase query +:+ "%") (store w) in
  let top := if (0 <? length rows)%nat then maxOf (rows.*2) else 1 in
  performKeywordSearch query env w
  = (Ok ((λ row, {| entry := row.1; match_score := Some row.2;
                    score := (numOfZ row.2 / numOfZ top)%float;
                    searchType := "keyword" |}) <$> rows),
     afterCall w (store w)).
Proof.
  intros Hq Hdb. unfold performKeywordSearch. rewrite Hq.
  unfold tryCatch, bind, databaseService.query, dbCall. rewrite Hdb. reflexivity.
Qed.

(** The keyword leg when the query fails. *)
Lemma performKeywordSearch_fails query env w :
  isBlank query = false →
  dbFails env (dbCalls w) = true →
  performKeywordSearch query env w
  = (Ok [], logged (afterCall w (store w)) "Keyword search error:").
Proof.
  intros Hq Hdb. unfold performKeywordSearch. rewrite Hq.
  unfold tryCatch, bind, databaseService.query, dbCall. rewrite Hdb. reflexivity.
Qed.

(** C9, as the code has it.  For a non-blank query whose database query
    succeeds, the keyword leg returns the entries of which a field matches
    [LOWER(field) LIKE '%' + query.toLowerCase() + '%'].  For a query
    without [%] and [_] these are the entries in which the lowercased
    query occurs, ASCII case apart; for such a query of ASCII characters,
    the entries in which the query occurs, ASCII case apart (JavaScript
    lowercases the capital letters outside ASCII of the query as well,
    SQLite does not those of the field).  The raw score of an entry is the
    tier of its highest matching field (name 4, summary 3, topics 2,
    transcript 1); the score is the raw score divided by the highest raw
    score returned, and lies in (0, 1]; nothing is returned when nothing
    matches; the results are in descending order of score, and an entry
    that matches in its name comes before, and has a higher score than, an
    entry that matches in its transcript only. *)
Theorem keyword_search_scores (query : string) (env : Env) (w : World) :
  isBlank query = false →
  dbFails env (dbCalls w) = false →
  let searchTerm := "%" +:+ toLowerCase query +:+ "%" in
  let hit (column : option string) := lowerLike column searchTerm in
  let tier (e : Entry) :=
    highestTier (hit (e_name e)) (hit (e_summary e)) (hit (e_topics e))
      (hit (e_transcript e)) in
  let matching :=
    filter (λ e, whereMatches searchTerm e = true) (journal_entries (store w)) in
  ∃ results w' top,
    performKeywordSearch query env w = (Ok results, w')
    ∧ entry <$> results ≡ₚ matching
    ∧ (matching = [] → results = [])
    ∧ (results ≠ [] → ∃ r, r ∈ results ∧ tier (entry r) = top)
    ∧ (∀ r, r ∈ results →
         match_score r = Some (tier (entry r))
         ∧ 1 ≤ tier (entry r) ≤ top ∧ top ≤ 4
         ∧ score r = (numOfZ (tier (entry r)) / numOfZ top)%float
         ∧ (0 <? score r)%float = true ∧ (score r <=? 1)%float = true)
    ∧ (∀ i j a b, results !! i = Some a → results !! j = Some b → (i < j)%nat →
         tier (entry b) ≤ tier (entry a) ∧ (score b <=? score a)%float = true)
    ∧ (∀ a b, a ∈ results → b ∈ results →
         hit (e_name (entry a)) = true →
         hit (e_name (entry b)) = false → hit (e_summary (entry b)) = false →
         hit (e_topics (entry b)) = false →
         (score b <? score a)%float = true
         ∧ ∀ i j, results !! i = Some a → results !! j = Some b → (i < j)%nat)
    ∧ (plainQuery query →
       ∀ text,
         (hit (Some text) = true ↔ containsCI (toLowerCase query) text)
         ∧ (asciiText query → (hit (Some text) = true ↔ containsCI query text))).
Proof.
  intros Hq Hdb searchTerm hit tier matching.
  pose proof (performKeywordSearch_ok query env w Hq Hdb) as Hrun. cbn zeta in Hrun.
  fold searchTerm in Hrun.
  set (rows := keywordRows searchTerm (store w)) in *.
  set (top := if (0 <? length rows)%nat then maxOf (rows.*2) else 1) in *.
  set (mk := λ row : Entry * Z,
         {| entry := row.1; match_score := Some row.2;
            score := (numOfZ row.2 / numOfZ top)%float;
            searchType := "keyword" |}) in *.
  assert (∀ row, row ∈ rows → row.2 = tier row.1 ∧ 1 ≤ row.2 ≤ 4) as Hrow.
  { intros row [E Hw]%keywordRows_elem. rewrite E. split.
    - apply matchScore_highestTier.
    - by apply whereMatches_matchScore. }
  assert (rows ≠ [] → top ∈ rows.*2) as Htop.
  { intros Hne. unfold top. destruct rows as [|row rows'] eqn:E; [done|].
    cbn [length Nat.ltb Nat.leb]. rewrite <- E in *.
    apply maxOf_elem.
    - rewrite E. done.
    - apply Forall_forall. intros x (row' & -> & Hin)%list_elem_of_fmap.
      by apply Hrow. }
  assert (∀ row, row ∈ rows → row.2 ≤ top ∧ top ≤ 4) as Hle.
  { intros row Hin. assert (rows ≠ []) as Hne by (intros E; rewrite E in Hin; by apply elem_of_nil in Hin).
    split.
    - unfold top. destruct rows as [|row0 rows'] eqn:E; [done|].
      cbn [length Nat.ltb Nat.leb]. rewrite <- E in *.
      apply maxOf_ge. by apply list_elem_of_fmap_2.
    - apply Htop in Hne as (row' & -> & Hin')%list_elem_of_fmap.
      by apply Hrow. }
  assert (∀ r, r ∈ mk <$> rows →
            ∃ row, row ∈ rows ∧ r = mk row) as Hres.
  { intros r (row & -> & Hin)%list_elem_of_fmap. by exists row. }
  exists (mk <$> rows), (afterCall w (store w)), top.
  split; [exact Hrun|]. split.
  { rewrite <- list_fmap_compose. apply keywordRows_perm. }
  split.
  { intros E. pose proof (keywordRows_perm searchTerm (store w)) as Hp.
    fold rows matching in Hp. rewrite E in Hp. apply Permutation_nil_r in Hp.
    apply fmap_nil_inv in Hp. by rewrite Hp. }
  split.
  { intros Hne. assert (rows ≠ []) as Hne' by (intros E; by rewrite E in Hne).
    apply Htop in Hne' as (row & E & Hin)%list_elem_of_fmap.
    exists (mk row). split; [by apply list_elem_of_fmap_2|].
    cbn. destruct (Hrow row Hin) as [<- _]. done. }
  split.
  { intros r (row & Hin & ->)%Hres. cbn.
    destruct (Hrow row Hin) as [E Hb]. destruct (Hle row Hin) as [Hl Ht].
    rewrite <- E. split; [done|]. split; [lia|]. split; [done|]. split; [done|].
    apply tier_quotient; lia. }
  split.
  { intros i j a b Hi Hj Hij.
    apply list_lookup_fmap_Some in Hi as (ra & -> & Hi).
    apply list_lookup_fmap_Some in Hj as (rb & -> & Hj).
    pose proof (sorted_lookup _ _ _ _ _ _ (keywordRows_sorted searchTerm (store w))
                  Hi Hj Hij) as Hord. cbn beta in Hord.
    assert (ra ∈ rows) as Ha by by eapply list_elem_of_lookup_2.
    assert (rb ∈ rows) as Hb by by eapply list_elem_of_lookup_2.
    destruct (Hrow ra Ha) as [Ea Ba]. destruct (Hrow rb Hb) as [Eb Bb].
    destruct (Hle ra Ha) as [La Lt]. cbn. rewrite <- Ea, <- Eb.
    split; [lia|]. apply tier_quotient_mono; lia. }
  split.
  { intros a b (ra & Ha & ->)%Hres (rb & Hb & ->)%Hres Hname Hn Hs Ht.
    cbn in Hname, Hn, Hs, Ht.
    destruct (Hrow ra Ha) as [Ea Ba]. destruct (Hrow rb Hb) as [Eb Bb].
    destruct (Hle ra Ha) as [La Lt].
    assert (ra.2 = 4) as Ea4.
    { rewrite Ea. unfold tier. rewrite Hname. unfold highestTier.
      repeat case_match; lia. }
    assert (rb.2 = 1) as Eb1.
    { assert (tier rb.1 ≤ 1) as Hle1.
      { unfold tier. rewrite Hn, Hs, Ht. unfold highestTier.
        repeat case_match; lia. }
      lia. }
    split.
    - cbn. apply tier_quotient_mono; lia.
    - intros i j Hi Hj.
      apply list_lookup_fmap_Some in Hi as (ra' & Era & Hi).
      apply list_lookup_fmap_Some in Hj as (rb' & Erb & Hj).
      assert (ra'.2 = 4) as Ea'.
      { apply (f_equal match_score) in Era. cbn in Era. congruence. }
      assert (rb'.2 = 1) as Eb'.
      { apply (f_equal match_score) in Erb. cbn in Erb. congruence. }
      destruct (decide (i < j)%nat) as [?|Hge]; [done|]. exfalso.
      destruct (decide (i = j)) as [->|Hne]; [congruence|].
      pose proof (sorted_lookup _ _ _ _ _ _ (keywordRows_sorted searchTerm (store w))
                    Hj Hi ltac:(lia)) as Hord. cbn beta in Hord. lia. }
  intros Hplain text.
  pose proof (lowerLike_contains query text Hplain) as Hhit. split; [exact Hhit|].
  intros Hascii. rewrite <- (containsCI_ascii query text Hascii). exact Hhit.
Qed.

Lemma keyword_search_scores_witness :
  let query := "work" in
  let env := examples.quietEnv in
  let w := examples.searchWorld in
  let searchTerm := "%" +:+ toLowerCase query +:+ "%" in
  let hit (column : option string) := lowerLike column searchTerm in
  let tier (e : Entry) :=
    highestTier (hit (e_name e)) (hit (e_summary e)) (hit (e_topics e))
      (hit (e_transcript e)) in
  let matching :=
    filter (λ e, whereMatches searchTerm e = true) (journal_entries (store w)) in
  ∃ results w' top,
    performKeywordSearch query env w = (Ok results, w')
    ∧ entry <$> results ≡ₚ matching
    ∧ (matching = [] → results = [])
    ∧ (results ≠ [] → ∃ r, r ∈ results ∧ tier (entry r) = top)
    ∧ (∀ r, r ∈ results →
         match_score r = Some (tier (entry r))
         ∧ 1 ≤ tier (entry r) ≤ top ∧ top ≤ 4
         ∧ score r = (numOfZ (tier (entry r)) / numOfZ top)%float
         ∧ (0 <? score r)%float = true ∧ (score r <=? 1)%float = true)
    ∧ (∀ i j a b, results !! i = Some a → results !! j = Some b → (i < j)%nat →
         tier (entry b) ≤ tier (entry a) ∧ (score b <=? score a)%float = true)
    ∧ (∀ a b, a ∈ results → b ∈ results →
         hit (e_name (entry a)) = true →
         hit (e_name (entry b)) = false → hit (e_summary (entry b)) = false →
         hit (e_topics (entry b)) = false →
         (score b <? score a)%float = true
         ∧ ∀ i j, results !! i = Some a → results !! j = Some b → (i < j)%nat)
    ∧ (plainQuery query →
       ∀ text,
         (hit (Some text) = true ↔ containsCI (toLowerCase query) text)
         ∧ (asciiText query → (hit (Some text) = true ↔ containsCI query text))).
Proof.
  apply (keyword_search_scores "work" examples.quietEnv examples.searchWorld).
  - reflexivity.
  - reflexivity.
Defined.

(** C9 as stated fails for a query with a wildcard: [_] occurs in no field
    of the entry named ["ab"], and the keyword search for ["_"] returns
    this entry, first and with the score [1]. *)
Lemma keyword_wildcard_counterexample :
  isBlank "_" = false
  ∧ (∀ text, text ∈ ["Work"; "a day at work"; "ab"; "gym"; "my WORK out"; "nothing"] →
       ¬ containsCI "_" text)
  ∧ ∃ results : list LegResult,
      (performKeywordSearch "_" examples.quietEnv examples.searchWorld).1
      = Ok results
      ∧ (λ r, (e_id (entry r), e_name (entry r), e_transcript (entry r),
               match_score r, score r)) <$> results
        = [ (2, Some "ab", Some "gym", Some 4, 1%float);
            (1, Some "Work", Some "a day at work", Some 4, 1%float);
            (4, None, Some "nothing", Some 1, 0.25%float);
            (3, None, Some "my WORK out", Some 1, 0.25%float) ].
Proof.
  split; [reflexivity|]. split; [|eexists; split; by vm_compute].
  intros text Hin (before & after & E).
  assert ("_"%char ∈ lowerChar <$> chars text) as Hu.
  { rewrite E. apply elem_of_app. right. apply elem_of_app. left. by left. }
  repeat (apply elem_of_cons in Hin as [->|Hin];
          [revert Hu; apply (bool_decide_unpack (_ ∉ _)); by vm_compute|]).
  by apply elem_of_nil in Hin.
Qed.

(** A capital letter outside ASCII: the query is the capital E with an
    acute accent.  JavaScript lowercases it in the pattern, SQLite leaves
    the one of the field as it is: the entry named by the capital letter
    is not found, the entry named by the small letter is. *)
Lemma keyword_capital_example :
  isBlank examples.capitalE = false
  ∧ plainQuery examples.capitalE
  ∧ containsCI examples.capitalE examples.capitalE
  ∧ ¬ containsCI (toLowerCase examples.capitalE) examples.capitalE
  ∧ ∃ results : list LegResult,
      (performKeywordSearch examples.capitalE examples.quietEnv examples.accentWorld).1
      = Ok results
      ∧ (λ r, (e_id (entry r), match_score r, score r)) <$> results
        = [ (2, Some 4, 1%float) ].
Proof.
  split; [reflexivity|]. split.
  { split; apply (bool_decide_unpack (_ ∉ _)); by vm_compute. }
  split; [by exists [], []|]. split; [|eexists; split; by vm_compute].
  intros (before & after & E). vm_compute in E.
  destruct before as [|c before]; [discriminate E|].
  injection E as _ E. by destruct before.
Qed.

End Keyword.

(* ================================================================== *)
(** * searchService: the merge of the two legs *)
(* ================================================================== *)

Section ResultsMap.
Import searchService.

Lemma filter_ext_elem {A} (P Q : A → Prop) `{!∀ x, Decision (P x)}
    `{!∀ x, Decision (Q x)} (l : list A) :
  (∀ x, x ∈ l → P x ↔ Q x) → filter P l = filter Q l.
Proof.
  induction l as [|x l IH]; [done|]. intros Hpq. rewrite !filter_cons.
  rewrite IH by (intros y Hy; apply Hpq; by right).
  assert (P x ↔ Q x) as Hx by (apply Hpq; by left).
  destruct (decide (P x)), (decide (Q x)); tauto || done.
Qed.

Lemma mapHas_spec m k : mapHas m k = true ↔ k ∈ m.*1.
Proof. apply bool_decide_eq_true. Qed.

Lemma mapSet_fresh m k v : k ∉ m.*1 → mapSet m k v = m ++ [(k, v)].
Proof.
  induction m as [|[k' v'] m IH]; [done|]. cbn.
  intros [Hk Hm]%not_elem_of_cons. destruct (decide _) as [?|_]; [done|].
  by rewrite IH.
Qed.

Lemma mapGet_elem m p : NoDup m.*1 → p ∈ m → mapGet m p.1 = Some p.2.
Proof.
  induction m as [|[k' v'] m IH]; [by intros _ ?%elem_of_nil|]. cbn.
  intros [Hk Hm]%NoDup_cons [->|Hp]%elem_of_cons.
  - cbn. by destruct (decide _).
  - destruct (decide _) as [E|_]; [|by apply IH].
    exfalso. apply Hk. rewrite <- E. by apply list_elem_of_fmap_2.
Qed.

Lemma mapGet_has m k : k ∈ m.*1 → ∃ v, mapGet m k = Some v ∧ (k, v) ∈ m.
Proof.
  induction m as [|[k' v'] m IH]; [by intros ?%elem_of_nil|]. cbn.
  intros Hk. destruct (decide (k = k')) as [->|Hne].
  - exists v'. split; [done|]. by left.
  - apply elem_of_cons in Hk as [?|Hk]; [done|].
    destruct (IH Hk) as (v & Hv & Hin). exists v. split; [done|]. by right.
Qed.

(** Setting a key that is in the map replaces its value where it is. *)
Lemma mapSet_present m k v :
  NoDup m.*1 → k ∈ m.*1 →
  mapSet m k v = (λ p, if decide (p.1 = k) then (k, v) else p) <$> m.
Proof.
  induction m as [|[k' v'] m IH]; [by intros _ ?%elem_of_nil|]. cbn.
  intros [Hk Hm]%NoDup_cons Hin. destruct (decide (k = k')) as [->|Hne].
  - destruct (decide _) as [_|?]; [|done]. f_equal.
    rewrite <- (list_fmap_id m) at 1. apply list_fmap_ext. intros i p Hp.
    destruct (decide _) as [E|_]; [|done]. exfalso. apply Hk. rewrite <- E.
    apply list_elem_of_fmap_2. by eapply list_elem_of_lookup_2.
  - destruct (decide _) as [?|_]; [congruence|]. f_equal. apply IH; [done|].
    apply elem_of_cons in Hin as [?|?]; done.
Qed.

Lemma resultOf_None results i : i ∉ idsOf results → resultOf results i = None.
Proof.
  induction results as [|r results IH]; [done|]. cbn.
  intros [Hr Hi]%not_elem_of_cons. destruct (decide _) as [?|_]; [done|]. by apply IH.
Qed.

Lemma resultOf_elem results r :
  NoDup (idsOf results) → r ∈ results → resultOf results (e_id (entry r)) = Some r.
Proof.
  induction results as [|r' results IH]; [by intros _ ?%elem_of_nil|]. cbn.
  intros [Hr Hn]%NoDup_cons [->|Hin]%elem_of_cons.
  - by destruct (decide _).
  - destruct (decide _) as [E|_]; [|by apply IH].
    exfalso. apply Hr. rewrite <- E. apply list_elem_of_fmap. by exists r.
Qed.

Lemma resultOf_Some results i r :
  resultOf results i = Some r → r ∈ results ∧ e_id (entry r) = i.
Proof.
  induction results as [|r' results IH]; [done|]. cbn.
  destruct (decide _) as [->|_].
  - intros [= ->]. split; [by left|done].
  - intros [Hin E]%IH. split; [by right|done].
Qed.

(** The loop over the semantic results. *)
Lemma addSemantic_fold sw semanticResults : ∀ m,
  NoDup (m.*1 ++ idsOf semanticResults) →
  fold_left (addSemantic sw) semanticResults m
  = m ++ ((λ r, (e_id (entry r), semanticHit sw r)) <$> semanticResults).
Proof.
  induction semanticResults as [|r S IH]; intros m Hn.
  - cbn. by rewrite app_nil_r.
  - cbn [fold_left]. unfold addSemantic at 2.
    cbn [idsOf fmap list_fmap] in Hn.
    assert (e_id (entry r) ∉ m.*1) as Hfresh.
    { apply NoDup_app in Hn as (_ & Hd & _). intros Hin. apply (Hd _ Hin). by left. }
    rewrite mapSet_fresh by done. rewrite IH.
    + by rewrite <- app_assoc.
    + rewrite fmap_app. cbn. rewrite <- app_assoc. exact Hn.
Qed.

(** The loop over the keyword results: an entry of the map whose id has a
    keyword result is merged with it where it is, the other keyword
    results are appended. *)
Lemma addKeyword_fold sw kw keywordResults : ∀ m,
  NoDup m.*1 → NoDup (idsOf keywordResults) →
  fold_left (addKeyword sw kw) keywordResults m
  = ((λ p, (p.1, match resultOf keywordResults p.1 with
                 | Some r => mergedHit sw kw p.2 r
                 | None => p.2
                 end)) <$> m)
    ++ ((λ r, (e_id (entry r), keywordHit kw r))
          <$> filter (λ r, e_id (entry r) ∉ m.*1) keywordResults).
Proof.
  induction keywordResults as [|k K IH]; intros m Hm HK.
  - cbn. rewrite app_nil_r. rewrite <- (list_fmap_id m) at 1.
    apply list_fmap_ext. by intros i [??] _.
  - cbn [idsOf fmap list_fmap] in HK. apply NoDup_cons in HK as [Hk HK].
    cbn [fold_left]. unfold addKeyword at 2.
    destruct (mapHas m (e_id (entry k))) eqn:Hhas.
    + apply mapHas_spec in Hhas.
      destruct (mapGet_has m _ Hhas) as (existing & -> & Hex).
      rewrite mapSet_present by done.
      set (m' := _ <$> m).
      assert (m'.*1 = m.*1) as Hkeys.
      { unfold m'. rewrite <- list_fmap_compose. apply list_fmap_ext.
        intros i p _. cbn. by destruct (decide _). }
      rewrite IH by (by rewrite ?Hkeys). rewrite Hkeys.
      rewrite filter_cons_False by (intros H; by apply H). f_equal.
      unfold m'. rewrite <- list_fmap_compose. apply list_fmap_ext.
      intros i p Hp. cbn. destruct (decide (p.1 = e_id (entry k))) as [E|Hne].
      * cbn. rewrite (resultOf_None K) by done.
        assert (p.2 = existing) as <-.
        { apply list_elem_of_lookup_2 in Hp.
          pose proof (mapGet_elem m p Hm Hp) as H1.
          pose proof (mapGet_elem m _ Hm Hex) as H2. cbn in H2.
          rewrite E in H1. congruence. }
        by rewrite E.
      * reflexivity.
    + assert (e_id (entry k) ∉ m.*1) as Hfresh.
      { intros H%mapHas_spec. congruence. }
      rewrite mapSet_fresh by done.
      rewrite IH; [|rewrite fmap_app; cbn|done].
      2:{ apply NoDup_app. split; [done|]. split; [|apply NoDup_singleton].
          intros x Hx ->%list_elem_of_singleton. done. }
      rewrite filter_cons_True by done. rewrite !fmap_app, <- app_assoc.
      cbn [fmap list_fmap app fst snd]. rewrite (resultOf_None K) by done.
      f_equal.
      * apply list_fmap_ext. intros i p Hp. cbn.
        destruct (decide _) as [E|_]; [|done]. exfalso. apply Hfresh.
        rewrite <- E. apply list_elem_of_fmap_2. by eapply list_elem_of_lookup_2.
      * f_equal. f_equal. apply filter_ext_elem.
        intros r Hr. rewrite not_elem_of_app, list_elem_of_singleton.
        split; [by intros [? _]|]. intros H. split; [done|].
        intros E. apply Hk. rewrite <- E. apply list_elem_of_fmap. by exists r.
Qed.

(** The values of the map, before they are sorted. *)
Lemma combineResults_perm semanticResults keywordResults sw kw :
  NoDup (idsOf semanticResults) → NoDup (idsOf keywordResults) →
  combineResults semanticResults keywordResults sw kw
  ≡ₚ ((λ r, match resultOf keywordResults (e_id (entry r)) with
            | Some k => mergedHit sw kw (semanticHit sw r) k
            | None => semanticHit sw r
            end) <$> semanticResults)
     ++ (keywordHit kw
           <$> filter (λ r, e_id (entry r) ∉ idsOf semanticResults) keywordResults).
Proof.
  intros HS HK. unfold combineResults. rewrite jsSort_perm.
  rewrite addSemantic_fold by done. cbn [app].
  assert (((λ r, (e_id (entry r), semanticHit sw r)) <$> semanticResults).*1
          = idsOf semanticResults) as Hkeys.
  { rewrite <- list_fmap_compose. done. }
  rewrite addKeyword_fold by (by rewrite ?Hkeys). rewrite Hkeys.
  rewrite fmap_app, <- !list_fmap_compose. done.
Qed.

End ResultsMap.

Section Fusion.
Import databaseService embeddingsService searchService.

Lemma scoreIn_elem results r :
  NoDup (idsOf results) → r ∈ results →
  scoreIn results (e_id (entry r)) = Some (score r).
Proof. intros Hn Hr. unfold scoreIn. by rewrite (resultOf_elem _ _ Hn Hr). Qed.

Lemma scoreIn_None results i : i ∉ idsOf results → scoreIn results i = None.
Proof. intros Hi. unfold scoreIn. by rewrite resultOf_None. Qed.

(** The ids of the merged list: those of the semantic results and the
    further ones of the keyword results. *)
Lemma combineResults_ids semanticResults keywordResults sw kw :
  NoDup (idsOf semanticResults) → NoDup (idsOf keywordResults) →
  hitId <$> combineResults semanticResults keywordResults sw kw
  ≡ₚ idsOf semanticResults
     ++ idsOf (filter (λ r, e_id (entry r) ∉ idsOf semanticResults) keywordResults).
Proof.
  intros HS HK. rewrite combineResults_perm by done.
  rewrite fmap_app, <- !list_fmap_compose.
  assert (∀ (f g : LegResult → Z) (l : list LegResult),
            (∀ r, f r = g r) → f <$> l = g <$> l) as Hext.
  { intros f g l H. apply list_fmap_ext. intros i r _. apply H. }
  rewrite (Hext _ (λ r, e_id (entry r)) semanticResults); [done|].
  intros r. cbn. by case_match.
Qed.

Lemma combineResults_NoDup semanticResults keywordResults sw kw :
  NoDup (idsOf semanticResults) → NoDup (idsOf keywordResults) →
  NoDup (hitId <$> combineResults semanticResults keywordResults sw kw).
Proof.
  intros HS HK. rewrite combineResults_ids by done. apply NoDup_app.
  split; [done|]. split.
  - intros i Hi (r & -> & [Hr _]%list_elem_of_filter)%list_elem_of_fmap. done.
  - eapply sublist_NoDup; [exact HK|]. apply fmap_sublist, sublist_filter.
Qed.

Lemma combineResults_elem_ids semanticResults keywordResults sw kw i :
  NoDup (idsOf semanticResults) → NoDup (idsOf keywordResults) →
  i ∈ hitId <$> combineResults semanticResults keywordResults sw kw
  ↔ i ∈ idsOf semanticResults ∨ i ∈ idsOf keywordResults.
Proof.
  intros HS HK. rewrite combineResults_ids by done. rewrite elem_of_app.
  split.
  - intros [?|(r & -> & [_ Hr]%list_elem_of_filter)%list_elem_of_fmap]; [by left|].
    right. apply list_elem_of_fmap. by exists r.
  - intros [?|(r & -> & Hr)%list_elem_of_fmap]; [by left|].
    destruct (decide (e_id (entry r) ∈ idsOf semanticResults)); [by left|].
    right. apply list_elem_of_fmap. exists r. split; [done|].
    by apply list_elem_of_filter.
Qed.

(** The scores of a merged entry. *)
Lemma combineResults_scores semanticResults keywordResults sw kw h :
  NoDup (idsOf semanticResults) → NoDup (idsOf keywordResults) →
  h ∈ combineResults semanticResults keywordResults sw kw →
  semanticScore h = Some (default 0%float (scoreIn semanticResults (hitId h)))
  ∧ keywordScore h = Some (default 0%float (scoreIn keywordResults (hitId h)))
  ∧ Some (combinedScore h)
    = fusedScore (scoreIn semanticResults (hitId h))
        (scoreIn keywordResults (hitId h)) sw kw.
Proof.
  intros HS HK. rewrite combineResults_perm by done. rewrite elem_of_app.
  intros [(r & -> & Hr)%list_elem_of_fmap
         |(r & -> & [Hfresh Hr]%list_elem_of_filter)%list_elem_of_fmap].
  - destruct (resultOf keywordResults (e_id (entry r))) as [k|] eqn:Ek.
    + unfold hitId. cbn. rewrite scoreIn_elem by done.
      unfold scoreIn at 1 2. rewrite Ek. done.
    + unfold hitId. cbn. rewrite scoreIn_elem by done.
      unfold scoreIn at 1 2. rewrite Ek. done.
  - unfold hitId. cbn. rewrite (scoreIn_elem keywordResults) by done.
    rewrite scoreIn_None by done. done.
Qed.

(** The combined score is the weighted sum with [0] for a missing leg
    when the weights are finite. *)
Lemma fusedScore_padded s k sw kw c :
  fusedScore s k sw kw = Some c →
  is_finite sw = true → is_finite kw = true → is_nan c = false →
  (c =? paddedScore s k sw kw)%float = true.
Proof.
  unfold fusedScore, paddedScore. intros H Hsw Hkw Hc.
  destruct s as [a|], k as [b|]; cbn [default]; try discriminate;
    injection H as <-.
  - by apply eqb_refl_key.
  - destruct (mul_zero_l kw Hkw) as [sg Hz]. by eapply add_zero_r.
  - destruct (mul_zero_l sw Hsw) as [sg Hz]. by eapply add_zero_l.
Qed.

(** The ids of a leg's results are ids of the table, each once. *)
Lemma embeddedRows_ids s :
  NoDup (e_id <$> journal_entries s) → NoDup (e_id <$> embeddedRows s).
Proof.
  intros Hn. unfold embeddedRows. rewrite stableSort_perm.
  eapply sublist_NoDup; [exact Hn|]. apply fmap_sublist, sublist_filter.
Qed.

Lemma keywordRows_ids term s :
  NoDup (e_id <$> journal_entries s) →
  NoDup ((λ row, e_id row.1) <$> keywordRows term s).
Proof.
  intros Hn. change (NoDup ((e_id ∘ fst) <$> keywordRows term s)).
  rewrite list_fmap_compose, keywordRows_perm.
  eapply sublist_NoDup; [exact Hn|]. apply fmap_sublist, sublist_filter.
Qed.

Lemma performKeywordSearch_ids query env w results w' :
  performKeywordSearch query env w = (Ok results, w') →
  NoDup (e_id <$> journal_entries (store w)) → NoDup (idsOf results).
Proof.
  intros Hrun Hn. destruct (isBlank query) eqn:Hq.
  { unfold performKeywordSearch in Hrun. rewrite Hq in Hrun.
    injection Hrun as <- _. constructor. }
  destruct (dbFails env (dbCalls w)) eqn:Hdb.
  - rewrite performKeywordSearch_fails in Hrun by done.
    injection Hrun as <- _. constructor.
  - rewrite performKeywordSearch_ok in Hrun by done.
    injection Hrun as <- _. unfold idsOf. rewrite <- list_fmap_compose.
    by apply keywordRows_ids.
Qed.

Lemma performSemanticSearch_ids query queryEmbedding env w results w' :
  performSemanticSearch query queryEmbedding env w = (Ok results, w') →
  NoDup (e_id <$> journal_entries (store w)) → NoDup (idsOf results).
Proof.
  intros Hrun Hn. unfold performSemanticSearch in Hrun.
  destruct (isBlank query); [injection Hrun as <- _; constructor|].
  unfold tryCatch in Hrun. unfold bind at 1 in Hrun.
  set (g := match queryEmbedding with
            | Some v => ret v
            | None => generateEmbedding query
            end) in Hrun.
  assert (readsOnly g) as Hg.
  { unfold g. destruct queryEmbedding; [apply reads_ret|apply reads_generateEmbedding]. }
  destruct (Hg env w) as [_ Hst]. destruct (g env w) as [[v|e|] w0]; cbn in Hst.
  - unfold bind, databaseService.query, dbCall in Hrun.
    destruct (dbFails env (dbCalls w0)).
    { injection Hrun as <- _. constructor. }
    cbn [fst snd] in Hrun.
    destruct (length (embeddedRows (store w0)) =? 0)%nat.
    { injection Hrun as <- _. constructor. }
    injection Hrun as <- _. unfold idsOf. rewrite jsSort_perm.
    rewrite <- list_fmap_compose. rewrite Hst. by apply embeddedRows_ids.
  - injection Hrun as <- _. constructor.
  - discriminate.
Qed.

(** The filter and the cut keep the order. *)
Lemma finish_descending config results :
  descending results → descending (finish config results).
Proof.
  intros Hs. unfold finish, descending in *.
  pose proof (sorted_filter _ (λ r, (minScore config <=? combinedScore r)%float = true)
                _ Hs) as Hf.
  destruct (jsTruthy (maxResults config)); [|done].
  unfold slice0. destruct (maxResults config) as [|z]; [constructor|].
  destruct (0 <=? z); by apply sorted_take.
Qed.

End Fusion.

(* ================================================================== *)
(** * searchService: the hybrid search *)
(* ================================================================== *)

Section Hybrid.
Import databaseService embeddingsService searchService.

(** C1, as the code has it.  For a non-blank query in the hybrid mode,
    over a table whose ids are distinct: the merged list has one entry
    for each id that the semantic or the keyword leg has found; an entry
    found by both legs has the combined score
    semanticScore*semanticWeight + keywordScore*keywordWeight, an entry
    found by one leg has this leg's score times its weight and [0] as the
    score of the other leg (which is the weighted sum with [0] for the
    missing leg when the weights are finite); when no combined score is
    [NaN], the merged and the final list are in descending order of
    combined score; the final list is the merged entries with combined
    score >= minScore, cut to the first maxResults when maxResults is
    positive (so of length at most maxResults), not cut when maxResults
    is [0], and cut by -maxResults entries at the end when maxResults is
    negative. *)
Theorem hybrid_search_fuses (query : string) (options : Options) (env : Env)
    (w : World) :
  isBlank query = false →
  mode (mergeConfig options) ≠ JString SEMANTIC →
  mode (mergeConfig options) ≠ JString KEYWORD →
  NoDup (e_id <$> journal_entries (store w)) →
  let config := mergeConfig options in
  ∃ semanticResults keywordResults w1 w2,
    performSemanticSearch query None env w = (Ok semanticResults, w1)
    ∧ performKeywordSearch query env w1 = (Ok keywordResults, w2)
    ∧ let merged :=
        combineResults semanticResults keywordResults (semanticWeight config)
          (keywordWeight config) in
      let kept :=
        filter (λ h, (minScore config <=? combinedScore h)%float = true) merged in
      ∃ final,
        searchEntries query options env w = (Ok final, w2)
        ∧ NoDup (hitId <$> merged)
        ∧ (∀ i, i ∈ hitId <$> merged
                ↔ i ∈ idsOf semanticResults ∨ i ∈ idsOf keywordResults)
        ∧ (∀ h, h ∈ merged →
             let s := scoreIn semanticResults (hitId h) in
             let k := scoreIn keywordResults (hitId h) in
             semanticScore h = Some (default 0%float s)
             ∧ keywordScore h = Some (default 0%float k)
             ∧ Some (combinedScore h)
               = fusedScore s k (semanticWeight config) (keywordWeight config)
             ∧ (is_finite (semanticWeight config) = true →
                is_finite (keywordWeight config) = true →
                is_nan (combinedScore h) = false →
                (combinedScore h
                 =? paddedScore s k (semanticWeight config) (keywordWeight config))%float
                = true))
        ∧ ((∀ h, h ∈ merged → is_nan (combinedScore h) = false) →
           descending merged ∧ descending final)
        ∧ (∀ n, maxResults config = JInt n → 1 ≤ n →
             final = take (Z.to_nat n) kept ∧ Z.of_nat (length final) ≤ n)
        ∧ (maxResults config = JInt 0 → final = kept)
        ∧ (∀ n, maxResults config = JInt n → n < 0 →
             final = take (length kept - Z.to_nat (- n)) kept).
Proof.
  intros Hq Hs Hk Hn config.
  destruct (searchEntries_hybrid query options env w Hq Hs Hk)
    as (S & K & w1 & w2 & HS & HK & Hw1 & Hrun).
  exists S, K, w1, w2. split; [done|]. split; [done|].
  assert (NoDup (idsOf S)) as HnS by by eapply performSemanticSearch_ids.
  assert (NoDup (idsOf K)) as HnK.
  { eapply performKeywordSearch_ids; [exact HK|]. by rewrite Hw1. }
  intros merged kept. exists (finish config merged).
  split; [exact Hrun|].
  split; [by apply combineResults_NoDup|].
  split; [intros i; by apply combineResults_elem_ids|].
  split.
  { intros h Hh s k.
    destruct (combineResults_scores S K _ _ h HnS HnK Hh) as (H1 & H2 & H3).
    split; [done|]. split; [done|]. split; [done|].
    intros Hsw Hkw Hc. by eapply fusedScore_padded. }
  split.
  { intros Hnan. assert (descending merged) as Hd.
    { unfold merged, combineResults. apply jsSort_descending.
      apply Forall_forall. intros h Hh. apply Hnan.
      unfold merged, combineResults. by rewrite jsSort_perm. }
    split; [done|]. by apply finish_descending. }
  split.
  { intros n Hmax Hpos. unfold finish. fold merged kept. rewrite Hmax. cbn.
    destruct (Z.eqb_spec n 0) as [?|_]; [lia|]. cbn.
    destruct (Z.leb_spec 0 n) as [_|?]; [|lia].
    split; [done|]. rewrite length_take. lia. }
  split.
  { intros Hmax. unfold finish. fold merged kept. by rewrite Hmax. }
  intros n Hmax Hneg. unfold finish. fold merged kept. rewrite Hmax. cbn.
  destruct (Z.eqb_spec n 0) as [?|_]; [lia|]. cbn.
  destruct (Z.leb_spec 0 n) as [?|_]; [lia|]. done.
Qed.

Lemma hybrid_search_fuses_witness :
  let config := mergeConfig noOptions in
  ∃ semanticResults keywordResults w1 w2,
    performSemanticSearch "work" None examples.quietEnv examples.searchWorld = (Ok semanticResults, w1)
    ∧ performKeywordSearch "work" examples.quietEnv w1 = (Ok keywordResults, w2)
    ∧ let merged :=
        combineResults semanticResults keywordResults (semanticWeight config)
          (keywordWeight config) in
      let kept :=
        filter (λ h, (minScore config <=? combinedScore h)%float = true) merged in
      ∃ final,
        searchEntries "work" noOptions examples.quietEnv examples.searchWorld = (Ok final, w2)
        ∧ NoDup (hitId <$> merged)
        ∧ (∀ i, i ∈ hitId <$> merged
                ↔ i ∈ idsOf semanticResults ∨ i ∈ idsOf keywordResults)
        ∧ (∀ h, h ∈ merged →
             let s := scoreIn semanticResults (hitId h) in
             let k := scoreIn keywordResults (hitId h) in
             semanticScore h = Some (default 0%float s)
             ∧ keywordScore h = Some (default 0%float k)
             ∧ Some (combinedScore h)
               = fusedScore s k (semanticWeight config) (keywordWeight config)
             ∧ (is_finite (semanticWeight config) = true →
                is_finite (keywordWeight config) = true →
                is_nan (combinedScore h) = false →
                (combinedScore h
                 =? paddedScore s k (semanticWeight config) (keywordWeight config))%float
                = true))
        ∧ ((∀ h, h ∈ merged → is_nan (combinedScore h) = false) →
           descending merged ∧ descending final)
        ∧ (∀ n, maxResults config = JInt n → 1 ≤ n →
             final = take (Z.to_nat n) kept ∧ Z.of_nat (length final) ≤ n)
        ∧ (maxResults config = JInt 0 → final = kept)
        ∧ (∀ n, maxResults config = JInt n → n < 0 →
             final = take (length kept - Z.to_nat (- n)) kept).
Proof.
  apply (hybrid_search_fuses "work" noOptions examples.quietEnv examples.searchWorld).
  - reflexivity.
  - discriminate.
  - discriminate.
  - apply (bool_decide_unpack _). by vm_compute.
Defined.

(** C1 as stated fails in three ways.  With [maxResults: 0] the search for
    ["work"] returns three entries: the list is not cut.  With an infinite
    keyword weight the entry 4, which only the semantic leg finds, has the
    combined score [0.6 * 0.6], and the sum with [0] for the keyword leg
    is [NaN].  With a semantic score that is [NaN] (the entry 2, whose
    embedding has an infinite squared norm, against the query embedding
    [0, 0]) the sort leaves the entry with the combined score [0.1] before
    the one with [0.4], and the filter by minScore then drops the [NaN]
    between them. *)
Lemma hybrid_search_counterexample :
  (∃ final : list Hit,
     (searchEntries "work"
        {| o_mode := None; o_semanticWeight := None; o_keywordWeight := None;
           o_minScore := None; o_maxResults := Some (JInt 0) |}
        examples.quietEnv examples.searchWorld).1 = Ok final
     ∧ hitId <$> final = [1; 4; 3]
     ∧ ¬ Z.of_nat (length final) ≤ 0)
  ∧ (∃ final : list Hit,
       (searchEntries "work"
          {| o_mode := None; o_semanticWeight := None;
             o_keywordWeight := Some infinity;
             o_minScore := None; o_maxResults := None |}
          examples.quietEnv examples.searchWorld).1 = Ok final
       ∧ (λ h, (hitId h, semanticScore h, keywordScore h, combinedScore h)) <$> final
         = [ (1, Some 1%float, Some 1%float, infinity);
             (3, Some 0%float, Some 0.25%float, infinity);
             (4, Some 0.6%float, Some 0%float, (0.6 * 0.6)%float) ]
       ∧ (0.6 * 0.6 =? 0.6 * 0.6 + 0 * infinity)%float = false
       ∧ is_nan (0.6 * 0.6 + 0 * infinity)%float = true)
  ∧ (∃ final : list Hit,
       (searchEntries "work" noOptions examples.zeroEnv examples.hugeWorld).1
       = Ok final
       ∧ (λ h, (hitId h, combinedScore h)) <$> final
         = [ (1, (0 * 0.6 + 0.25 * 0.4)%float); (3, (0 * 0.6 + 1 * 0.4)%float) ]
       ∧ (0 * 0.6 + 1 * 0.4 <=? 0 * 0.6 + 0.25 * 0.4)%float = false
       ∧ ¬ descending final).
Proof.
  split; [|split].
  - eexists. split; [by vm_compute|]. split; [by vm_compute|]. cbn. lia.
  - eexists. split; [by vm_compute|]. split; [by vm_compute|]. by vm_compute.
  - eexists. split; [by vm_compute|]. split; [by vm_compute|].
    split; [by vm_compute|]. unfold descending. intros Hs.
    apply StronglySorted_inv in Hs as [_ Hs]. apply Forall_cons_1 in Hs as [Hs _].
    vm_compute in Hs. discriminate.
Qed.

End Hybrid.

(* ================================================================== *)
(** * databaseService: settings, entries, folders *)
(* ================================================================== *)

Section Database.
Import databaseService.

Lemma query_runs {A} (f : Store → A) env w :
  dbFails env (dbCalls w) = false →
  query f env w = (Ok (f (store w)), afterCall w (store w)).
Proof. intros H. unfold query. by rewrite dbCall_ok. Qed.

Lemma run_runs (f : Store → Store) env w :
  dbFails env (dbCalls w) = false →
  run f env w = (Ok tt, afterCall w (f (store w))).
Proof. intros H. unfold run. by rewrite dbCall_ok. Qed.

(** X1.  A setting that is written is read back, except that an empty
    value is read back as [null]; the other settings read as before. *)
Theorem setSetting_getSetting (key value key' : string) (env : Env) (w : World) :
  (∀ n, dbFails env n = false) →
  ∃ w1 w2,
    setSetting key value env w = (Ok tt, w1)
    ∧ getSetting key' env w1
      = (Ok (if decide (key' = key)
             then (if decide (value = "") then None else Some value)
             else settingOf (store w) key'), w2)
    ∧ journal_entries (store w1) = journal_entries (store w)
    ∧ smart_folders (store w1) = smart_folders (store w)
    ∧ folder_entries (store w1) = folder_entries (store w).
Proof.
  intros Hdb. unfold setSetting, getSetting.
  rewrite run_runs by done. eexists. rewrite query_runs by done. eexists.
  split; [done|]. split; [|done]. f_equal. f_equal.
  unfold settingOf. cbn. destruct (decide (key' = key)) as [->|Hne].
  - by rewrite lookup_insert_eq.
  - by rewrite lookup_insert_ne.
Qed.

Lemma setSetting_getSetting_witness :
  ∃ w1 w2,
    setSetting "cluster_count" "" examples.quietEnv examples.searchWorld = (Ok tt, w1)
    ∧ getSetting "cluster_count" examples.quietEnv w1
      = (Ok (if decide ("cluster_count" = "cluster_count")
             then (if decide ("" = "") then None else Some "")
             else settingOf (store examples.searchWorld) "cluster_count"), w2)
    ∧ journal_entries (store w1) = journal_entries (store examples.searchWorld)
    ∧ smart_folders (store w1) = smart_folders (store examples.searchWorld)
    ∧ folder_entries (store w1) = folder_entries (store examples.searchWorld).
Proof.
  apply (setSetting_getSetting "cluster_count" "" "cluster_count"
           examples.quietEnv examples.searchWorld).
  reflexivity.
Defined.

Lemma head_filter_fmap_id (g : Entry → Entry) (j : Z) (es : list Entry) :
  (∀ e, e_id (g e) = e_id e) →
  head (filter (λ e, e_id e = j) (g <$> es))
  = g <$> head (filter (λ e, e_id e = j) es).
Proof.
  intros Hg. induction es as [|e es IH]; [done|]. cbn [fmap list_fmap].
  rewrite !filter_cons, Hg. destruct (decide (e_id e = j)); [done|]. apply IH.
Qed.

(** X2.  After [updateJournalEntry(i, updates)] with at least one field,
    [getJournalEntry(i)] returns the row with the given fields set and the
    others as they were, [getJournalEntry(j)] for another id returns what
    it did, and no row is added or removed (an [i] that is no row's id
    changes nothing and is no error). *)
Theorem updateJournalEntry_getJournalEntry (i j : Z) (u : Updates) (env : Env)
    (w : World) :
  (∀ n, dbFails env n = false) →
  hasUpdates u = true →
  let before := head (filter (λ e, e_id e = j) (journal_entries (store w))) in
  ∃ w1 w2,
    updateJournalEntry i u env w = (Ok tt, w1)
    ∧ getJournalEntry j env w1
      = (Ok (if decide (j = i) then applyUpdates u <$> before else before), w2)
    ∧ e_id <$> journal_entries (store w1) = e_id <$> journal_entries (store w)
    ∧ (i ∉ e_id <$> journal_entries (store w) → store w1 = store w).
Proof.
  intros Hdb Hu before. unfold updateJournalEntry, getJournalEntry. rewrite Hu.
  rewrite run_runs by done. eexists. rewrite query_runs by done. eexists.
  split; [done|]. cbn [store afterCall withEntries journal_entries].
  set (g := λ e, if decide (e_id e = i) then applyUpdates u e else e).
  assert (∀ e, e_id (g e) = e_id e) as Hg.
  { intros e. unfold g. by destruct (decide _). }
  split; [|split].
  - f_equal. f_equal. rewrite (head_filter_fmap_id g) by done. fold before.
    destruct (decide (j = i)) as [->|Hne].
    + destruct before as [e|] eqn:E; [|done]. cbn.
      assert (e_id e = i) as He.
      { apply head_Some_elem_of in E. by apply list_elem_of_filter in E as [? _]. }
      unfold g. by rewrite decide_True.
    + destruct before as [e|] eqn:E; [|done]. cbn.
      assert (e_id e = j) as He.
      { apply head_Some_elem_of in E. by apply list_elem_of_filter in E as [? _]. }
      unfold g. by rewrite decide_False by congruence.
  - rewrite <- list_fmap_compose. apply list_fmap_ext. intros k e _. apply Hg.
  - intros Hi. destruct (store w) as [es fs ls st nx] eqn:Es. cbn in *.
    unfold withEntries. cbn. f_equal.
    rewrite <- (list_fmap_id es) at 2. apply list_fmap_ext. intros k e He.
    unfold g. destruct (decide (e_id e = i)) as [E|_]; [|done].
    exfalso. apply Hi. rewrite <- E. apply list_elem_of_fmap_2.
    by eapply list_elem_of_lookup_2.
Qed.

Lemma updateJournalEntry_getJournalEntry_witness :
  let u := {| u_transcript := None; u_summary := Some (Some "gym day");
              u_name := None; u_embedding := None; u_topics := None;
              u_cluster_id := Some None |} in
  let before :=
    head (filter (λ e, e_id e = 2) (journal_entries (store examples.searchWorld))) in
  ∃ w1 w2,
    updateJournalEntry 2 u examples.quietEnv examples.searchWorld = (Ok tt, w1)
    ∧ getJournalEntry 2 examples.quietEnv w1
      = (Ok (if decide (2 = 2) then applyUpdates u <$> before else before), w2)
    ∧ e_id <$> journal_entries (store w1)
      = e_id <$> journal_entries (store examples.searchWorld)
    ∧ (2 ∉ e_id <$> journal_entries (store examples.searchWorld) →
       store w1 = store examples.searchWorld).
Proof.
  apply (updateJournalEntry_getJournalEntry 2 2 _ examples.quietEnv
           examples.searchWorld).
  - reflexivity.
  - reflexivity.
Defined.

(** X3.  [deleteSmartFolder(id)] removes the folder with this id and the
    rows of the junction table that link entries to it as a smart folder;
    every other folder and link stays, and so does every journal entry,
    its [cluster_id] included. *)
Theorem deleteSmartFolder_removes (i : Z) (env : Env) (w : World) :
  (∀ n, dbFails env n = false) →
  ∃ w',
    deleteSmartFolder i env w = (Ok tt, w')
    ∧ (∀ f, f ∈ smart_folders (store w')
            ↔ f ∈ smart_folders (store w) ∧ folder_id f ≠ i)
    ∧ (∀ r, r ∈ folder_entries (store w')
            ↔ r ∈ folder_entries (store w)
              ∧ ¬ (fe_folder_id r = i ∧ fe_folder_type r = "smart"))
    ∧ journal_entries (store w') = journal_entries (store w)
    ∧ settings (store w') = settings (store w).
Proof.
  intros Hdb. unfold deleteSmartFolder.
  rewrite (bind_ok _ _ _ _ _ _ (run_runs _ env w (Hdb _))).
  rewrite run_runs by done. eexists. split; [done|].
  cbn. split; [|split; [|done]].
  - intros f. rewrite list_elem_of_filter. tauto.
  - intros r. rewrite list_elem_of_filter. tauto.
Qed.

Lemma deleteSmartFolder_removes_witness :
  ∃ w',
    deleteSmartFolder 1 examples.quietEnv examples.folderWorld = (Ok tt, w')
    ∧ (∀ f, f ∈ smart_folders (store w')
            ↔ f ∈ smart_folders (store examples.folderWorld) ∧ folder_id f ≠ 1)
    ∧ (∀ r, r ∈ folder_entries (store w')
            ↔ r ∈ folder_entries (store examples.folderWorld)
              ∧ ¬ (fe_folder_id r = 1 ∧ fe_folder_type r = "smart"))
    ∧ journal_entries (store w') = journal_entries (store examples.folderWorld)
    ∧ settings (store w') = settings (store examples.folderWorld).
Proof.
  apply (deleteSmartFolder_removes 1 examples.quietEnv examples.folderWorld).
  reflexivity.
Defined.

(** X4.  [deleteSmartFolder] is two statements without a transaction: when
    the first succeeds and the second fails, the call throws, the folder
    is gone and its rows in the junction table are all still there. *)
Theorem deleteSmartFolder_not_atomic (i : Z) (env : Env) (w : World) :
  dbFails env (dbCalls w) = false →
  dbFails env (S (dbCalls w)) = true →
  ∃ e w',
    deleteSmartFolder i env w = (Throw e, w')
    ∧ smart_folders (store w')
      = filter (λ f, folder_id f ≠ i) (smart_folders (store w))
    ∧ folder_entries (store w') = folder_entries (store w).
Proof.
  intros H0 H1. unfold deleteSmartFolder.
  rewrite (bind_ok _ _ _ _ _ _ (run_runs _ env w H0)).
  unfold run. rewrite dbCall_fails by done. by eexists _, _.
Qed.

Lemma deleteSmartFolder_not_atomic_witness :
  ∃ e w',
    deleteSmartFolder 1 (examples.failsAt 1) examples.folderWorld = (Throw e, w')
    ∧ smart_folders (store w')
      = filter (λ f, folder_id f ≠ 1) (smart_folders (store examples.folderWorld))
    ∧ folder_entries (store w') = folder_entries (store examples.folderWorld).
Proof.
  apply (deleteSmartFolder_not_atomic 1 (examples.failsAt 1) examples.folderWorld).
  - reflexivity.
  - reflexivity.
Defined.

(** X5.  [addEntryToFolder] adds a link only when there is none: after the
    call there is a link, their number is one when there was none and
    what it was otherwise, the other rows of the junction table are as
    before, and a second call changes nothing. *)
Theorem addEntryToFolder_idempotent (folderId entryId : Z) (folderType : string)
    (env : Env) (w : World) :
  (∀ n, dbFails env n = false) →
  let links (s : Store) :=
    filter (linkIs folderId entryId folderType) (folder_entries s) in
  ∃ w1 w2,
    addEntryToFolder folderId entryId folderType env w = (Ok tt, w1)
    ∧ addEntryToFolder folderId entryId folderType env w1 = (Ok tt, w2)
    ∧ store w2 = store w1
    ∧ length (links (store w1)) = Nat.max 1 (length (links (store w)))
    ∧ filter (λ r, ¬ linkIs folderId entryId folderType r) (folder_entries (store w1))
      = filter (λ r, ¬ linkIs folderId entryId folderType r) (folder_entries (store w))
    ∧ (links (store w) ≠ [] → store w1 = store w).
Proof.
  intros Hdb links.
  assert (∀ w0, links (store w0) ≠ [] →
            addEntryToFolder folderId entryId folderType env w0
            = (Ok tt, afterCall w0 (store w0))) as Hpresent.
  { intros w0 H. unfold addEntryToFolder.
    rewrite (bind_ok _ _ _ _ _ _ (query_runs _ env w0 (Hdb _))).
    fold (links (store w0)). by destruct (links (store w0)). }
  destruct (links (store w)) as [|r rs] eqn:E.
  - set (new := {| fe_folder_id := folderId; fe_entry_id := entryId;
                   fe_folder_type := folderType |}).
    set (w1 := afterCall (afterCall w (store w))
                 (withLinks (store w) (folder_entries (store w) ++ [new]))).
    assert (addEntryToFolder folderId entryId folderType env w = (Ok tt, w1)) as H1.
    { unfold addEntryToFolder.
      rewrite (bind_ok _ _ _ _ _ _ (query_runs _ env w (Hdb _))).
      fold (links (store w)). rewrite E. cbn [head]. by rewrite run_runs. }
    assert (links (store w1) = [new]) as E1.
    { unfold links, w1. cbn. rewrite filter_app. fold (links (store w)). rewrite E.
      rewrite filter_cons_True by done. done. }
    exists w1, (afterCall w1 (store w1)). split; [done|]. split.
    { apply Hpresent. by rewrite E1. }
    split; [done|]. split; [by rewrite E1|]. split; [|done].
    unfold w1. cbn. rewrite filter_app.
    rewrite (filter_cons_False _ new) by (intros H; by apply H).
    by rewrite filter_nil, app_nil_r.
  - assert (links (store w) ≠ []) as Hne by by rewrite E.
    exists (afterCall w (store w)), (afterCall (afterCall w (store w)) (store w)).
    split; [by apply Hpresent|]. split; [by apply (Hpresent (afterCall w (store w)))|].
    split; [done|]. split; [cbn; by rewrite E|]. done.
Qed.

Lemma addEntryToFolder_idempotent_witness :
  let links (s : Store) := filter (linkIs 7 2 "manual") (folder_entries s) in
  ∃ w1 w2,
    addEntryToFolder 7 2 "manual" examples.quietEnv examples.folderWorld = (Ok tt, w1)
    ∧ addEntryToFolder 7 2 "manual" examples.quietEnv w1 = (Ok tt, w2)
    ∧ store w2 = store w1
    ∧ length (links (store w1))
      = Nat.max 1 (length (links (store examples.folderWorld)))
    ∧ filter (λ r, ¬ linkIs 7 2 "manual" r) (folder_entries (store w1))
      = filter (λ r, ¬ linkIs 7 2 "manual" r)
          (folder_entries (store examples.folderWorld))
    ∧ (links (store examples.folderWorld) ≠ [] → store w1 = store examples.folderWorld).
Proof.
  apply (addEntryToFolder_idempotent 7 2 "manual" examples.quietEnv
           examples.folderWorld).
  reflexivity.
Defined.

Lemma newestFirst_perm es : newestFirst es ≡ₚ es.
Proof. apply stableSort_perm. Qed.

Lemma newestFirst_sorted es :
  StronglySorted (λ a b, e_created_at b ≤ e_created_at a) (newestFirst es).
Proof.
  apply (stableSort_sorted _ (λ _, True)); [| | |by apply Forall_true].
  - intros x y _ _ H. lia.
  - intros x y _ _ H. lia.
  - intros x y z _ _ _. lia.
Qed.

Lemma oldestFirst_sorted es :
  StronglySorted (λ a b, e_created_at a ≤ e_created_at b) (oldestFirst es).
Proof.
  apply (stableSort_sorted _ (λ _, True)); [| | |by apply Forall_true].
  - intros x y _ _ H. lia.
  - intros x y _ _ H. lia.
  - intros x y z _ _ _. lia.
Qed.

Lemma entriesLinked_elem folderId folderType s x :
  x ∈ entriesLinked folderId folderType s
  ↔ x ∈ journal_entries s
    ∧ ∃ r, r ∈ folder_entries s ∧ linkIs folderId (e_id x) folderType r.
Proof.
  unfold entriesLinked. rewrite newestFirst_perm, list_elem_of_bind. split.
  - intros (e & (r & -> & [Hr Hin]%list_elem_of_filter)%list_elem_of_fmap & He).
    split; [done|]. by exists r.
  - intros (Hx & r & Hin & Hr). exists x. split; [|done].
    apply list_elem_of_fmap. exists r. split; [done|]. by apply list_elem_of_filter.
Qed.

Lemma getEntriesInFolder_junction jsonValid folderId folderType env w :
  dbFails env (dbCalls w) = false →
  folderType ≠ "smart" →
  getEntriesInFolder jsonValid folderId folderType env w
  = (Ok (entriesLinked folderId folderType (store w)), afterCall w (store w)).
Proof.
  intros Hdb Ht. unfold getEntriesInFolder. rewrite decide_False by done.
  by rewrite query_runs.
Qed.

(** X6.  For a folder type other than ['smart']: an entry that is added to
    a folder is among the entries of the folder, and is no longer among
    them once it is removed; the entries of a folder are listed newest
    first. *)
Theorem folder_add_remove (jsonValid : string → bool) (folderId : Z)
    (folderType : string) (x : Entry) (env : Env) (w : World) :
  (∀ n, dbFails env n = false) →
  folderType ≠ "smart" →
  x ∈ journal_entries (store w) →
  ∃ w1 l1 w2 w3 l3 w4,
    addEntryToFolder folderId (e_id x) folderType env w = (Ok tt, w1)
    ∧ getEntriesInFolder jsonValid folderId folderType env w1 = (Ok l1, w2)
    ∧ x ∈ l1
    ∧ StronglySorted (λ a b, e_created_at b ≤ e_created_at a) l1
    ∧ removeEntryFromFolder folderId (e_id x) folderType env w2 = (Ok tt, w3)
    ∧ getEntriesInFolder jsonValid folderId folderType env w3 = (Ok l3, w4)
    ∧ (x ∉ l3)
    ∧ (∀ y, y ∈ l3 ↔ y ∈ l1 ∧ e_id y ≠ e_id x).
Proof.
  intros Hdb Ht Hx.
  destruct (addEntryToFolder_idempotent folderId (e_id x) folderType env w Hdb)
    as (w1 & _ & Hadd & _ & _ & Hlen & _ & _). cbn zeta in Hlen.
  assert (journal_entries (store w1) = journal_entries (store w)) as Hes.
  { revert Hadd. unfold addEntryToFolder.
    rewrite (bind_ok _ _ _ _ _ _ (query_runs _ env w (Hdb _))).
    destruct (head _); [by intros [= <-]|]. rewrite run_runs by done.
    by intros [= <-]. }
  exists w1. eexists. eexists.
  rewrite getEntriesInFolder_junction by done.
  unfold removeEntryFromFolder. rewrite run_runs by done. eexists. eexists. eexists.
  rewrite getEntriesInFolder_junction by done.
  split; [done|]. split; [done|]. split.
  { apply entriesLinked_elem. rewrite Hes. split; [done|].
    destruct (filter (linkIs folderId (e_id x) folderType) (folder_entries (store w1)))
      as [|r rs] eqn:E; [cbn in Hlen; lia|].
    assert (r ∈ filter (linkIs folderId (e_id x) folderType) (folder_entries (store w1)))
      as [Hr Hin]%list_elem_of_filter by (rewrite E; by left).
    by exists r. }
  split; [apply newestFirst_sorted|]. split; [done|]. split; [done|].
  assert (∀ y, y ∈ entriesLinked folderId folderType
                     (store (afterCall (afterCall w1 (store w1))
                               (withLinks (store (afterCall w1 (store w1)))
                                  (filter (λ r, ¬ linkIs folderId (e_id x) folderType r)
                                     (folder_entries (store (afterCall w1 (store w1))))))))
               ↔ y ∈ entriesLinked folderId folderType (store w1) ∧ e_id y ≠ e_id x)
    as Hiff.
  { intros y. rewrite !entriesLinked_elem. cbn. split.
    - intros (Hy & r & [Hnot Hin]%list_elem_of_filter & Hr).
      split; [split; [done|by exists r]|].
      intros E. apply Hnot. by rewrite <- E.
    - intros ((Hy & r & Hin & Hr) & Hne). split; [done|]. exists r.
      split; [|done]. apply list_elem_of_filter. split; [|done].
      intros (_ & E & _). destruct Hr as (_ & E' & _). congruence. }
  split; [|exact Hiff]. intros [_ H]%Hiff. done.
Qed.

Lemma folder_add_remove_witness :
  let x := examples.entry 2 (Some "ab") (Some "gym") 102 (Some [0; 1]%float) in
  ∃ w1 l1 w2 w3 l3 w4,
    addEntryToFolder 7 (e_id x) "manual" examples.quietEnv examples.folderWorld
    = (Ok tt, w1)
    ∧ getEntriesInFolder (λ _, true) 7 "manual" examples.quietEnv w1 = (Ok l1, w2)
    ∧ x ∈ l1
    ∧ StronglySorted (λ a b, e_created_at b ≤ e_created_at a) l1
    ∧ removeEntryFromFolder 7 (e_id x) "manual" examples.quietEnv w2 = (Ok tt, w3)
    ∧ getEntriesInFolder (λ _, true) 7 "manual" examples.quietEnv w3 = (Ok l3, w4)
    ∧ (x ∉ l3)
    ∧ (∀ y, y ∈ l3 ↔ y ∈ l1 ∧ e_id y ≠ e_id x).
Proof.
  apply (folder_add_remove (λ _, true) 7 "manual" _ examples.quietEnv
           examples.folderWorld).
  - reflexivity.
  - discriminate.
  - vm_compute. apply list_elem_of_further, list_elem_of_here.
Defined.

(** X7.  The entries of a cluster folder (a smart folder of type
    ['cluster'] with a cluster id and no rules) are the journal entries
    whose [cluster_id] is the folder's, newest first; the junction table
    is not read. *)
Theorem getEntriesInFolder_cluster (jsonValid : string → bool) (i : Z)
    (f : Folder) (c : nat) (env : Env) (w : World) :
  (∀ n, dbFails env n = false) →
  head (filter (λ f, folder_id f = i) (smart_folders (store w))) = Some f →
  folder_type f = "cluster" →
  folder_cluster_id f = Some c →
  folder_rules f = None →
  ∃ l w',
    getEntriesInFolder jsonValid i "smart" env w = (Ok l, w')
    ∧ (∀ x, x ∈ l ↔ x ∈ journal_entries (store w) ∧ e_cluster_id x = Some c)
    ∧ StronglySorted (λ a b, e_created_at b ≤ e_created_at a) l
    ∧ store w' = store w.
Proof.
  intros Hdb Hf Ht Hc Hr.
  assert (getSmartFolder jsonValid i env w = (Ok (Some f), afterCall w (store w)))
    as Hget.
  { unfold getSmartFolder.
    rewrite (bind_ok _ _ _ _ _ _ (query_runs _ env w (Hdb _))).
    by rewrite Hf, Hr. }
  unfold getEntriesInFolder. cbn zeta. rewrite decide_True by done.
  rewrite (bind_ok _ _ _ _ _ _ Hget). rewrite decide_True by done. rewrite Hc.
  rewrite query_runs by done. eexists _, _. split; [done|].
  split; [|split; [apply newestFirst_sorted|done]].
  intros x. unfold entriesOfCluster. rewrite newestFirst_perm, list_elem_of_filter.
  cbn. tauto.
Qed.

Lemma getEntriesInFolder_cluster_witness :
  ∃ l w',
    getEntriesInFolder (λ _, true) 1 "smart" examples.quietEnv examples.folderWorld
    = (Ok l, w')
    ∧ (∀ x, x ∈ l ↔ x ∈ journal_entries (store examples.folderWorld)
                    ∧ e_cluster_id x = Some 0%nat)
    ∧ StronglySorted (λ a b, e_created_at b ≤ e_created_at a) l
    ∧ store w' = store examples.folderWorld.
Proof.
  apply (getEntriesInFolder_cluster (λ _, true) 1
           {| folder_id := 1; folder_name := "Career"; folder_type := "cluster";
              folder_rules := None; folder_cluster_id := Some 0%nat;
              folder_color := None |} 0 examples.quietEnv examples.folderWorld).
  - reflexivity.
  - reflexivity.
  - reflexivity.
  - reflexivity.
  - reflexivity.
Defined.

(** X8.  [getJournalEntriesSorted] returns every row once, oldest first
    for ['date_asc'] and newest first for every other argument, the
    argument left out included; in the second case it returns what
    [getJournalEntries] returns. *)
Theorem getJournalEntriesSorted_orders (sortBy : JsValue) (env : Env) (w : World) :
  dbFails env (dbCalls w) = false →
  ∃ l w',
    getJournalEntriesSorted sortBy env w = (Ok l, w')
    ∧ l ≡ₚ journal_entries (store w)
    ∧ (sortBy = JString "date_asc" →
       StronglySorted (λ a b, e_created_at a ≤ e_created_at b) l)
    ∧ (sortBy ≠ JString "date_asc" →
       StronglySorted (λ a b, e_created_at b ≤ e_created_at a) l
       ∧ getJournalEntries env w = (Ok l, w')).
Proof.
  intros Hdb. unfold getJournalEntriesSorted, getJournalEntries.
  destruct (decide (sortBy = JString "date_asc")) as [->|Hne].
  - destruct (decide (JString "date_asc" = JUndefined)) as [?|_]; [done|].
    rewrite decide_True by done.
    rewrite query_runs by done. eexists _, _. split; [done|].
    split; [apply stableSort_perm|]. split; [intros _; apply oldestFirst_sorted|done].
  - assert ((if decide (sortBy = JUndefined) then JString "date_desc" else sortBy)
            ≠ JString "date_asc") as Hne'.
    { by destruct (decide _). }
    rewrite decide_False by exact Hne'. rewrite query_runs by done.
    eexists _, _. split; [done|]. split; [apply newestFirst_perm|].
    split; [done|]. intros _. split; [apply newestFirst_sorted|done].
Qed.

Lemma getJournalEntriesSorted_orders_witness :
  ∃ l w',
    getJournalEntriesSorted JUndefined examples.quietEnv examples.folderWorld
    = (Ok l, w')
    ∧ l ≡ₚ journal_entries (store examples.folderWorld)
    ∧ (JUndefined = JString "date_asc" →
       StronglySorted (λ a b, e_created_at a ≤ e_created_at b) l)
    ∧ (JUndefined ≠ JString "date_asc" →
       StronglySorted (λ a b, e_created_at b ≤ e_created_at a) l
       ∧ getJournalEntries examples.quietEnv examples.folderWorld = (Ok l, w')).
Proof.
  apply (getJournalEntriesSorted_orders JUndefined examples.quietEnv
           examples.folderWorld).
  reflexivity.
Defined.

End Database.

(* ================================================================== *)
(** * clusteringService: cluster folders and statistics *)
(* ================================================================== *)

Section ClusterFolders.
Import databaseService embeddingsService clusteringService.

Lemma getSmartFolders_runs env w :
  dbFails env (dbCalls w) = false →
  getSmartFolders env w = (Ok (reverse (smart_folders (store w))), afterCall w (store w)).
Proof. intros H. unfold getSmartFolders. by rewrite query_runs. Qed.

Lemma getClusterFolder_runs clusterId env w :
  dbFails env (dbCalls w) = false →
  getClusterFolder clusterId env w
  = (Ok (head (filter (λ f, folder_type f = "cluster" ∧ folder_cluster_id f = clusterId)
                 (reverse (smart_folders (store w))))),
     afterCall w (store w)).
Proof.
  intros H. unfold getClusterFolder.
  by rewrite (bind_ok _ _ _ _ _ _ (getSmartFolders_runs env w H)).
Qed.

(** X9.  [getClusterFolder(clusterId)] returns a folder of the table that
    has the type ['cluster'] and this cluster id, never a folder of
    another type, and [null] exactly when the table has no such folder; it
    writes nothing. *)
Theorem getClusterFolder_finds (clusterId : option nat) (env : Env) (w : World) :
  dbFails env (dbCalls w) = false →
  ∃ r w',
    getClusterFolder clusterId env w = (Ok r, w')
    ∧ store w' = store w
    ∧ (∀ f, r = Some f →
         f ∈ smart_folders (store w) ∧ folder_type f = "cluster"
         ∧ folder_cluster_id f = clusterId)
    ∧ (r = None ↔
       ∀ f, f ∈ smart_folders (store w) →
            ¬ (folder_type f = "cluster" ∧ folder_cluster_id f = clusterId)).
Proof.
  intros Hdb. rewrite getClusterFolder_runs by done. eexists _, _.
  split; [done|]. split; [done|].
  set (P := λ f, folder_type f = "cluster" ∧ folder_cluster_id f = clusterId).
  split.
  - intros f Hf. apply head_Some_elem_of in Hf.
    apply list_elem_of_filter in Hf as [[Ht Hc] Hin].
    rewrite elem_of_reverse in Hin. done.
  - split.
    + intros Hnone f Hin HP. apply head_None in Hnone.
      assert (f ∈ filter P (reverse (smart_folders (store w)))) as H.
      { apply list_elem_of_filter. split; [done|]. by rewrite elem_of_reverse. }
      rewrite Hnone in H. by apply elem_of_nil in H.
    + intros Hno. apply head_None.
      destruct (filter P (reverse (smart_folders (store w)))) as [|f l] eqn:E; [done|].
      assert (f ∈ filter P (reverse (smart_folders (store w)))) as H
        by (rewrite E; by left).
      apply list_elem_of_filter in H as [HP Hin]. rewrite elem_of_reverse in Hin.
      by destruct (Hno f Hin).
Qed.

Lemma getClusterFolder_finds_witness :
  ∃ r w',
    getClusterFolder (Some 0%nat) examples.quietEnv examples.folderWorld = (Ok r, w')
    ∧ store w' = store examples.folderWorld
    ∧ (∀ f, r = Some f →
         f ∈ smart_folders (store examples.folderWorld) ∧ folder_type f = "cluster"
         ∧ folder_cluster_id f = Some 0%nat)
    ∧ (r = None ↔
       ∀ f, f ∈ smart_folders (store examples.folderWorld) →
            ¬ (folder_type f = "cluster" ∧ folder_cluster_id f = Some 0%nat)).
Proof.
  apply (getClusterFolder_finds (Some 0%nat) examples.quietEnv examples.folderWorld).
  reflexivity.
Defined.

Lemma head_filter_reverse_fmap (g : Folder → Folder) (P : Folder → Prop)
    `{!∀ f, Decision (P f)} (fs : list Folder) :
  (∀ f, P (g f) ↔ P f) →
  head (filter P (reverse (g <$> fs))) = g <$> head (filter P (reverse fs)).
Proof.
  intros Hg. rewrite <- fmap_reverse. generalize (reverse fs). clear fs.
  intros fs. induction fs as [|f fs IH]; [done|]. cbn [fmap list_fmap].
  rewrite !filter_cons. specialize (Hg f).
  destruct (decide (P (g f))), (decide (P f)); tauto || done.
Qed.

(** X10.  After [renameClusterFolder(clusterId, newName)],
    [getClusterFolder(clusterId)] returns the folder it returned before
    with the new name; folders with another id are as they were, and so
    are the entries, the links and the settings.  When there is no such
    folder the call changes nothing and is no error. *)
Theorem renameClusterFolder_getClusterFolder (clusterId : option nat)
    (newName : string) (env : Env) (w : World) :
  (∀ n, dbFails env n = false) →
  ∃ before w0 w1 w2,
    getClusterFolder clusterId env w = (Ok before, w0)
    ∧ renameClusterFolder clusterId newName env w = (Ok tt, w1)
    ∧ getClusterFolder clusterId env w1
      = (Ok ((λ f, {| folder_id := folder_id f; folder_name := newName;
                      folder_type := folder_type f; folder_rules := folder_rules f;
                      folder_cluster_id := folder_cluster_id f;
                      folder_color := folder_color f |}) <$> before), w2)
    ∧ (∀ g, (∀ f, before = Some f → folder_id g ≠ folder_id f) →
         g ∈ smart_folders (store w1) ↔ g ∈ smart_folders (store w))
    ∧ journal_entries (store w1) = journal_entries (store w)
    ∧ folder_entries (store w1) = folder_entries (store w)
    ∧ settings (store w1) = settings (store w)
    ∧ (before = None → store w1 = store w).
Proof.
  intros Hdb. rewrite getClusterFolder_runs by done.
  set (P := λ f, folder_type f = "cluster" ∧ folder_cluster_id f = clusterId).
  set (before := head (filter P (reverse (smart_folders (store w))))).
  exists before, (afterCall w (store w)). unfold renameClusterFolder.
  rewrite (bind_ok _ _ _ _ _ _ (getClusterFolder_runs clusterId env w (Hdb _))).
  fold P before. destruct before as [f0|] eqn:Eb.
  - unfold updateSmartFolder.
    assert (hasFolderUpdates
              {| fu_name := Some (Some newName); fu_rules := None; fu_color := None |}
            = true) as -> by reflexivity.
    set (upd := λ f, if decide (folder_id f = folder_id f0)
                     then applyFolderUpdates
                            {| fu_name := Some (Some newName); fu_rules := None;
                               fu_color := None |} f
                     else f).
    rewrite (bind_ok _ _ _ _ true
               (afterCall (afterCall w (store w))
                  (withFolders (store w) (upd <$> smart_folders (store w))))).
    2:{ rewrite dbCall_ok by done. cbn [fu_name].
        rewrite bool_decide_eq_false_2 by done. done. }
    eexists. rewrite getClusterFolder_runs by done. eexists.
    split; [done|]. split; [done|]. split.
    { f_equal. f_equal. cbn [store afterCall withFolders smart_folders].
      rewrite (head_filter_reverse_fmap upd P).
      - fold P. unfold before in Eb. rewrite Eb. cbn. f_equal. unfold upd.
        by rewrite decide_True.
      - intros f. unfold P, upd. by destruct (decide _). }
    split.
    { intros g Hg. specialize (Hg f0 eq_refl). cbn. rewrite list_elem_of_fmap. split.
      - intros (f & -> & Hin). unfold upd in *. destruct (decide _) as [E|_]; [|done].
        exfalso. apply Hg. done.
      - intros Hin. exists g. split; [|done]. unfold upd. by rewrite decide_False. }
    done.
  - eexists. rewrite getClusterFolder_runs by done. eexists.
    split; [done|]. split; [done|]. cbn. unfold before in Eb. fold P.
    rewrite Eb. done.
Qed.

Lemma renameClusterFolder_getClusterFolder_witness :
  ∃ before w0 w1 w2,
    getClusterFolder (Some 0%nat) examples.quietEnv examples.folderWorld
    = (Ok before, w0)
    ∧ renameClusterFolder (Some 0%nat) "Office" examples.quietEnv examples.folderWorld
      = (Ok tt, w1)
    ∧ getClusterFolder (Some 0%nat) examples.quietEnv w1
      = (Ok ((λ f, {| folder_id := folder_id f; folder_name := "Office";
                      folder_type := folder_type f; folder_rules := folder_rules f;
                      folder_cluster_id := folder_cluster_id f;
                      folder_color := folder_color f |}) <$> before), w2)
    ∧ (∀ g, (∀ f, before = Some f → folder_id g ≠ folder_id f) →
         g ∈ smart_folders (store w1) ↔ g ∈ smart_folders (store examples.folderWorld))
    ∧ journal_entries (store w1) = journal_entries (store examples.folderWorld)
    ∧ folder_entries (store w1) = folder_entries (store examples.folderWorld)
    ∧ settings (store w1) = settings (store examples.folderWorld)
    ∧ (before = None → store w1 = store examples.folderWorld).
Proof.
  apply (renameClusterFolder_getClusterFolder (Some 0%nat) "Office"
           examples.quietEnv examples.folderWorld).
  reflexivity.
Defined.

Lemma clusterRows_length s :
  length (clusterRows s)
  = length (filter (λ e, is_Some (e_embedding e)) (journal_entries s)).
Proof.
  unfold clusterRows. induction (journal_entries s) as [|e es IH]; [done|].
  cbn [omap list_omap]. rewrite filter_cons.
  destruct (e_embedding e) as [v|]; cbn.
  - rewrite decide_True by (by eexists). cbn. by rewrite IH.
  - rewrite decide_False by (by intros [??]). done.
Qed.

(** X11.  [getClusteringStats] never throws and writes nothing: when its
    three reads succeed it counts the cluster folders and the entries
    with an embedding and lists one cluster for each cluster folder; when
    one of them fails it returns the statistics of an empty journal. *)
Theorem getClusteringStats_returns (env : Env) (w : World) :
  ∃ stats w',
    getClusteringStats env w = (Ok stats, w')
    ∧ store w' = store w
    ∧ totalClusters stats = length (clusters stats)
    ∧ ((∃ n, (n < 3)%nat ∧ dbFails env (dbCalls w + n) = true) → stats = noStats)
    ∧ ((∀ n, (n < 3)%nat → dbFails env (dbCalls w + n) = false) →
       totalClusters stats
       = length (filter (λ f, folder_type f = "cluster") (smart_folders (store w)))
       ∧ totalEntriesWithEmbeddings stats
         = length (filter (λ e, is_Some (e_embedding e)) (journal_entries (store w)))
       ∧ lastClusteringDate stats
         = dateParse env <$> settingOf (store w) "last_clustering_date").
Proof.
  unfold getClusteringStats, tryCatch.
  destruct (dbFails env (dbCalls w)) eqn:H0.
  { unfold bind at 1. unfold getSmartFolders, query. rewrite dbCall_fails by done.
    eexists _, _. split; [done|]. split; [done|]. split; [done|].
    split; [done|]. intros H. specialize (H 0%nat ltac:(lia)).
    rewrite Nat.add_0_r in H. congruence. }
  rewrite (bind_ok _ _ _ _ _ _ (getSmartFolders_runs env w H0)).
  destruct (dbFails env (S (dbCalls w))) eqn:H1.
  { unfold bind at 1. unfold getSetting, query. rewrite dbCall_fails by done.
    eexists _, _. split; [done|]. split; [done|]. split; [done|].
    split; [done|]. intros H. specialize (H 1%nat ltac:(lia)).
    rewrite Nat.add_1_r in H. congruence. }
  unfold getSetting.
  rewrite (bind_ok _ _ _ _ _ _ (query_runs _ env (afterCall w (store w)) H1)).
  destruct (dbFails env (S (S (dbCalls w)))) eqn:H2.
  { unfold bind at 1. unfold getEntriesForClustering, query.
    rewrite dbCall_fails by done.
    eexists _, _. split; [done|]. split; [done|]. split; [done|].
    split; [done|]. intros H. specialize (H 2%nat ltac:(lia)).
    replace (dbCalls w + 2)%nat with (S (S (dbCalls w))) in H by lia. congruence. }
  unfold getEntriesForClustering.
  rewrite (bind_ok _ _ _ _ _ _
             (query_runs _ env (afterCall (afterCall w (store w)) (store w)) H2)).
  eexists _, _. split; [done|]. split; [done|]. cbn.
  split; [by rewrite length_fmap|]. split.
  { intros (n & Hn & Hf). exfalso.
    assert (n = 0 ∨ n = 1 ∨ n = 2)%nat as [-> | [-> | ->]] by lia.
    - rewrite Nat.add_0_r in Hf. congruence.
    - rewrite Nat.add_1_r in Hf. congruence.
    - replace (dbCalls w + 2)%nat with (S (S (dbCalls w))) in Hf by lia. congruence. }
  intros _. split.
  { rewrite <- (length_reverse (filter _ (smart_folders (store w)))).
    by rewrite <- filter_reverse. }
  split; [apply clusterRows_length|]. done.
Qed.

End ClusterFolders.

(* ================================================================== *)
(** * What a regeneration leaves alone *)
(* ================================================================== *)

Section Views.
Import databaseService embeddingsService clusteringService.
Context {X : Type} (view : Store → X).

Lemma view_ret {A} (a : A) : keepsView view (ret a).
Proof. done. Qed.

Lemma view_throw {A} e : keepsView view (@throw A e).
Proof. done. Qed.

Lemma view_log msg : keepsView view (log msg).
Proof. done. Qed.

Lemma view_ask : keepsView view ask.
Proof. done. Qed.

Lemma view_lift {A} (r : outcome A) : keepsView view (lift r).
Proof. done. Qed.

Lemma view_bind {A B} (m : M A) (k : A → M B) :
  keepsView view m → (∀ a, keepsView view (k a)) → keepsView view (bind m k).
Proof.
  intros Hm Hk env w. unfold bind. specialize (Hm env w).
  destruct (m env w) as [[a|e|] w']; [|done|done].
  rewrite <- Hm. apply Hk.
Qed.

Lemma view_tryCatch {A} (m : M A) (h : Err → M A) :
  keepsView view m → (∀ e, keepsView view (h e)) → keepsView view (tryCatch m h).
Proof.
  intros Hm Hh env w. unfold tryCatch. specialize (Hm env w).
  destruct (m env w) as [[a|e|] w']; [done| |done].
  rewrite <- Hm. apply Hh.
Qed.

Lemma view_forEach {A} (l : list A) (body : A → M unit) :
  (∀ x, keepsView view (body x)) → keepsView view (forEach l body).
Proof.
  intros Hb. induction l as [|x l IH]; [done|]. cbn [forEach].
  apply view_bind; [apply Hb|done].
Qed.

Lemma view_mapAll {A B} (l : list A) (f : A → M B) :
  (∀ x, keepsView view (f x)) → keepsView view (mapAll l f).
Proof.
  intros Hf. induction l as [|x l IH]; [done|]. cbn [mapAll].
  apply view_bind; [apply Hf|]. intros y.
  apply view_bind; [done|]. intros ys. apply view_ret.
Qed.

Lemma view_dbCall {A} (f : Store → A * Store) :
  (∀ s, view (f s).2 = view s) → keepsView view (dbCall f).
Proof.
  intros Hf env w. unfold dbCall. destruct (dbFails env (dbCalls w)); [done|].
  apply Hf.
Qed.

Lemma view_query {A} (f : Store → A) : keepsView view (query f).
Proof. by apply view_dbCall. Qed.

Lemma view_httpCall {A} (reply : Env → nat → option A) : keepsView view (httpCall reply).
Proof. intros env w. unfold httpCall. by destruct (reply env (httpCalls w)). Qed.

Lemma view_reads {A} (m : M A) : readsOnly m → keepsView view m.
Proof. intros Hm env w. destruct (Hm env w) as [_ ->]. done. Qed.

Lemma view_labelCluster samples : keepsView view (labelCluster samples).
Proof.
  intros env w. destruct (labelCluster_total env samples w) as (l & w' & E & Hs & _).
  rewrite E. cbn. by rewrite Hs.
Qed.

Lemma view_resolveNumClusters nc : keepsView view (resolveNumClusters nc).
Proof.
  assert (keepsView view (let* setting := getSetting "cluster_count" in
            ret match setting with Some s => parseInt s | None => JInt 5 end)) as H.
  { apply view_bind; [apply view_query|]. intros s. apply view_ret. }
  unfold resolveNumClusters. destruct nc as [n|]; [|exact H].
  destruct (jsTruthy n); [apply view_ret|exact H].
Qed.

End Views.

Section RegenerateKeeps.
Import databaseService embeddingsService clusteringService.

Lemma contents_updateEntryClusters clusterAssignments :
  keepsView entryContents (updateEntryClusters clusterAssignments).
Proof.
  apply view_forEach. intros a. unfold updateJournalEntry.
  assert (hasUpdates
            {| u_transcript := None; u_summary := None; u_name := None;
               u_embedding := None; u_topics := None;
               u_cluster_id := Some (Some (clusterId a)) |} = true) as ->
    by reflexivity.
  apply view_dbCall. intros s. unfold entryContents. cbn.
  rewrite <- list_fmap_compose. apply list_fmap_ext. intros i e _. cbn.
  by destruct (decide _).
Qed.

Lemma contents_createClusterFolder g : keepsView entryContents (createClusterFolder g).
Proof.
  destruct g as [c ids]. unfold createClusterFolder.
  destruct (length ids <? 2)%nat; [apply view_ret|].
  apply view_bind; [apply view_mapAll; intros i; apply view_query|]. intros samples.
  apply view_bind; [apply view_labelCluster|]. intros label.
  apply view_bind; [by apply view_dbCall|]. intros _. apply view_log.
Qed.

Lemma contents_regenerateClusters numClusters :
  keepsView entryContents (regenerateClusters numClusters).
Proof.
  apply view_tryCatch.
  2:{ intros e. apply view_bind; [apply view_log|]. intros _. apply view_throw. }
  apply view_bind; [apply view_log|]. intros _.
  apply view_bind; [apply view_resolveNumClusters|]. intros nc.
  apply view_bind; [apply view_query|]. intros entries.
  destruct (length entries <? 3)%nat; [apply view_log|].
  apply view_bind; [apply view_log|]. intros _.
  apply view_bind; [apply view_ask|]. intros env.
  apply view_bind; [apply view_lift|]. intros assignments.
  apply view_bind; [apply contents_updateEntryClusters|]. intros _.
  apply view_bind; [apply view_query|]. intros folders.
  apply view_bind.
  { apply view_forEach. intros f. destruct (decide _); [|apply view_ret].
    apply view_bind; [by apply view_dbCall|]. intros _. by apply view_dbCall. }
  intros _. apply view_bind; [apply view_log|]. intros _.
  apply view_bind; [apply view_forEach, contents_createClusterFolder|]. intros _.
  apply view_bind; [by apply view_dbCall|]. intros _. apply view_log.
Qed.

(** X12.  However a regeneration ends, the journal entries are the same
    rows in the same order, and differ from what they were at most in
    their [cluster_id]: no transcript, summary, name, embedding or topic
    is changed, no entry is added or removed. *)
Theorem regenerateClusters_keeps_contents (numClusters : option JsInt)
    (env : Env) (w : World) :
  withoutCluster <$> journal_entries (store (regenerateClusters numClusters env w).2)
  = withoutCluster <$> journal_entries (store w).
Proof. apply contents_regenerateClusters. Qed.

Lemma others_createClusterFolder g : keepsView otherFolders (createClusterFolder g).
Proof.
  destruct g as [c ids]. unfold createClusterFolder.
  destruct (length ids <? 2)%nat; [apply view_ret|].
  apply view_bind; [apply view_mapAll; intros i; apply view_query|]. intros samples.
  apply view_bind; [apply view_labelCluster|]. intros label.
  apply view_bind; [|intros _; apply view_log].
  apply view_dbCall. intros s. unfold otherFolders. cbn.
  rewrite filter_app, filter_cons_False by (intros H; by apply H).
  by rewrite filter_nil, app_nil_r.
Qed.

Lemma folders_updateEntryClusters clusterAssignments :
  keepsView smart_folders (updateEntryClusters clusterAssignments).
Proof.
  apply view_forEach. intros a. unfold updateJournalEntry.
  destruct (hasUpdates _); [by apply view_dbCall|].
  apply view_bind; [by apply view_dbCall|]. intros _. apply view_throw.
Qed.

(** What [deleteSmartFolder(i)] leaves of the folders, however it ends. *)
Lemma deleteSmartFolder_folders i env w :
  smart_folders (store (deleteSmartFolder i env w).2) = smart_folders (store w)
  ∨ smart_folders (store (deleteSmartFolder i env w).2)
    = filter (λ f, folder_id f ≠ i) (smart_folders (store w)).
Proof.
  unfold deleteSmartFolder, bind, run, dbCall.
  destruct (dbFails env (dbCalls w)); [by left|]. cbn.
  destruct (dbFails env (S (dbCalls w))); by right.
Qed.

Lemma NoDup_fmap_elem {A B} (f : A → B) (l : list A) x y :
  NoDup (f <$> l) → x ∈ l → y ∈ l → f x = f y → x = y.
Proof.
  induction l as [|a l IH]; [by intros _ ?%elem_of_nil|]. cbn.
  intros [Ha Hl]%NoDup_cons [->|Hx]%elem_of_cons [->|Hy]%elem_of_cons E; auto.
  - exfalso. apply Ha. rewrite E. by apply list_elem_of_fmap_2.
  - exfalso. apply Ha. rewrite <- E. by apply list_elem_of_fmap_2.
Qed.

(** The loop that deletes the old cluster folders keeps the other
    folders, when the ids of the folders are distinct. *)
Lemma deleteLoop_keeps_others (all : list Folder) (L : list Folder) env :
  NoDup (folder_id <$> all) →
  (∀ f, f ∈ L → f ∈ all) →
  ∀ w, (∀ g, g ∈ smart_folders (store w) → g ∈ all) →
  otherFolders
    (store (forEach L (λ folder,
                         if decide (folder_type folder = "cluster")
                         then deleteSmartFolder (folder_id folder)
                         else ret tt) env w).2)
  = otherFolders (store w).
Proof.
  intros Hnd. induction L as [|f L IH]; intros HL w Hw; [done|].
  cbn [forEach]. unfold bind at 1.
  assert (∀ f', f' ∈ L → f' ∈ all) as HL' by (intros f' ?; apply HL; by right).
  destruct (decide (folder_type f = "cluster")) as [Hc|Hc].
  - pose proof (deleteSmartFolder_folders (folder_id f) env w) as Hd.
    assert (otherFolders (store (deleteSmartFolder (folder_id f) env w).2)
            = otherFolders (store w)
            ∧ ∀ g, g ∈ smart_folders (store (deleteSmartFolder (folder_id f) env w).2)
                   → g ∈ all) as [HV Hsub].
    { unfold otherFolders. destruct Hd as [->| ->]; [done|]. split.
      - rewrite list_filter_filter. apply filter_ext_elem. intros g Hg.
        split; [by intros [? _]|]. intros Ht. split; [done|]. intros E.
        apply Ht. assert (g = f) as ->; [|done].
        apply (NoDup_fmap_elem folder_id all); auto. apply HL. by left.
      - intros g [_ Hg]%list_elem_of_filter. auto. }
    destruct (deleteSmartFolder (folder_id f) env w) as [[[]|e|] w']; cbn in *.
    + rewrite IH by done. done.
    + done.
    + done.
  - unfold ret at 1. by apply IH.
Qed.

(** X13.  However a regeneration ends, the smart folders that are no
    cluster folders are what they were: it deletes and creates cluster
    folders only (the ids of the folders being distinct, as the ids of a
    table are). *)
Theorem regenerateClusters_keeps_other_folders (numClusters : option JsInt)
    (env : Env) (w : World) :
  NoDup (folder_id <$> smart_folders (store w)) →
  filter (λ f, folder_type f ≠ "cluster")
    (smart_folders (store (regenerateClusters numClusters env w).2))
  = filter (λ f, folder_type f ≠ "cluster") (smart_folders (store w)).
Proof.
  change (NoDup (folder_id <$> smart_folders (store w)) →
          otherFolders (store (regenerateClusters numClusters env w).2)
          = otherFolders (store w)).
  assert (∀ {A B} (m : M A) (k : A → M B),
            keepsView smart_folders m →
            (∀ a env w, NoDup (folder_id <$> smart_folders (store w)) →
               otherFolders (store (k a env w).2) = otherFolders (store w)) →
            ∀ env w, NoDup (folder_id <$> smart_folders (store w)) →
              otherFolders (store (bind m k env w).2) = otherFolders (store w))
    as prefix.
  { intros A B m k Hm Hk env0 w0 Hn. unfold bind. specialize (Hm env0 w0).
    unfold otherFolders in *.
    destruct (m env0 w0) as [[a|e|] w']; cbn in *; [|by rewrite Hm..].
    rewrite Hk by (by rewrite Hm). by rewrite Hm. }
  revert env w.
  intros env w Hn. unfold regenerateClusters, tryCatch.
  match goal with
  | |- context [(bind (log "Starting cluster regeneration...") ?k) env w] =>
    assert (otherFolders (store (bind (log "Starting cluster regeneration...") k env w).2)
            = otherFolders (store w)) as Hbody
  end.
  { revert env w Hn. apply prefix; [apply view_log|]. intros _.
    apply prefix; [apply view_resolveNumClusters|]. intros nc.
    apply prefix; [apply view_query|]. intros entries.
    destruct (length entries <? 3)%nat.
    { intros env w _. done. }
    apply prefix; [apply view_log|]. intros _.
    apply prefix; [apply view_ask|]. intros env'.
    apply prefix; [apply view_lift|]. intros assignments.
    apply prefix; [apply folders_updateEntryClusters|]. intros _ env w Hn.
    unfold bind at 1. unfold getSmartFolders, query, dbCall.
    destruct (dbFails env (dbCalls w)); [done|]. cbn [fst snd].
    set (w1 := afterCall w (store w)).
    pose proof (deleteLoop_keeps_others (smart_folders (store w))
                  (reverse (smart_folders (store w))) env Hn
                  (λ f Hf, proj1 (elem_of_reverse _ _) Hf) w1 (λ g Hg, Hg)) as Hloop.
    unfold bind at 1.
    destruct (forEach _ _ env w1) as [[[]|e|] w2]; cbn [fst snd] in *; [|done|done].
    change (otherFolders (store w)) with (otherFolders (store w1)).
    rewrite <- Hloop.
    assert (keepsView otherFolders
              (do* log "Generating cluster labels..." in
               do* forEach (groupByCluster assignments) createClusterFolder in
               do* setSetting "last_clustering_date" (nowISO env') in
               log "Cluster regeneration complete!")) as Hrest.
    { apply view_bind; [apply view_log|]. intros _.
      apply view_bind; [apply view_forEach, others_createClusterFolder|]. intros _.
      apply view_bind; [by apply view_dbCall|]. intros _. apply view_log. }
    apply Hrest. }
  destruct (bind (log "Starting cluster regeneration...") _ env w) as [[[]|e|] w'];
    cbn in *; done.
Qed.

Lemma regenerateClusters_keeps_other_folders_witness :
  filter (λ f, folder_type f ≠ "cluster")
    (smart_folders
       (store (regenerateClusters None examples.quietEnv examples.folderWorld).2))
  = filter (λ f, folder_type f ≠ "cluster")
      (smart_folders (store examples.folderWorld)).
Proof.
  apply (regenerateClusters_keeps_other_folders None examples.quietEnv
           examples.folderWorld).
  apply (bool_decide_unpack _). by vm_compute.
Defined.

End RegenerateKeeps.

(* ================================================================== *)
(** * embeddingsService: similarity, requests, topics *)
(* ================================================================== *)

Section Symmetry.
Import embeddingsService.

Lemma cosine_fold_swap (a b : list float) (l : list nat) : ∀ d x y,
  fold_left
    (λ '(dotProduct, normA, normB) i,
       (dotProduct + getNum b i * getNum a i,
        normA + getNum b i * getNum b i,
        normB + getNum a i * getNum a i)%float) l (d, y, x)
  = let '(d', x', y') :=
      fold_left
        (λ '(dotProduct, normA, normB) i,
           (dotProduct + getNum a i * getNum b i,
            normA + getNum a i * getNum a i,
            normB + getNum b i * getNum b i)%float) l (d, x, y) in
    (d', y', x').
Proof.
  induction l as [|i l IH]; intros d x y; [done|]. cbn [fold_left].
  rewrite (float_mul_comm (getNum b i) (getNum a i)). apply IH.
Qed.

(** X14.  [cosineSimilarity] is symmetric: the two vectors can be given in
    either order, the result is the same number, in every case (vectors
    that are missing or of different lengths included). *)
Theorem cosineSimilarity_symmetric (a b : option (list float)) :
  cosineSimilarity a b = cosineSimilarity b a.
Proof.
  destruct a as [a|], b as [b|]; try reflexivity. unfold cosineSimilarity.
  rewrite (Nat.eqb_sym (length b) (length a)).
  destruct (Nat.eqb_spec (length a) (length b)) as [E|E]; [|reflexivity].
  cbn [negb]. rewrite <- E. rewrite (cosine_fold_swap a b).
  destruct (fold_left _ (seq 0 (length a)) (0%float, 0%float, 0%float))
    as [[d x] y].
  by rewrite (float_mul_comm (sqrt y) (sqrt x)).
Qed.

End Symmetry.

Section Strings.

Lemma unchars_chars s : unchars (chars s) = s.
Proof. apply string_of_list_ascii_of_string. Qed.

Lemma dropSpaces_head l c : head (dropSpaces l) = Some c → isSpace c = false.
Proof.
  induction l as [|d l IH]; [done|]. cbn. destruct (isSpace d) eqn:E; [done|].
  cbn. intros [= Hd]. by subst.
Qed.

Lemma dropSpaces_fixed l :
  (∀ c, head l = Some c → isSpace c = false) → dropSpaces l = l.
Proof. destruct l as [|d l]; [done|]. intros H. cbn. by rewrite (H d). Qed.

Lemma dropSpaces_suffix l : ∃ sp, l = sp ++ dropSpaces l.
Proof.
  induction l as [|d l [sp IH]]; [by exists []|]. cbn.
  destruct (isSpace d); [|by exists []]. exists (d :: sp). cbn. by f_equal.
Qed.

(** The characters of [s.trim()], and what [trim] leaves at its ends. *)
Lemma chars_trim s :
  chars (trim s) = reverse (dropSpaces (reverse (dropSpaces (chars s)))).
Proof. unfold trim. apply chars_unchars. Qed.

Lemma trim_head s c : head (chars (trim s)) = Some c → isSpace c = false.
Proof.
  rewrite chars_trim.
  destruct (dropSpaces_suffix (reverse (dropSpaces (chars s)))) as [sp E].
  intros H. apply (dropSpaces_head (chars s)).
  assert (dropSpaces (chars s)
          = reverse (dropSpaces (reverse (dropSpaces (chars s)))) ++ reverse sp) as Ea.
  { rewrite <- reverse_app, <- E. by rewrite reverse_involutive. }
  rewrite Ea.
  destruct (reverse (dropSpaces (reverse (dropSpaces (chars s))))); [done|]. exact H.
Qed.

Lemma trim_last s c : head (reverse (chars (trim s))) = Some c → isSpace c = false.
Proof. rewrite chars_trim, reverse_involutive. apply dropSpaces_head. Qed.

Lemma trim_idemp s : trim (trim s) = trim s.
Proof.
  unfold trim at 1. rewrite (dropSpaces_fixed (chars (trim s))) by apply trim_head.
  rewrite (dropSpaces_fixed (reverse (chars (trim s)))) by apply trim_last.
  rewrite reverse_involutive. apply unchars_chars.
Qed.

Lemma trim_elem s c : c ∈ chars (trim s) → c ∈ chars s.
Proof.
  rewrite chars_trim, elem_of_reverse.
  destruct (dropSpaces_suffix (reverse (dropSpaces (chars s)))) as [sp E].
  destruct (dropSpaces_suffix (chars s)) as [sp' E'].
  intros H. rewrite E'. apply elem_of_app. right.
  apply elem_of_reverse. rewrite E. apply elem_of_app. by right.
Qed.

End Strings.

Section Topics.
Import databaseService embeddingsService.

Lemma splitOn_pieces sep l : Forall (λ p, sep ∉ p) (splitOn sep l).
Proof.
  induction l as [|c l IH]; cbn.
  - repeat constructor. by intros ?%elem_of_nil.
  - destruct (decide (c = sep)) as [->|Hne].
    + constructor; [by intros ?%elem_of_nil|done].
    + destruct (splitOn sep l) as [|p rest].
      * repeat constructor. intros [?|?%elem_of_nil]%elem_of_cons; done.
      * apply Forall_cons_1 in IH as [Hp Hrest]. constructor; [|done].
        intros [?|?]%elem_of_cons; done.
Qed.

(** The topics read from a reply: the trimmed pieces that are not empty. *)
Lemma topics_wellformed content :
  Forall (λ t, t ≠ "" ∧ trim t = t ∧ ","%char ∉ chars t)
    (filter (λ t, (0 < length (chars t))%nat) (trim <$> split "," (trim content))).
Proof.
  apply Forall_forall. intros t [Hlen (p & -> & Hp)%list_elem_of_fmap]%list_elem_of_filter.
  split; [|split].
  - intros E. rewrite E in Hlen. cbn in Hlen. lia.
  - apply trim_idemp.
  - intros Hc%trim_elem. unfold split in Hp.
    apply list_elem_of_fmap in Hp as (piece & -> & Hpiece).
    rewrite chars_unchars in Hc.
    pose proof (splitOn_pieces ","%char (chars (trim content))) as Hall.
    rewrite Forall_forall in Hall. by apply (Hall piece).
Qed.

(** X15.  [extractTopics] never throws and writes nothing; it sends at
    most one request; each topic it returns is non-empty, has no white
    space at its ends and contains no comma. *)
Theorem extractTopics_topics (text : string) (env : Env) (w : World) :
  ∃ topics w',
    extractTopics text env w = (Ok topics, w')
    ∧ store w' = store w
    ∧ (httpCalls w' ≤ S (httpCalls w))%nat
    ∧ Forall (λ t, t ≠ "" ∧ trim t = t ∧ ","%char ∉ chars t) topics.
Proof.
  unfold extractTopics, tryCatch, bind, getSetting, query, dbCall, httpCall,
    throw, ret, log.
  destruct (dbFails env (dbCalls w)); cbn [fst snd].
  { eexists _, _. split; [done|]. split; [done|]. split; [cbn; lia|constructor]. }
  destruct (settingOf (store w) "openai_api_key").
  2:{ eexists _, _. split; [done|]. split; [done|]. split; [cbn; lia|constructor]. }
  match goal with
  | |- context [chatReply env ?n ?p] => destruct (chatReply env n p) as [content|]
  end.
  - eexists _, _. split; [done|]. split; [done|]. split; [cbn; lia|].
    apply topics_wellformed.
  - eexists _, _. split; [done|]. split; [done|]. split; [cbn; lia|constructor].
Qed.

(** X16.  Without an API key (the setting missing or empty), or when the
    setting cannot be read, no request is sent: [generateEmbedding]
    throws, [extractTopics] returns no topic and [labelCluster] returns
    the placeholder label. *)
Theorem no_key_no_request (text : string) (samples : list (option Entry))
    (env : Env) (w : World) :
  settingOf (store w) "openai_api_key" = None ∨ dbFails env (dbCalls w) = true →
  (∃ e w1, generateEmbedding text env w = (Throw e, w1) ∧ httpCalls w1 = httpCalls w)
  ∧ (∃ w2, extractTopics text env w = (Ok [], w2) ∧ httpCalls w2 = httpCalls w)
  ∧ (∃ w3, labelCluster samples env w = (Ok "Untitled Topic", w3)
           ∧ httpCalls w3 = httpCalls w).
Proof.
  intros H.
  unfold generateEmbedding, extractTopics, labelCluster, tryCatch, bind, getSetting,
    query, dbCall, throw, ret, log.
  destruct (dbFails env (dbCalls w)); cbn [fst snd].
  { split; [by eexists _, _|]. split; by eexists. }
  destruct H as [-> | ?]; [|done].
  split; [by eexists _, _|]. split; by eexists.
Qed.

Lemma no_key_no_request_witness :
  let w := examples.worldOf (examples.storeOf [] [("openai_api_key", "")]) in
  (∃ e w1, generateEmbedding "a day at work" examples.quietEnv w = (Throw e, w1)
           ∧ httpCalls w1 = httpCalls w)
  ∧ (∃ w2, extractTopics "a day at work" examples.quietEnv w = (Ok [], w2)
           ∧ httpCalls w2 = httpCalls w)
  ∧ (∃ w3, labelCluster [] examples.quietEnv w = (Ok "Untitled Topic", w3)
           ∧ httpCalls w3 = httpCalls w).
Proof.
  apply (no_key_no_request "a day at work" [] examples.quietEnv
           (examples.worldOf (examples.storeOf [] [("openai_api_key", "")]))).
  left. reflexivity.
Defined.

(** X17.  [generateEmbedding] sends the first 8000 characters of the text:
    two texts that agree on them give the same run, with the same request
    and the same result. *)
Theorem generateEmbedding_prefix (text text' : string) (env : Env) (w : World) :
  take (8 * 1000) (chars text) = take (8 * 1000) (chars text') →
  generateEmbedding text env w = generateEmbedding text' env w.
Proof.
  intros H.
  assert ((if ((8 * 1000) <? length (chars text))%nat
           then substring0 (8 * 1000) text else text)
          = (if ((8 * 1000) <? length (chars text'))%nat
             then substring0 (8 * 1000) text' else text')) as E.
  { unfold substring0.
    destruct (Nat.ltb_spec (8 * 1000) (length (chars text))) as [L|L],
      (Nat.ltb_spec (8 * 1000) (length (chars text'))) as [L'|L'].
    - by rewrite H.
    - rewrite H, take_ge by done. apply unchars_chars.
    - rewrite <- H, take_ge by done. symmetry. apply unchars_chars.
    - rewrite !take_ge in H by done.
      rewrite <- (unchars_chars text), <- (unchars_chars text'). by rewrite H. }
  unfold generateEmbedding. cbn zeta. by rewrite E.
Qed.

Lemma generateEmbedding_prefix_witness :
  generateEmbedding (examples.longText "b") examples.quietEnv examples.searchWorld
  = generateEmbedding (examples.longText "c") examples.quietEnv examples.searchWorld.
Proof.
  apply (generateEmbedding_prefix (examples.longText "b") (examples.longText "c")
           examples.quietEnv examples.searchWorld).
  vm_compute. reflexivity.
Defined.

End Topics.

(* ================================================================== *)
(** * searchService: what a search does not do, filters, suggestions *)
(* ================================================================== *)

Section SearchReads.
Import databaseService embeddingsService searchService.

Lemma reads_ask : readsOnly ask.
Proof. done. Qed.

Lemma reads_searchEntries query options : readsOnly (searchEntries query options).
Proof.
  unfold searchEntries. destruct (isBlank query); [apply reads_ret|].
  apply reads_tryCatch.
  - apply reads_bind; [|intros results; apply reads_ret].
    destruct (decide _).
    { apply reads_bind; [apply reads_performSemanticSearch|]. intros r.
      apply reads_ret. }
    destruct (decide _).
    { apply reads_bind; [apply reads_performKeywordSearch|]. intros r.
      apply reads_ret. }
    apply reads_bind; [apply reads_performSemanticSearch|]. intros s.
    apply reads_bind; [apply reads_performKeywordSearch|]. intros k.
    apply reads_ret.
  - intros e. apply reads_bind; [apply reads_log|]. intros _. apply reads_throw.
Qed.

(** X18.  The search service never writes: [searchEntries] (in every
    mode), [searchEntriesWithFilters] and [getSearchSuggestions] come to
    an end and leave every table and setting as it was, whatever fails. *)
Theorem search_never_writes {Topic : Type} `{EqDecision Topic}
    (createdDate : Z → JsDate) (parseTopics : string → option (list Topic))
    (query : string) (filters : Filters) (options : Options) (env : Env)
    (w : World) :
  ((searchEntries query options env w).1 ≠ Diverge
   ∧ store (searchEntries query options env w).2 = store w)
  ∧ ((searchEntriesWithFilters createdDate query filters options env w).1 ≠ Diverge
     ∧ store (searchEntriesWithFilters createdDate query filters options env w).2
       = store w)
  ∧ ((getSearchSuggestions parseTopics env w).1 ≠ Diverge
     ∧ store (getSearchSuggestions parseTopics env w).2 = store w).
Proof.
  split; [apply reads_searchEntries|]. split.
  - revert env w. apply reads_bind; [apply reads_searchEntries|]. intros results.
    apply reads_bind; [apply reads_ask|]. intros env. apply reads_ret.
  - revert env w. apply reads_tryCatch.
    + apply reads_bind; [apply reads_query|]. intros rows.
      destruct (countRows parseTopics rows []); [apply reads_ret|apply reads_throw].
    + intros e. apply reads_bind; [apply reads_log|]. intros _. apply reads_ret.
Qed.

(** X19.  A search in the mode ['keyword'] sends no request and makes at
    most one database call; its outcome is the same whatever the
    providers, the clock and the random numbers are. *)
Theorem keyword_mode_offline (query : string) (options : Options) (env : Env)
    (w : World) :
  mode (mergeConfig options) = JString KEYWORD →
  httpCalls (searchEntries query options env w).2 = httpCalls w
  ∧ (dbCalls (searchEntries query options env w).2 ≤ S (dbCalls w))%nat
  ∧ ∀ env', (∀ n, dbFails env' n = dbFails env n) →
      searchEntries query options env' w = searchEntries query options env w.
Proof.
  intros Hm. unfold searchEntries. destruct (isBlank query) eqn:Hq.
  { split; [done|]. split; [cbn; lia|done]. }
  rewrite Hm. destruct (decide (JString KEYWORD = JString SEMANTIC)) as [?|_]; [done|].
  destruct (decide (JString KEYWORD = JString KEYWORD)) as [_|?]; [|done].
  unfold tryCatch, bind, ret.
  destruct (dbFails env (dbCalls w)) eqn:Hdb.
  - rewrite performKeywordSearch_fails by done.
    split; [done|]. split; [cbn; lia|]. intros env' Henv.
    rewrite performKeywordSearch_fails by (rewrite ?Henv; done). done.
  - rewrite performKeywordSearch_ok by done.
    split; [done|]. split; [cbn; lia|]. intros env' Henv.
    rewrite performKeywordSearch_ok by (rewrite ?Henv; done). done.
Qed.

Lemma keyword_mode_offline_witness :
  let options := withMode noOptions (JString KEYWORD) in
  httpCalls (searchEntries "work" options examples.deadEnv examples.searchWorld).2
  = httpCalls examples.searchWorld
  ∧ (dbCalls (searchEntries "work" options examples.deadEnv examples.searchWorld).2
     ≤ S (dbCalls examples.searchWorld))%nat
  ∧ ∀ env', (∀ n, dbFails env' n = dbFails examples.deadEnv n) →
      searchEntries "work" options env' examples.searchWorld
      = searchEntries "work" options examples.deadEnv examples.searchWorld.
Proof.
  apply (keyword_mode_offline "work" (withMode noOptions (JString KEYWORD))
           examples.deadEnv examples.searchWorld).
  reflexivity.
Defined.

(** X20.  [searchEntriesWithFilters] returns, in their order, the results
    of [searchEntries] that pass every filter that is given: the entry's
    mode is [filters.mode] (an empty mode does not filter), its creation
    date lies in the date range, it has a non-empty name or has none as
    [hasName] says, and its cluster is [filters.clusterId]; without
    filters the results are those of [searchEntries], and an error of
    [searchEntries] is passed on. *)
Theorem searchEntriesWithFilters_filters (createdDate : Z → JsDate)
    (query : string) (filters : Filters) (options : Options) (env : Env)
    (w : World) :
  match searchEntries query options env w with
  | (Ok results, w') =>
    ∃ kept,
      searchEntriesWithFilters createdDate query filters options env w = (Ok kept, w')
      ∧ kept `sublist_of` results
      ∧ (∀ r, r ∈ kept ↔
           r ∈ results
           ∧ (∀ m, f_mode filters = Some m → m ≠ "" → e_mode (entry (result r)) = m)
           ∧ (∀ start finish, f_dateRange filters = Some (start, finish) →
                dateGe (createdDate (e_created_at (entry (result r))))
                  (newDate env start) = true
                ∧ dateGe (newDate env finish)
                    (createdDate (e_created_at (entry (result r)))) = true)
           ∧ (∀ b, f_hasName filters = Some b → (named r ↔ b = true))
           ∧ (∀ c, f_clusterId filters = Some c → e_cluster_id (entry (result r)) = c))
      ∧ (filters = noFilters → kept = results)
  | (Throw e, w') =>
    searchEntriesWithFilters createdDate query filters options env w = (Throw e, w')
  | (Diverge, w') =>
    searchEntriesWithFilters createdDate query filters options env w = (Diverge, w')
  end.
Proof.
  unfold searchEntriesWithFilters, bind.
  destruct (searchEntries query options env w) as [[results|e|] w']; [|done|done].
  unfold ask, ret. destruct filters as [fm fd fn fc].
  cbn [f_mode f_dateRange f_hasName f_clusterId].
  set (r1 := match fm with
             | Some m => if decide (m = "") then results
                         else filter (λ r, e_mode (entry (result r)) = m) results
             | None => results
             end).
  set (r2 := match fd with
             | Some (start, finish) => filter _ r1
             | None => r1
             end).
  set (r3 := match fn with
             | Some true => filter named r2
             | Some false => filter (λ r, ¬ named r) r2
             | None => r2
             end).
  set (r4 := match fc with
             | Some c => filter (λ r, e_cluster_id (entry (result r)) = c) r3
             | None => r3
             end).
  assert (r1 `sublist_of` results
          ∧ ∀ r, r ∈ r1 ↔ r ∈ results
                 ∧ ∀ m, fm = Some m → m ≠ "" → e_mode (entry (result r)) = m)
    as [S1 E1].
  { unfold r1. destruct fm as [m|].
    - destruct (decide (m = "")) as [->|Hm].
      + split; [done|]. intros r. split; [|tauto]. intros H. split; [done|].
        by intros m' [= <-].
      + split; [apply sublist_filter|]. intros r. rewrite list_elem_of_filter. split.
        * intros [H1 H2]. split; [done|]. by intros m' [= <-] _.
        * intros [H1 H2]. split; [|done]. by apply H2.
    - split; [done|]. intros r. split; [|tauto]. intros H. by split. }
  assert (r2 `sublist_of` r1
          ∧ ∀ r, r ∈ r2 ↔ r ∈ r1
                 ∧ ∀ start finish, fd = Some (start, finish) →
                     dateGe (createdDate (e_created_at (entry (result r))))
                       (newDate env start) = true
                     ∧ dateGe (newDate env finish)
                         (createdDate (e_created_at (entry (result r)))) = true)
    as [S2 E2].
  { unfold r2. destruct fd as [[start finish]|].
    - split; [apply sublist_filter|]. intros r. rewrite list_elem_of_filter. split.
      + intros [H1 H2]. split; [done|]. intros s f [= <- <-].
        by apply andb_true_iff in H1.
      + intros [H1 H2]. split; [|done]. apply andb_true_iff. by apply H2.
    - split; [done|]. intros r. split; [|tauto]. intros H. by split. }
  assert (r3 `sublist_of` r2
          ∧ ∀ r, r ∈ r3 ↔ r ∈ r2 ∧ ∀ b, fn = Some b → (named r ↔ b = true))
    as [S3 E3].
  { unfold r3. destruct fn as [[]|].
    - split; [apply sublist_filter|]. intros r. rewrite list_elem_of_filter. split.
      + intros [H1 H2]. split; [done|]. by intros b [= <-].
      + intros [H1 H2]. split; [|done]. by apply (H2 true).
    - split; [apply sublist_filter|]. intros r. rewrite list_elem_of_filter. split.
      + intros [H1 H2]. split; [done|]. intros b [= <-]. split; [done|done].
      + intros [H1 H2]. split; [|done]. intros Hn. by apply (H2 false) in Hn.
    - split; [done|]. intros r. split; [|tauto]. intros H. by split. }
  assert (r4 `sublist_of` r3
          ∧ ∀ r, r ∈ r4 ↔ r ∈ r3
                 ∧ ∀ c, fc = Some c → e_cluster_id (entry (result r)) = c)
    as [S4 E4].
  { unfold r4. destruct fc as [c|].
    - split; [apply sublist_filter|]. intros r. rewrite list_elem_of_filter. split.
      + intros [H1 H2]. split; [done|]. by intros c' [= <-].
      + intros [H1 H2]. split; [|done]. by apply H2.
    - split; [done|]. intros r. split; [|tauto]. intros H. by split. }
  exists r4. split; [done|]. split.
  { by repeat (etrans; [eassumption|]). }
  split.
  { intros r. rewrite E4, E3, E2, E1. tauto. }
  intros [= -> -> -> ->]. done.
Qed.

End SearchReads.

Section SuggestionCounts.
Import databaseService searchService.
Context {Topic : Type} `{EqDecision Topic}.
Variable parseTopics : string → option (list Topic).

Lemma countOf_setCount (m : list (Topic * Z)) t n x :
  countOf (setCount m t n) x = if decide (x = t) then Some n else countOf m x.
Proof.
  induction m as [|[t' n'] m IH]; cbn.
  - by destruct (decide (x = t)).
  - destruct (decide (t = t')) as [->|Hne]; cbn.
    + by destruct (decide (x = t')).
    + destruct (decide (x = t')) as [->|Hx]; [by rewrite decide_False|]. apply IH.
Qed.

Lemma countOf_None (m : list (Topic * Z)) x : countOf m x = None ↔ x ∉ m.*1.
Proof.
  induction m as [|[t' n'] m IH]; cbn.
  - split; [intros _ ?%elem_of_nil; done|done].
  - rewrite not_elem_of_cons. destruct (decide (x = t')) as [->|Hx]; [|tauto].
    split; [done|]. by intros [? _].
Qed.

Lemma countOf_elem (m : list (Topic * Z)) x n :
  NoDup m.*1 → (x, n) ∈ m → countOf m x = Some n.
Proof.
  induction m as [|[t' n'] m IH]; [by intros _ ?%elem_of_nil|]. cbn.
  intros [Ht Hm]%NoDup_cons [[= -> ->]|Hin]%elem_of_cons.
  - by rewrite decide_True.
  - destruct (decide (x = t')) as [->|Hx]; [|by apply IH].
    exfalso. apply Ht. apply list_elem_of_fmap. by exists (t', n).
Qed.

Lemma setCount_keys (m : list (Topic * Z)) t n :
  (setCount m t n).*1 = if decide (t ∈ m.*1) then m.*1 else m.*1 ++ [t].
Proof.
  induction m as [|[t' n'] m IH]; cbn.
  - rewrite decide_False; [done|]. by intros ?%elem_of_nil.
  - destruct (decide (t = t')) as [->|Hne]; cbn.
    + rewrite decide_True; [done|]. by left.
    + rewrite IH. destruct (decide (t ∈ m.*1)) as [Hin|Hin].
      * rewrite decide_True; [done|]. by right.
      * rewrite decide_False; [done|]. by intros [?|?]%elem_of_cons.
Qed.

(** The counts after a stream of topics has gone through the [Map]: one
    key for each topic seen, with the number of times it was seen. *)
Lemma countTopic_fold (topics : list Topic) : ∀ (m : list (Topic * Z)) (seen : list Topic),
  NoDup m.*1 →
  (∀ x, x ∈ m.*1 ↔ x ∈ seen) →
  (∀ x, default 0 (countOf m x) = Z.of_nat (length (filter (λ y, y = x) seen))) →
  let m' := fold_left countTopic topics m in
  NoDup m'.*1
  ∧ (∀ x, x ∈ m'.*1 ↔ x ∈ seen ++ topics)
  ∧ (∀ x, default 0 (countOf m' x)
          = Z.of_nat (length (filter (λ y, y = x) (seen ++ topics)))).
Proof.
  induction topics as [|t topics IH]; intros m seen Hn Hk Hc.
  - cbn. rewrite app_nil_r. by split.
  - cbn [fold_left].
    replace (seen ++ t :: topics) with ((seen ++ [t]) ++ topics)
      by (by rewrite <- app_assoc).
    apply IH.
    + unfold countTopic. rewrite setCount_keys.
      destruct (decide (t ∈ m.*1)) as [Hin|Hin]; [done|].
      apply NoDup_app. split; [done|]. split; [|apply NoDup_singleton].
      intros x Hx ->%list_elem_of_singleton. done.
    + intros x. unfold countTopic. rewrite setCount_keys, elem_of_app,
        list_elem_of_singleton.
      destruct (decide (t ∈ m.*1)) as [Hin|Hin].
      * rewrite Hk. split; [by left|]. intros [?| ->]; [done|]. by apply Hk.
      * rewrite elem_of_app, list_elem_of_singleton, Hk. done.
    + intros x. unfold countTopic. rewrite countOf_setCount.
      rewrite filter_app, length_app.
      destruct (decide (x = t)) as [->|Hx].
      * rewrite filter_cons_True by done. cbn. rewrite Hc. lia.
      * rewrite filter_cons_False by (intros ->; done). cbn. rewrite Hc. lia.
Qed.

(** The loop over the rows stops at the first text that cannot be
    parsed, and otherwise counts the topics of all the rows. *)
Lemma countRows_spec (rows : list string) : ∀ m,
  countRows parseTopics rows m
  = if decide (Forall (λ text, text ≠ "" → is_Some (parseTopics text)) rows)
    then Some (fold_left countTopic
                 (text ← filter (λ text, text ≠ "") rows; default [] (parseTopics text))
                 m)
    else None.
Proof.
  induction rows as [|text rows IH]; intros m; [done|]. cbn [countRows].
  destruct (decide (text = "")) as [->|Hne].
  - rewrite IH. rewrite filter_cons_False by (intros H'; by apply H').
    destruct (decide (Forall _ rows)) as [Hall|Hall].
    + rewrite decide_True; [done|]. by constructor.
    + rewrite decide_False; [done|]. by intros [_ ?]%Forall_cons_1.
  - rewrite filter_cons_True by done. cbn [mbind list_bind].
    destruct (parseTopics text) as [topics|] eqn:E.
    + rewrite IH, fold_left_app. cbn [default].
      destruct (decide (Forall _ rows)) as [Hall|Hall].
      * rewrite decide_True; [done|]. constructor; [|done]. intros _. by rewrite E.
      * rewrite decide_False; [done|]. by intros [_ ?]%Forall_cons_1.
    + rewrite decide_False; [done|]. intros [Hp _]%Forall_cons_1.
      specialize (Hp Hne). rewrite E in Hp. by destruct Hp.
Qed.

(** X21.  [getSearchSuggestions] never throws.  It returns at most ten
    topics, each once; when the rows are read and every topics text is
    parsed, these are topics of the (at most 50) rows read, more frequent
    ones first, and a topic that is left out is no more frequent than any
    that is returned.  When the read fails, or one text cannot be parsed
    as an array, it returns no suggestion at all. *)
Theorem getSearchSuggestions_suggests (env : Env) (w : World) :
  let rows := filter (λ text, text ≠ "") (topicRows (store w)) in
  let all := text ← rows; default [] (parseTopics text) in
  let occ t := length (filter (λ x, x = t) all) in
  ∃ suggestions w',
    getSearchSuggestions parseTopics env w = (Ok suggestions, w')
    ∧ (length suggestions ≤ 10)%nat
    ∧ NoDup suggestions
    ∧ (dbFails env (dbCalls w) = true
       ∨ (∃ text, text ∈ rows ∧ parseTopics text = None) →
       suggestions = [])
    ∧ (dbFails env (dbCalls w) = false →
       (∀ text, text ∈ rows → is_Some (parseTopics text)) →
       (∀ t, t ∈ suggestions → t ∈ all)
       ∧ (∀ t, t ∈ all → t ∈ suggestions ∨ length suggestions = 10%nat)
       ∧ (∀ i j a b, suggestions !! i = Some a → suggestions !! j = Some b →
            (i < j)%nat → (occ b ≤ occ a)%nat)
       ∧ (∀ t s, t ∈ all → t ∉ suggestions → s ∈ suggestions →
            (occ t ≤ occ s)%nat)).
Proof.
  intros rows all occ. unfold getSearchSuggestions, tryCatch.
  destruct (dbFails env (dbCalls w)) eqn:Hdb.
  { unfold bind, query. rewrite dbCall_fails by done.
    eexists _, _. split; [done|]. cbn. split; [lia|]. split; [constructor|].
    split; [done|]. done. }
  rewrite (bind_ok _ _ _ _ _ _ (query_runs _ env w Hdb)).
  rewrite countRows_spec. fold rows all.
  destruct (decide (Forall _ (topicRows (store w)))) as [Hall|Hall].
  2:{ eexists _, _. split; [done|]. cbn. split; [lia|]. split; [constructor|].
      split; [done|]. intros _ Hok. exfalso. apply Hall. apply Forall_forall.
      intros text Hin Hne. apply Hok. by apply list_elem_of_filter. }
  destruct (countTopic_fold all [] []) as (Hn & Hk & Hc).
  { constructor. } { done. } { done. }
  cbn [app] in Hn, Hk, Hc.
  set (m := fold_left countTopic all []) in *.
  set (sorted := stableSort (λ a b : Topic * Z, 0 <? b.2 - a.2) m).
  assert (sorted ≡ₚ m) as Hperm by apply stableSort_perm.
  assert (StronglySorted (λ a b : Topic * Z, b.2 ≤ a.2) sorted) as Hsorted.
  { apply (stableSort_sorted _ (λ _, True)); [| | |by apply Forall_true].
    - intros x y _ _ Hxy. lia.
    - intros x y _ _ Hxy. lia.
    - intros x y z _ _ _. lia. }
  assert (∀ p, p ∈ sorted → p.2 = Z.of_nat (occ p.1)) as Hocc.
  { intros [t n] Hp. rewrite Hperm in Hp. cbn.
    pose proof (Hc t) as Ht. rewrite (countOf_elem m t n Hn Hp) in Ht. done. }
  eexists _, _. split; [done|].
  split; [rewrite length_fmap, length_take; lia|].
  split.
  { eapply sublist_NoDup; [|apply fmap_sublist, sublist_take]. by rewrite Hperm. }
  split.
  { intros [?|(text & Hin & Hnone)]; [done|]. exfalso.
    apply list_elem_of_filter in Hin as [Hne Hin].
    rewrite Forall_forall in Hall. specialize (Hall text Hin Hne).
    rewrite Hnone in Hall. by destruct Hall. }
  intros _ _. split; [|split; [|split]].
  - intros t (p & -> & Hp)%list_elem_of_fmap.
    apply Hk. rewrite <- Hperm. apply list_elem_of_fmap_2.
    eapply elem_of_sublist; [exact Hp|apply sublist_take].
  - intros t Ht. apply Hk in Ht. rewrite <- Hperm in Ht.
    destruct (decide (length sorted ≤ 10)%nat) as [Hle|Hgt].
    + left. by rewrite take_ge.
    + right. rewrite length_fmap, length_take. lia.
  - intros i j a b Hi Hj Hij.
    apply list_lookup_fmap_Some in Hi as (pa & -> & Hi).
    apply list_lookup_fmap_Some in Hj as (pb & -> & Hj).
    apply lookup_take_Some in Hi as [Hi _]. apply lookup_take_Some in Hj as [Hj _].
    pose proof (sorted_lookup _ _ _ _ _ _ Hsorted Hi Hj Hij) as Hord. cbn in Hord.
    rewrite (Hocc pa), (Hocc pb) in Hord by (by eapply list_elem_of_lookup_2). lia.
  - intros t s Ht Hnot (ps & -> & Hps)%list_elem_of_fmap.
    apply Hk in Ht. rewrite <- Hperm in Ht.
    apply list_elem_of_fmap in Ht as (pt & -> & Hpt).
    rewrite <- (take_drop 10 sorted) in Hpt, Hsorted.
    apply elem_of_app in Hpt as [Hpt|Hpt].
    { exfalso. apply Hnot. by apply list_elem_of_fmap_2. }
    pose proof (StronglySorted_app_1_elem_of _ _ _ _ _ Hsorted Hps Hpt) as Hord.
    cbn in Hord.
    rewrite (Hocc ps), (Hocc pt) in Hord; [lia| |].
    + rewrite <- (take_drop 10 sorted). apply elem_of_app. by right.
    + rewrite <- (take_drop 10 sorted). apply elem_of_app. by left.
Qed.

End SuggestionCounts.

(* ================================================================== *)
(** * The callers: the background step and the status check *)
(* ================================================================== *)

Section Callers.
Import databaseService embeddingsService clusteringService homeScreen
  backfillEmbeddings.

Lemma reads_extractTopics text : readsOnly (extractTopics text).
Proof.
  apply reads_tryCatch.
  - apply reads_bind; [apply reads_query|]. intros [key|]; [|apply reads_throw].
    apply reads_bind; [apply reads_httpCall|]. intros content. apply reads_ret.
  - intros e. apply reads_bind; [apply reads_log|]. intros _. apply reads_ret.
Qed.

Lemma reads_shouldTriggerClustering : readsOnly shouldTriggerClustering.
Proof.
  apply reads_tryCatch.
  - apply reads_bind; [apply reads_query|]. intros last.
    apply reads_bind; [apply reads_query|]. intros threshold.
    destruct last as [last|].
    + apply reads_bind; [apply reads_query|]. intros entries.
      apply reads_bind; [apply reads_ask|]. intros env. apply reads_ret.
    + apply reads_bind; [apply reads_query|]. intros entries. apply reads_ret.
  - intros e. apply reads_bind; [apply reads_log|]. intros _. apply reads_ret.
Qed.

Lemma view_compose {A X Y} (view : Store → X) (g : X → Y) (m : M A) :
  keepsView view m → keepsView (λ s, g (view s)) m.
Proof. intros Hm env w. by rewrite Hm. Qed.

Lemma others_updateJournalEntry (i : Z) (u : Updates) :
  keepsView (λ s, filter (λ e, e_id e ≠ i) (journal_entries s))
    (updateJournalEntry i u).
Proof.
  unfold updateJournalEntry. destruct (hasUpdates u).
  - apply view_dbCall. intros s. cbn.
    induction (journal_entries s) as [|e es IH]; [done|]. cbn [fmap list_fmap].
    rewrite !filter_cons. destruct (decide (e_id e = i)) as [E|E].
    + rewrite decide_False by (cbn; by intros H'). rewrite decide_False by (by intros H').
      exact IH.
    + rewrite !decide_True by done. by rewrite IH.
  - apply view_bind; [by apply view_dbCall|]. intros _. apply view_throw.
Qed.

Lemma withoutCluster_filter (i : Z) (es : list Entry) :
  withoutCluster <$> filter (λ e, e_id e ≠ i) es
  = filter (λ e, e_id e ≠ i) (withoutCluster <$> es).
Proof.
  induction es as [|e es IH]; [done|]. cbn [fmap list_fmap]. rewrite !filter_cons.
  cbn [withoutCluster e_id]. destruct (decide (e_id e ≠ i)); cbn; by rewrite IH.
Qed.

(** X22.  The background step after an entry is saved never throws; it
    leaves every other entry as it was, apart from its [cluster_id]; and
    when the embedding cannot be generated it writes nothing at all. *)
Theorem generateEmbeddingAndTopics_background (entryId : Z) (text : string)
    (env : Env) (w : World) :
  (∀ e, (generateEmbeddingAndTopics entryId text env w).1 ≠ Throw e)
  ∧ withoutCluster
      <$> filter (λ e, e_id e ≠ entryId)
            (journal_entries (store (generateEmbeddingAndTopics entryId text env w).2))
    = withoutCluster <$> filter (λ e, e_id e ≠ entryId) (journal_entries (store w))
  ∧ (dbFails env (dbCalls w) = true
     ∨ settingOf (store w) "openai_api_key" = None
     ∨ (∀ t, embeddingReply env (httpCalls w) t = None) →
     (generateEmbeddingAndTopics entryId text env w).1 = Ok tt
     ∧ store (generateEmbeddingAndTopics entryId text env w).2 = store w).
Proof.
  split; [|split].
  - intros e. unfold generateEmbeddingAndTopics, tryCatch.
    destruct (bind _ _ env w) as [[[]|e'|] w']; done.
  - revert env w.
    change (keepsView (λ s, withoutCluster <$> filter (λ e, e_id e ≠ entryId)
                                                 (journal_entries s))
              (generateEmbeddingAndTopics entryId text)).
    apply view_tryCatch; [|intros e; apply view_log].
    apply view_bind; [apply view_log|]. intros _.
    apply view_bind; [apply view_reads, reads_generateEmbedding|]. intros embedding.
    apply view_bind.
    { apply (view_compose _ (fmap withoutCluster)), others_updateJournalEntry. }
    intros _. apply view_bind; [apply view_reads, reads_extractTopics|]. intros topics.
    apply view_bind.
    { apply (view_compose _ (fmap withoutCluster)), others_updateJournalEntry. }
    intros _. apply view_bind; [apply view_log|]. intros _.
    apply view_bind; [apply view_reads, reads_shouldTriggerClustering|].
    intros [|]; [|apply view_ret].
    apply view_bind; [apply view_log|]. intros _.
    intros env w. rewrite !withoutCluster_filter.
    pose proof (contents_regenerateClusters None env w) as Hc.
    unfold entryContents in Hc. by rewrite Hc.
  - intros Hcause.
    unfold generateEmbeddingAndTopics, generateEmbedding, tryCatch, bind, log,
      getSetting, query, dbCall, httpCall, throw.
    cbn [dbCalls logged store httpCalls fst snd].
    destruct (dbFails env (dbCalls w)); [done|]. cbn [fst snd].
    destruct (settingOf (store w) "openai_api_key"); [|done].
    destruct Hcause as [?|[?|Hreply]]; [done|done|].
    cbn [httpCalls afterCall logged]. by rewrite Hreply.
Qed.

Lemma length_filter_split {A} (P : A → Prop) `{!∀ x, Decision (P x)} (l : list A) :
  (length (filter P l) + length (filter (λ x, ¬ P x) l) = length l)%nat.
Proof.
  induction l as [|x l IH]; [done|]. rewrite !filter_cons.
  destruct (decide (P x)).
  - rewrite decide_False by tauto. cbn. lia.
  - rewrite decide_True by done. cbn. lia.
Qed.

(** X23.  [checkEmbeddingStatus] counts every entry once: the entries with
    an embedding and those without add up to the total, which is the
    number of journal entries; it writes nothing. *)
Theorem checkEmbeddingStatus_counts (env : Env) (w : World) :
  dbFails env (dbCalls w) = false →
  ∃ status w',
    checkEmbeddingStatus env w = (Ok status, w')
    ∧ (withEmbeddings status + withoutEmbeddings status = total status)%nat
    ∧ total status = length (journal_entries (store w))
    ∧ withEmbeddings status
      = length (filter (λ e, is_Some (e_embedding e)) (journal_entries (store w)))
    ∧ store w' = store w.
Proof.
  intros Hdb. unfold checkEmbeddingStatus, getJournalEntries.
  rewrite (bind_ok _ _ _ _ _ _ (query_runs _ env w Hdb)).
  eexists _, _. split; [done|]. cbn.
  split; [apply length_filter_split|].
  split; [by rewrite newestFirst_perm|].
  split; [by rewrite newestFirst_perm|done].
Qed.

Lemma checkEmbeddingStatus_counts_witness :
  ∃ status w',
    checkEmbeddingStatus examples.quietEnv examples.searchWorld = (Ok status, w')
    ∧ (withEmbeddings status + withoutEmbeddings status = total status)%nat
    ∧ total status = length (journal_entries (store examples.searchWorld))
    ∧ withEmbeddings status
      = length (filter (λ e, is_Some (e_embedding e))
                  (journal_entries (store examples.searchWorld)))
    ∧ store w' = store examples.searchWorld.
Proof.
  apply (checkEmbeddingStatus_counts examples.quietEnv examples.searchWorld).
  reflexivity.
Defined.

End Callers.

(* ================================================================== *)
(** * The backfill of embeddings *)
(* ================================================================== *)

Section Backfill.
Import databaseService embeddingsService clusteringService backfillEmbeddings.

(** ** Pointwise rules *)

Lemma tryCatch_bind_ok {A B} (m : M A) (k : A → M B) (h : Err → M B) env w a w' :
  m env w = (Ok a, w') → tryCatch (bind m k) h env w = tryCatch (k a) h env w'.
Proof. unfold tryCatch, bind. by intros ->. Qed.

Lemma tryCatch_ok {A} (m : M A) (h : Err → M A) env w a w' :
  m env w = (Ok a, w') → tryCatch m h env w = (Ok a, w').
Proof. unfold tryCatch. by intros ->. Qed.

Lemma bind_inv {A B} (m : M A) (k : A → M B) env w b :
  (bind m k env w).1 = Ok b →
  ∃ a w', m env w = (Ok a, w') ∧ (k a env w').1 = Ok b.
Proof.
  unfold bind. destruct (m env w) as [[a|e|] w']; [|done|done].
  intros H. by exists a, w'.
Qed.

Lemma tryCatch_rethrow_inv {A} (m : M A) (h : Err → M unit) env w a :
  (tryCatch m (λ error, do* h error in throw error) env w).1 = Ok a →
  (m env w).1 = Ok a.
Proof.
  unfold tryCatch, bind, throw. destruct (m env w) as [[a'|e|] w']; [done| |done].
  by destruct (h e env w') as [[[]|e'|] w''].
Qed.

Lemma view_at_bind {X A B} (view : Store → X) (m : M A) (k : A → M B) env w x :
  view (store (m env w).2) = x →
  (∀ a w', m env w = (Ok a, w') → view (store (k a env w').2) = x) →
  view (store (bind m k env w).2) = x.
Proof.
  intros Hm Hk. unfold bind. destruct (m env w) as [[a|e|] w']; [|done|done].
  by apply Hk.
Qed.

Lemma view_at_tryCatch {X A} (view : Store → X) (m : M A) (h : Err → M A) env w x :
  view (store (m env w).2) = x → (∀ e, keepsView view (h e)) →
  view (store (tryCatch m h env w).2) = x.
Proof.
  intros Hm Hh. unfold tryCatch. destruct (m env w) as [[a|e|] w']; [done| |done].
  by rewrite Hh.
Qed.

Lemma view_at_keeps {X A} (view : Store → X) (m : M A) env w x :
  view (store w) = x → keepsView view m → view (store (m env w).2) = x.
Proof. intros Hw Hm. by rewrite Hm. Qed.

(** ** The entries a backfill leaves alone *)

Lemma withoutCluster_filter_id (P : Z → Prop) `{!∀ i, Decision (P i)}
    (es : list Entry) :
  withoutCluster <$> filter (λ e, P (e_id e)) es
  = filter (λ e, P (e_id e)) (withoutCluster <$> es).
Proof.
  induction es as [|e es IH]; [done|]. cbn [fmap list_fmap]. rewrite !filter_cons.
  cbn [withoutCluster e_id]. destruct (decide (P (e_id e))); cbn; by rewrite IH.
Qed.

Lemma outside_updateJournalEntry (ids : list Z) (i : Z) (u : Updates) :
  i ∈ ids → keepsView (contentsOutside ids) (updateJournalEntry i u).
Proof.
  intros Hi env w. unfold contentsOutside, entryContents.
  pose proof (withoutCluster_filter_id (λ j, j ∉ ids)) as Hc. cbn beta in Hc.
  rewrite <- !Hc. f_equal.
  revert env w.
  change (keepsView (λ s, filter (λ e, e_id e ∉ ids) (journal_entries s))
            (updateJournalEntry i u)).
  unfold updateJournalEntry. destruct (hasUpdates u).
  - apply view_dbCall. intros s. cbn.
    induction (journal_entries s) as [|e es IH]; [done|]. cbn [fmap list_fmap].
    rewrite !filter_cons. destruct (decide (e_id e = i)) as [E|E].
    + rewrite decide_False by (cbn; rewrite E; tauto).
      rewrite decide_False by (rewrite E; tauto). exact IH.
    + destruct (decide (e_id e ∉ ids)); by rewrite IH.
  - apply view_bind; [by apply view_dbCall|]. intros _. apply view_throw.
Qed.

Lemma outside_regenerateClusters (ids : list Z) numClusters :
  keepsView (contentsOutside ids) (regenerateClusters numClusters).
Proof.
  intros env w. unfold contentsOutside.
  by rewrite (contents_regenerateClusters numClusters env w).
Qed.

Lemma outside_progress (ids : list Z) onProgress message p :
  keepsEntries onProgress →
  keepsView (contentsOutside ids) (progress onProgress message p).
Proof.
  intros Hcb. unfold progress. destruct onProgress as [callback|]; [|apply view_ret].
  intros env w. unfold contentsOutside, entryContents.
  by rewrite (Hcb callback eq_refl message p env w).
Qed.

Lemma outside_backfillEntry (ids : list Z) onProgress total processed entry :
  keepsEntries onProgress → e_id entry ∈ ids →
  keepsView (contentsOutside ids) (backfillEntry onProgress total processed entry).
Proof.
  intros Hcb Hi. unfold backfillEntry. apply view_bind.
  - apply view_tryCatch.
    + destruct (decide (textOf entry = "")).
      * apply view_bind; [apply view_log|]. intros _. apply view_ret.
      * apply view_bind; [apply view_log|]. intros _.
        apply view_bind; [apply view_reads, reads_generateEmbedding|]. intros embedding.
        apply view_bind; [by apply outside_updateJournalEntry|]. intros _.
        apply view_bind; [apply view_reads, reads_extractTopics|]. intros topics.
        apply view_bind; [by apply outside_updateJournalEntry|]. intros _.
        apply view_ret.
    + intros e. apply view_bind; [apply view_log|]. intros _. apply view_ret.
  - intros [|]; [|apply view_ret].
    apply view_bind; [|intros _; apply view_ret].
    apply view_tryCatch; [|intros e; apply view_log].
    apply view_bind; [apply view_log|]. intros _. by apply outside_progress.
Qed.

Lemma outside_backfillLoop (ids : list Z) onProgress total entries processed :
  keepsEntries onProgress → (∀ e, e ∈ entries → e_id e ∈ ids) →
  keepsView (contentsOutside ids) (backfillLoop onProgress total entries processed).
Proof.
  intros Hcb. revert processed.
  induction entries as [|entry rest IH]; intros processed Hids; [apply view_ret|].
  cbn [backfillLoop]. apply view_bind.
  - apply outside_backfillEntry; [done|]. apply Hids, list_elem_of_here.
  - intros p. apply IH. intros e He. by apply Hids, list_elem_of_further.
Qed.

(** ** The count *)

Lemma backfillEntry_count onProgress total processed entry env w p :
  (backfillEntry onProgress total processed entry env w).1 = Ok p →
  p = processed ∨ p = S processed.
Proof.
  unfold backfillEntry. intros H.
  apply bind_inv in H as ([|] & w1 & _ & H).
  - apply bind_inv in H as ([] & w2 & _ & H). cbn in H. right. congruence.
  - cbn in H. left. congruence.
Qed.

Lemma backfillLoop_count onProgress total entries processed env w p :
  (backfillLoop onProgress total entries processed env w).1 = Ok p →
  (processed ≤ p ≤ processed + length entries)%nat.
Proof.
  revert processed w. induction entries as [|entry rest IH]; intros processed w H.
  - cbn in H. injection H as <-. cbn. lia.
  - cbn [backfillLoop] in H. apply bind_inv in H as (p1 & w1 & H1 & H).
    apply IH in H. apply (f_equal fst) in H1. apply backfillEntry_count in H1.
    cbn [length]. lia.
Qed.

Lemma lacking_newestFirst (es : list Entry) :
  filter (λ e, ¬ is_Some (e_embedding e)) (newestFirst es)
  ≡ₚ filter (λ e, ¬ is_Some (e_embedding e)) es.
Proof. by rewrite newestFirst_perm. Qed.

(** X24.  Without an entry that lacks an embedding the backfill returns
    at once: it has read the entries, and has sent no request, written
    nothing and regenerated no cluster. *)
Theorem backfillEmbeddings_nothing_to_do (env : Env) (w : World) :
  dbFails env (dbCalls w) = false →
  Forall (λ e, is_Some (e_embedding e)) (journal_entries (store w)) →
  ∃ w', backfillEmbeddings None env w = (Ok None, w')
    ∧ store w' = store w
    ∧ httpCalls w' = httpCalls w
    ∧ dbCalls w' = S (dbCalls w).
Proof.
  intros Hdb Hall.
  assert (filter (λ e, ¬ is_Some (e_embedding e)) (newestFirst (journal_entries (store w)))
          = []) as Hnone.
  { apply Permutation_nil_r. rewrite lacking_newestFirst.
    induction Hall as [|e es He _ IH]; [done|].
    rewrite filter_cons, decide_False by tauto. by rewrite IH. }
  unfold backfillEmbeddings.
  rewrite (tryCatch_bind_ok _ _ _ env w tt (logged w "Starting embedding backfill..."))
    by done.
  unfold getJournalEntries. cbn beta.
  rewrite (tryCatch_bind_ok _ _ _ _ _ _ _
             (query_runs _ env (logged w "Starting embedding backfill...") Hdb)).
  cbn [store logged]. rewrite Hnone. cbn. eexists. done.
Qed.

Lemma backfillEmbeddings_nothing_to_do_witness :
  ∃ w', backfillEmbeddings None examples.quietEnv examples.hugeWorld = (Ok None, w')
    ∧ store w' = store examples.hugeWorld
    ∧ httpCalls w' = httpCalls examples.hugeWorld
    ∧ dbCalls w' = S (dbCalls examples.hugeWorld).
Proof.
  apply (backfillEmbeddings_nothing_to_do examples.quietEnv examples.hugeWorld).
  - reflexivity.
  - repeat constructor; by eexists.
Defined.

(** X25.  A backfill whose callback leaves the journal entries alone
    writes only to the entries that lacked an embedding: every entry
    with another id keeps its contents, whatever fails on the way.  When
    it returns its counts, [total] is the number of entries that lacked
    an embedding, and [processed] is at most [total]. *)
Theorem backfillEmbeddings_keeps_embedded
    (onProgress : option (string → Z → M unit)) (env : Env) (w : World) :
  keepsEntries onProgress →
  let lacking :=
    filter (λ e, ¬ is_Some (e_embedding e)) (journal_entries (store w)) in
  contentsOutside (e_id <$> lacking) (store (backfillEmbeddings onProgress env w).2)
  = contentsOutside (e_id <$> lacking) (store w)
  ∧ ∀ processed total,
      (backfillEmbeddings onProgress env w).1 = Ok (Some (processed, total)) →
      total = length lacking ∧ (processed ≤ total)%nat ∧ (0 < total)%nat.
Proof.
  intros Hcb lacking.
  set (ids := e_id <$> lacking).
  set (found := filter (λ e, ¬ is_Some (e_embedding e))
                  (newestFirst (journal_entries (store w)))).
  assert (found ≡ₚ lacking) as Hperm by apply lacking_newestFirst.
  assert (∀ e, e ∈ found → e_id e ∈ ids) as Hids.
  { intros e He. apply list_elem_of_fmap. exists e. by rewrite <- Hperm. }
  assert (∀ total : nat, keepsView (contentsOutside ids)
            (let* processed := backfillLoop onProgress (length found) found 0 in
             do* log "Backfill complete! Now regenerating clusters..." in
             do* progress onProgress "Generating clusters..." 95 in
             do* regenerateClusters None in
             do* log "All done!" in
             do* progress onProgress "Complete!" 100 in
             ret (Some (processed, total)))) as Hrest.
  { intros total.
    apply view_bind; [by apply outside_backfillLoop|]. intros processed.
    apply view_bind; [apply view_log|]. intros _.
    apply view_bind; [by apply outside_progress|]. intros _.
    apply view_bind; [apply outside_regenerateClusters|]. intros _.
    apply view_bind; [apply view_log|]. intros _.
    apply view_bind; [by apply outside_progress|]. intros _. apply view_ret. }
  unfold backfillEmbeddings. split.
  - apply view_at_tryCatch;
      [|intros e; apply view_bind; [apply view_log|]; intros _; apply view_throw].
    apply view_at_bind; [done|]. intros [] w1 Hlog. cbv [log] in Hlog.
    injection Hlog as <-.
    apply view_at_bind; [apply (view_query _ _ env (logged w _))|].
    intros entries w2 Hq. unfold getJournalEntries, query, dbCall in Hq.
    destruct (dbFails env (dbCalls _)); [done|]. injection Hq as <- <-.
    cbn [store logged fst snd]. fold found.
    apply view_at_keeps; [done|].
    apply view_bind; [apply view_log|]. intros _.
    destruct (length found =? 0)%nat; [|apply Hrest].
    apply view_bind; [apply view_log|]. intros _.
    apply view_bind; [by apply outside_progress|]. intros _. apply view_ret.
  - intros processed total Hret.
    apply (tryCatch_rethrow_inv _ (λ _, log "Error in backfill process:")) in Hret.
    apply bind_inv in Hret as ([] & w1 & Hlog & Hret). cbv [log] in Hlog.
    injection Hlog as <-.
    apply bind_inv in Hret as (entries & w2 & Hq & Hret).
    unfold getJournalEntries, query, dbCall in Hq.
    destruct (dbFails env (dbCalls _)); [done|]. injection Hq as <- <-.
    cbn [store logged fst snd] in Hret. fold found in Hret.
    apply bind_inv in Hret as ([] & w3 & _ & Hret).
    destruct (length found =? 0)%nat eqn:Hlen.
    + apply bind_inv in Hret as ([] & w4 & _ & Hret).
      apply bind_inv in Hret as ([] & w5 & _ & Hret). done.
    + apply bind_inv in Hret as (p & w4 & Hloop & Hret).
      apply bind_inv in Hret as ([] & w5 & _ & Hret).
      apply bind_inv in Hret as ([] & w6 & _ & Hret).
      apply bind_inv in Hret as ([] & w7 & _ & Hret).
      apply bind_inv in Hret as ([] & w8 & _ & Hret).
      apply bind_inv in Hret as ([] & w9 & _ & Hret).
      cbn in Hret. injection Hret as -> <-.
      apply (f_equal fst) in Hloop. apply backfillLoop_count in Hloop.
      apply Nat.eqb_neq in Hlen. rewrite <- Hperm. lia.
Qed.

Lemma backfillEmbeddings_keeps_embedded_witness :
  let onProgress := Some (λ (message : string) (p : Z), log message) in
  let lacking :=
    filter (λ e, ¬ is_Some (e_embedding e))
      (journal_entries (store examples.searchWorld)) in
  contentsOutside (e_id <$> lacking)
    (store (backfillEmbeddings onProgress examples.quietEnv examples.searchWorld).2)
  = contentsOutside (e_id <$> lacking) (store examples.searchWorld)
  ∧ ∀ processed total,
      (backfillEmbeddings onProgress examples.quietEnv examples.searchWorld).1
      = Ok (Some (processed, total)) →
      total = length lacking ∧ (processed ≤ total)%nat ∧ (0 < total)%nat.
Proof.
  apply (backfillEmbeddings_keeps_embedded
           (Some (λ (message : string) (p : Z), log message))
           examples.quietEnv examples.searchWorld).
  intros callback [= <-] message p env w. reflexivity.
Defined.

(** ** Entries that get their embedding *)

Lemma generateEmbedding_replies text env w :
  dbFails env (dbCalls w) = false →
  is_Some (settingOf (store w) "openai_api_key") →
  (∀ n t, is_Some (embeddingReply env n t)) →
  ∃ embedding w', generateEmbedding text env w = (Ok embedding, w')
    ∧ store w' = store w.
Proof.
  intros Hdb [key Hkey] Hreply.
  unfold generateEmbedding, tryCatch, bind, getSetting, query, dbCall, httpCall.
  rewrite Hdb. cbn [fst snd store afterCall]. rewrite Hkey. cbn [httpCalls].
  match goal with |- context [embeddingReply env ?n ?t] =>
    destruct (Hreply n t) as [v ->] end.
  by eexists _, _.
Qed.

Lemma extractTopics_returns text env w :
  ∃ topics w', extractTopics text env w = (Ok topics, w') ∧ store w' = store w.
Proof.
  destruct (reads_extractTopics text env w) as [Hend Hstore].
  assert (∀ e, (extractTopics text env w).1 ≠ Throw e) as Hthrow.
  { intros e. unfold extractTopics, tryCatch.
    destruct (bind _ _ env w) as [[a|e'|] w']; done. }
  destruct (extractTopics text env w) as [[topics|e|] w']; [|by destruct (Hthrow e)|done].
  by exists topics, w'.
Qed.

Lemma updateJournalEntry_runs i u env w :
  dbFails env (dbCalls w) = false → hasUpdates u = true →
  updateJournalEntry i u env w
  = (Ok tt, afterCall w (withEntries (store w)
              ((λ e, if decide (e_id e = i) then applyUpdates u e else e)
                 <$> journal_entries (store w)))).
Proof. intros Hdb Hu. unfold updateJournalEntry. rewrite Hu. by apply run_runs. Qed.

Section Replies.
Variable env : Env.
Hypothesis Hdb : ∀ n, dbFails env n = false.
Hypothesis Hreply : ∀ n t, is_Some (embeddingReply env n t).

Lemma backfillEntry_embeds total processed entry w :
  is_Some (settingOf (store w) "openai_api_key") →
  ∃ p w' g,
    backfillEntry None total processed entry env w = (Ok p, w')
    ∧ journal_entries (store w') = g <$> journal_entries (store w)
    ∧ settings (store w') = settings (store w)
    ∧ grows g
    ∧ (textOf entry ≠ "" →
       ∀ r, e_id r = e_id entry → is_Some (e_embedding (g r))).
Proof.
  intros Hkey. unfold backfillEntry. destruct (decide (textOf entry = "")) as [E|E].
  - exists processed, (logged w "Skipping entry - no text content"), id.
    split; [done|]. split; [by rewrite list_fmap_id|]. split; [done|].
    split; [done|]. done.
  - set (w1 := logged w "Processing entry...").
    destruct (generateEmbedding_replies (textOf entry) env w1 (Hdb _) Hkey Hreply)
      as (embedding & w2 & Hgen & Hs2).
    pose proof (updateJournalEntry_runs (e_id entry) (embeddingUpdate embedding)
                  env w2 (Hdb _) eq_refl) as Hup1.
    set (w3 := afterCall w2 _) in Hup1.
    destruct (extractTopics_returns (textOf entry) env w3)
      as (topics & w4 & Htop & Hs4).
    pose proof (updateJournalEntry_runs (e_id entry) (topicsUpdate topics)
                  env w4 (Hdb _) eq_refl) as Hup2.
    set (w5 := afterCall w4 _) in Hup2.
    eexists (S processed), _,
      (λ r, (λ e, if decide (e_id e = e_id entry)
                  then applyUpdates (topicsUpdate topics) e else e)
              ((λ e, if decide (e_id e = e_id entry)
                     then applyUpdates (embeddingUpdate embedding) e else e) r)).
    split.
    { erewrite bind_ok; cycle 1.
      - apply tryCatch_ok.
        rewrite (bind_ok _ _ env w tt w1) by done.
        rewrite (bind_ok _ _ _ _ _ _ Hgen), (bind_ok _ _ _ _ _ _ Hup1).
        rewrite (bind_ok _ _ _ _ _ _ Htop), (bind_ok _ _ _ _ _ _ Hup2). done.
      - cbn beta iota. erewrite bind_ok; [done|]. by apply tryCatch_ok. }
    cbn [store logged afterCall journal_entries settings withEntries].
    split.
    { subst w5. cbn [store afterCall journal_entries withEntries].
      rewrite Hs4. subst w3. cbn [store afterCall journal_entries withEntries].
      rewrite Hs2. subst w1. cbn [store logged].
      by rewrite <- list_fmap_compose. }
    split.
    { subst w5. cbn [store afterCall settings withEntries].
      rewrite Hs4. subst w3. cbn [store afterCall settings withEntries].
      by rewrite Hs2. }
    split.
    + intros e. destruct (decide (e_id e = e_id entry)) as [Ee|Ee].
      * cbn [applyUpdates e_id]. rewrite decide_True by exact Ee.
        split; [done|]. split; [done|]. intros _. by eexists.
      * rewrite decide_False by exact Ee. done.
    + intros _ r Hr. cbn beta.
      destruct (decide (e_id r = e_id entry)) as [Ee|Ee]; [|done].
      cbn [applyUpdates e_id]. rewrite decide_True by exact Hr. by eexists.
Qed.

Lemma backfillLoop_embeds total entries processed w :
  is_Some (settingOf (store w) "openai_api_key") →
  ∃ p w' g,
    backfillLoop None total entries processed env w = (Ok p, w')
    ∧ journal_entries (store w') = g <$> journal_entries (store w)
    ∧ grows g
    ∧ (∀ entry, entry ∈ entries → textOf entry ≠ "" →
       ∀ r, e_id r = e_id entry → is_Some (e_embedding (g r))).
Proof.
  revert processed w. induction entries as [|entry rest IH]; intros processed w Hkey.
  - exists processed, w, id. split; [done|]. split; [by rewrite list_fmap_id|].
    split; [done|]. intros entry He. by apply elem_of_nil in He.
  - destruct (backfillEntry_embeds total processed entry w Hkey)
      as (p1 & w1 & g1 & Hrun1 & Hrows1 & Hset1 & Hg1 & Hemb1).
    assert (is_Some (settingOf (store w1) "openai_api_key")) as Hkey1.
    { unfold settingOf in *. by rewrite Hset1. }
    destruct (IH p1 w1 Hkey1) as (p & w' & g & Hrun & Hrows & Hg & Hemb).
    exists p, w', (λ r, g (g1 r)). split.
    { cbn [backfillLoop]. by rewrite (bind_ok _ _ _ _ _ _ Hrun1). }
    split; [by rewrite Hrows, Hrows1, <- list_fmap_compose|]. split.
    + intros e. destruct (Hg (g1 e)) as (-> & -> & H3), (Hg1 e) as (-> & -> & H3').
      split; [done|]. split; [done|]. tauto.
    + intros e He Htext r Hr. apply elem_of_cons in He as [->|He].
      * apply Hg, Hemb1; done.
      * apply (Hemb e He Htext). by rewrite (proj1 (Hg1 r)).
Qed.

End Replies.

(** X26.  When the database and the provider answer and the API key is
    set, a backfill leaves no entry with text without an embedding:
    afterwards every journal entry has an embedding or has neither a
    transcript nor a summary.  This holds whether or not the regeneration
    of the clusters that ends the backfill succeeds. *)
Theorem backfillEmbeddings_embeds (env : Env) (w : World) :
  (∀ n, dbFails env n = false) →
  (∀ n t, is_Some (embeddingReply env n t)) →
  is_Some (settingOf (store w) "openai_api_key") →
  ∀ e, e ∈ journal_entries (store (backfillEmbeddings None env w).2) →
    is_Some (e_embedding e) ∨ textOf e = "".
Proof.
  intros Hdb Hreply Hkey.
  set (found := filter (λ e, ¬ is_Some (e_embedding e))
                  (newestFirst (journal_entries (store w)))).
  assert (∃ g, entryContents (store (backfillEmbeddings None env w).2)
               = withoutCluster <$> (g <$> journal_entries (store w))
               ∧ grows g
               ∧ ∀ entry, entry ∈ found → textOf entry ≠ "" →
                   ∀ r, e_id r = e_id entry → is_Some (e_embedding (g r)))
    as (g & Hrows & Hg & Hemb).
  { unfold backfillEmbeddings.
    rewrite (tryCatch_bind_ok _ _ _ env w tt (logged w "Starting embedding backfill..."))
      by done.
    unfold getJournalEntries. cbn beta.
    rewrite (tryCatch_bind_ok _ _ _ _ _ _ _ (query_runs _ env _ (Hdb _))).
    cbn [store logged]. fold found.
    erewrite tryCatch_bind_ok by done.
    destruct (length found =? 0)%nat eqn:Hlen.
    - exists id. split; [by rewrite list_fmap_id|]. split; [done|].
      apply Nat.eqb_eq, nil_length_inv in Hlen. rewrite Hlen.
      intros entry He. by apply elem_of_nil in He.
    - match goal with |- context [tryCatch _ _ env ?w1] => set (w0 := w1) end.
      destruct (backfillLoop_embeds env Hdb Hreply (length found) found 0%nat w0 Hkey)
        as (p & w' & g & Hrun & Hrows & Hg & Hemb).
      exists g. split; [|done].
      rewrite (tryCatch_bind_ok _ _ _ _ _ _ _ Hrun).
      change (journal_entries (store w)) with (journal_entries (store w0)).
      rewrite <- Hrows. fold (entryContents (store w')).
      revert env w' Hdb Hreply Hrun Hrows.
      intros env' w' _ _ _ _. revert env' w'.
      match goal with |- ∀ env' w', _ (store (?m env' w').2) = _ =>
        change (keepsView entryContents m) end.
      apply view_tryCatch.
      + apply view_bind; [apply view_log|]. intros _.
        apply view_bind; [apply view_ret|]. intros _.
        apply view_bind; [apply contents_regenerateClusters|]. intros _.
        apply view_bind; [apply view_log|]. intros _.
        apply view_bind; [apply view_ret|]. intros _. apply view_ret.
      + intros e. apply view_bind; [apply view_log|]. intros _. apply view_throw. }
  intros e He.
  assert (withoutCluster e ∈ entryContents (store (backfillEmbeddings None env w).2))
    as Hin by (apply list_elem_of_fmap; by exists e).
  rewrite Hrows in Hin. apply list_elem_of_fmap in Hin as (r' & Heq & Hin).
  apply list_elem_of_fmap in Hin as (r & -> & Hr).
  assert (e_embedding e = e_embedding (g r)) as ->
    by exact (f_equal e_embedding Heq).
  assert (textOf e = textOf r) as ->.
  { rewrite <- (proj1 (proj2 (Hg r))). exact (f_equal textOf Heq). }
  destruct (decide (is_Some (e_embedding r))) as [Hsome|Hnone].
  { left. by apply Hg. }
  destruct (decide (textOf r = "")) as [Htext|Htext]; [by right|]. left.
  apply (Hemb r); [|done|done]. subst found.
  rewrite lacking_newestFirst. by apply list_elem_of_filter.
Qed.

Lemma backfillEmbeddings_embeds_witness :
  Forall (λ e, is_Some (e_embedding e) ∨ textOf e = "")
    (journal_entries
       (store (backfillEmbeddings None examples.quietEnv examples.searchWorld).2)).
Proof.
  apply Forall_forall.
  apply (backfillEmbeddings_embeds examples.quietEnv examples.searchWorld).
  - intros n. reflexivity.
  - intros n t. by eexists.
  - by eexists.
Defined.

End Backfill.
